(** * Adaptive rendering quality controller of the 3DGS gallery viewer

    A shallow embedding of the resolution controller (manual-lod.js), the
    ratio applier (ui.js, [setPixelRatio]) and the frustum-culling observer
    (scene.js, [setupFrustumCullingObserver]), with the properties stated
    about them.

    JavaScript numbers are IEEE 754 binary64 values; they are embedded as
    Rocq's primitive [float], which is the same format, so every comparison
    and subtraction below computes the very value the browser computes. *)

(** Further parts of the viewer follow the controller, each in a module of
    its own: the listener registry (event-manager.js, [EM]) with the two
    set-up functions that go through it, the on-screen joystick
    (joystick.js, [Joy]), the panels of ui.js ([UI]) and the lookup of the
    art descriptions (art-descriptions.js, [Art]). *)

From Stdlib Require Import ZArith Bool List Lia String Floats.
From stdpp Require Import base option gmap.
Import ListNotations.

Local Open Scope Z_scope.
Set Warnings "-inexact-float".

(* ------------------------------------------------------------------ *)
(** ** JavaScript numbers *)
(* ------------------------------------------------------------------ *)

Module JS.

Abbreviation number := float.

(** [a < b], [a > b] on numbers: false as soon as one side is NaN. *)
Definition lt (a b : number) : bool := PrimFloat.ltb a b.
Definition gt (a b : number) : bool := PrimFloat.ltb b a.
Definition le (a b : number) : bool := PrimFloat.leb a b.

Definition Math_abs (a : number) : number := PrimFloat.abs a.

(** [Math.min(a, b)] and [Math.max(a, b)]: NaN if either argument is NaN,
    and -0 is smaller than +0. *)
Definition Math_min (a b : number) : number :=
  if PrimFloat.is_nan a || PrimFloat.is_nan b then PrimFloat.nan
  else if lt a b then a
  else if lt b a then b
  else if PrimFloat.get_sign a then a else b.

Definition Math_max (a b : number) : number :=
  if PrimFloat.is_nan a || PrimFloat.is_nan b then PrimFloat.nan
  else if lt a b then b
  else if lt b a then a
  else if PrimFloat.get_sign b then a else b.

(** Truthiness of a value that is either [undefined]/[null] or a boolean. *)
Definition truthy (v : option bool) : bool :=
  match v with Some b => b | None => false end.

(** Truthiness of a value that is either [null] or an object (or a timer
    id, which the host never allocates as 0). *)
Definition defined {A : Type} (v : option A) : bool :=
  match v with Some _ => true | None => false end.

End JS.

(* ------------------------------------------------------------------ *)
(** ** Data model *)
(* ------------------------------------------------------------------ *)

(** BABYLON.Vector3 and BABYLON.Quaternion, by value. *)
Record Vector3 := mkVector3 { vx : float; vy : float; vz : float }.
Record Quaternion := mkQuaternion { qx : float; qy : float; qz : float; qw : float }.

(** [BABYLON.Vector3.DistanceSquared] and [BABYLON.Quaternion.Dot], as the
    engine library computes them. *)
Definition DistanceSquared (a b : Vector3) : float :=
  let dx := (vx a - vx b)%float in
  let dy := (vy a - vy b)%float in
  let dz := (vz a - vz b)%float in
  (dx * dx + dy * dy + dz * dz)%float.

Definition Dot (a b : Quaternion) : float :=
  (qx a * qx b + qy a * qy b + qz a * qz b + qw a * qw b)%float.

(** The part of the engine and of the camera that the controller reads. *)
Record Engine := mkEngine {
  engineIsDisposed : bool;
  hardwareScalingLevel : float
}.

Record Camera := mkCamera {
  position : Vector3;
  rotation : Vector3;
  rotationQuaternion : option Quaternion;
  cameraIsDisposed : bool
}.

(** The splat mesh as the culler sees it. [getBoundingInfo] is [None] when
    the mesh has no such method. *)
Record BoundingSphere := mkSphere { center : Vector3; radius : float }.
Record BoundingInfo := mkBoundingInfo { boundingSphere : BoundingSphere }.

Record Mesh := mkMesh {
  uniqueId : N;
  _cachedBoundingInfo : option BoundingInfo;
  getBoundingInfo : option BoundingInfo;
  isVisible : bool
}.

(** PIXEL_RATIO_PRESETS of manual-lod.js. *)
Record PresetEntry := mkPreset { pixelRatio : float; label : string }.

Definition PRESET_FULL : PresetEntry := mkPreset 1.0 "Full (100%)".
Definition PRESET_HIGH : PresetEntry := mkPreset 0.75 "High (75%)".
Definition PRESET_MEDIUM : PresetEntry := mkPreset 0.5 "Medium (50%)".
Definition PRESET_LOW : PresetEntry := mkPreset 0.35 "Low (35%)".

(** [PIXEL_RATIO_PRESETS[presetName]], on the object's own keys. *)
Definition PIXEL_RATIO_PRESETS (presetName : string) : option PresetEntry :=
  if String.eqb presetName "FULL" then Some PRESET_FULL
  else if String.eqb presetName "HIGH" then Some PRESET_HIGH
  else if String.eqb presetName "MEDIUM" then Some PRESET_MEDIUM
  else if String.eqb presetName "LOW" then Some PRESET_LOW
  else None.

(** Constants of manual-lod.js and of config.js. *)
Definition DRS_CHECK_INTERVAL : Z := 5.
Definition movementDetectionThresholdPosSq : float := 0.0005.
Definition movementDetectionThresholdRotDot : float := 0.99995.
Definition timeUntilResolutionIncrease : Z := 750.
Definition joystickMovementThreshold : float := 0.1.
Definition DEFAULT_PIXEL_RATIO : float := 0.5.

(** What the controller does to the outside, in the order it happens. *)
Inductive Effect :=
| SetHardwareScalingLevel (level : float)
| UpdateButtonActiveStates (dynamic : bool) (preset : option string)
| UpdatePerformanceIndicator
| WriteIsVisible (mesh : N) (visible : bool).

(** Script-level variables of manual-lod.js. *)
Record Lod := mkLod {
  isDynamicResolutionActive : bool;
  currentPixelRatioPreset : option string;
  drsFrameCounter : Z;
  dynamicHighPixelRatio : float;
  dynamicLowPixelRatio : float;
  movementTimeoutId : option positive;
  lastCameraPosition : option Vector3;
  lastCameraRotationQ : option Quaternion;
  isConsideredMoving : bool
}.

(** Properties of [window]. [window.isConsideredMoving] is a property of its
    own: a top-level [let] of a script does not create one. *)
Record Win := mkWin {
  currentPixelRatio : float;
  joystickActive : bool;
  joystickVisible : bool;
  joystickVector : option (float * float);
  window_isConsideredMoving : option bool;
  window_updatePerformanceIndicator : bool
}.

(** Closure variables of the frustum-culling observer (scene.js). *)
Record CacheEntry := mkCacheEntry {
  cachedBoundingInfo : BoundingInfo;
  cachedBoundingSphere : BoundingSphere
}.

Record Culler := mkCuller {
  frustumCheckCount : Z;
  lastVisibilityState : bool;
  boundingCache : gmap N CacheEntry;
  cullIsMobile : bool;
  cullIsLowEndDevice : bool
}.

(** A pending [setTimeout]: its id and the time at which it is due. The only
    callback the controller schedules is the resolution-increase one. *)
Record Timer := mkTimer { timerId : positive; dueTime : Z }.

(** The host: globals of main.js, the document, the clock and the timer
    queue. Of [navigator.userAgent] the code only uses two regular-expression
    tests, whose results are kept here: [uaMobile] for the mobile pattern and
    [uaLowEndModel] for the low-end model pattern. *)
Record Host := mkHost {
  engine : option Engine;
  scene : bool;
  camera : option Camera;
  currentSplatMesh : option Mesh;
  documentHidden : bool;
  uaMobile : bool;
  uaLowEndModel : bool;
  screenWidth : Z;
  screenHeight : Z;
  now : Z;
  timers : list Timer;
  nextTimerId : positive;
  effects : list Effect
}.

Record World := mkWorld {
  lod : Lod;
  win : Win;
  cull : Culler;
  host : Host
}.

(** *** Field updates *)

Definition set_isDynamicResolutionActive (v : bool) (l : Lod) : Lod :=
  mkLod v (currentPixelRatioPreset l) (drsFrameCounter l) (dynamicHighPixelRatio l)
        (dynamicLowPixelRatio l) (movementTimeoutId l) (lastCameraPosition l)
        (lastCameraRotationQ l) (isConsideredMoving l).
Definition set_currentPixelRatioPreset (v : option string) (l : Lod) : Lod :=
  mkLod (isDynamicResolutionActive l) v (drsFrameCounter l) (dynamicHighPixelRatio l)
        (dynamicLowPixelRatio l) (movementTimeoutId l) (lastCameraPosition l)
        (lastCameraRotationQ l) (isConsideredMoving l).
Definition set_drsFrameCounter (v : Z) (l : Lod) : Lod :=
  mkLod (isDynamicResolutionActive l) (currentPixelRatioPreset l) v (dynamicHighPixelRatio l)
        (dynamicLowPixelRatio l) (movementTimeoutId l) (lastCameraPosition l)
        (lastCameraRotationQ l) (isConsideredMoving l).
Definition set_dynamicTargets (high low : float) (l : Lod) : Lod :=
  mkLod (isDynamicResolutionActive l) (currentPixelRatioPreset l) (drsFrameCounter l) high
        low (movementTimeoutId l) (lastCameraPosition l)
        (lastCameraRotationQ l) (isConsideredMoving l).
Definition set_movementTimeoutId (v : option positive) (l : Lod) : Lod :=
  mkLod (isDynamicResolutionActive l) (currentPixelRatioPreset l) (drsFrameCounter l)
        (dynamicHighPixelRatio l) (dynamicLowPixelRatio l) v (lastCameraPosition l)
        (lastCameraRotationQ l) (isConsideredMoving l).
Definition set_lastCamera (p : option Vector3) (q : option Quaternion) (l : Lod) : Lod :=
  mkLod (isDynamicResolutionActive l) (currentPixelRatioPreset l) (drsFrameCounter l)
        (dynamicHighPixelRatio l) (dynamicLowPixelRatio l) (movementTimeoutId l) p q
        (isConsideredMoving l).
Definition set_isConsideredMoving (v : bool) (l : Lod) : Lod :=
  mkLod (isDynamicResolutionActive l) (currentPixelRatioPreset l) (drsFrameCounter l)
        (dynamicHighPixelRatio l) (dynamicLowPixelRatio l) (movementTimeoutId l)
        (lastCameraPosition l) (lastCameraRotationQ l) v.

Definition set_currentPixelRatio (v : float) (x : Win) : Win :=
  mkWin v (joystickActive x) (joystickVisible x) (joystickVector x)
        (window_isConsideredMoving x) (window_updatePerformanceIndicator x).
Definition set_joystick (active visible : bool) (v : option (float * float)) (x : Win) : Win :=
  mkWin (currentPixelRatio x) active visible v
        (window_isConsideredMoving x) (window_updatePerformanceIndicator x).
Definition set_window_updatePerformanceIndicator (v : bool) (x : Win) : Win :=
  mkWin (currentPixelRatio x) (joystickActive x) (joystickVisible x) (joystickVector x)
        (window_isConsideredMoving x) v.

Definition set_engine (v : option Engine) (h : Host) : Host :=
  mkHost v (scene h) (camera h) (currentSplatMesh h) (documentHidden h) (uaMobile h)
         (uaLowEndModel h) (screenWidth h) (screenHeight h) (now h) (timers h)
         (nextTimerId h) (effects h).
Definition set_scene (v : bool) (h : Host) : Host :=
  mkHost (engine h) v (camera h) (currentSplatMesh h) (documentHidden h) (uaMobile h)
         (uaLowEndModel h) (screenWidth h) (screenHeight h) (now h) (timers h)
         (nextTimerId h) (effects h).
Definition set_camera (v : option Camera) (h : Host) : Host :=
  mkHost (engine h) (scene h) v (currentSplatMesh h) (documentHidden h) (uaMobile h)
         (uaLowEndModel h) (screenWidth h) (screenHeight h) (now h) (timers h)
         (nextTimerId h) (effects h).
Definition set_currentSplatMesh (v : option Mesh) (h : Host) : Host :=
  mkHost (engine h) (scene h) (camera h) v (documentHidden h) (uaMobile h)
         (uaLowEndModel h) (screenWidth h) (screenHeight h) (now h) (timers h)
         (nextTimerId h) (effects h).
Definition set_documentHidden (v : bool) (h : Host) : Host :=
  mkHost (engine h) (scene h) (camera h) (currentSplatMesh h) v (uaMobile h)
         (uaLowEndModel h) (screenWidth h) (screenHeight h) (now h) (timers h)
         (nextTimerId h) (effects h).
Definition set_now (v : Z) (h : Host) : Host :=
  mkHost (engine h) (scene h) (camera h) (currentSplatMesh h) (documentHidden h) (uaMobile h)
         (uaLowEndModel h) (screenWidth h) (screenHeight h) v (timers h)
         (nextTimerId h) (effects h).
Definition set_timers (v : list Timer) (h : Host) : Host :=
  mkHost (engine h) (scene h) (camera h) (currentSplatMesh h) (documentHidden h) (uaMobile h)
         (uaLowEndModel h) (screenWidth h) (screenHeight h) (now h) v
         (nextTimerId h) (effects h).
Definition set_nextTimerId (v : positive) (h : Host) : Host :=
  mkHost (engine h) (scene h) (camera h) (currentSplatMesh h) (documentHidden h) (uaMobile h)
         (uaLowEndModel h) (screenWidth h) (screenHeight h) (now h) (timers h)
         v (effects h).
Definition set_effects (v : list Effect) (h : Host) : Host :=
  mkHost (engine h) (scene h) (camera h) (currentSplatMesh h) (documentHidden h) (uaMobile h)
         (uaLowEndModel h) (screenWidth h) (screenHeight h) (now h) (timers h)
         (nextTimerId h) v.

Definition upd_lod (f : Lod -> Lod) (w : World) : World :=
  mkWorld (f (lod w)) (win w) (cull w) (host w).
Definition upd_win (f : Win -> Win) (w : World) : World :=
  mkWorld (lod w) (f (win w)) (cull w) (host w).
Definition upd_cull (f : Culler -> Culler) (w : World) : World :=
  mkWorld (lod w) (win w) (f (cull w)) (host w).
Definition upd_host (f : Host -> Host) (w : World) : World :=
  mkWorld (lod w) (win w) (cull w) (f (host w)).

(** An effect is appended to the log. *)
Definition emit (e : Effect) (w : World) : World :=
  upd_host (fun h => set_effects (effects h ++ [e]) h) w.

(* ------------------------------------------------------------------ *)
(** ** Operations *)
(* ------------------------------------------------------------------ *)

(** The engine library is a parameter where the code calls into it for
    something the controller cannot compute itself: the Euler-to-quaternion
    conversion and the frustum test. Console output is not modelled. *)
Section Controller.

Variable FromEulerVector : Vector3 -> Quaternion.
Variable isInFrustum : Camera -> BoundingSphere -> bool.

(** *** Timers of the host *)

Definition setTimeout (delay : Z) (w : World) : positive * World :=
  let id := nextTimerId (host w) in
  (id, upd_host (fun h => set_nextTimerId (Pos.succ id)
                            (set_timers (timers h ++ [mkTimer id (now h + delay)]) h)) w).

Definition isTimer (id : positive) (t : Timer) : bool := Pos.eqb (timerId t) id.

(** [clearTimeout(null)] does nothing. *)
Definition clearTimeout (id : option positive) (w : World) : World :=
  match id with
  | None => w
  | Some i =>
      upd_host (fun h => set_timers (List.filter (fun t => negb (isTimer i t)) (timers h)) h) w
  end.

(** [clearTimeout(movementTimeoutId); movementTimeoutId = null;] *)
Definition cancelMovementTimer (w : World) : World :=
  upd_lod (set_movementTimeoutId None) (clearTimeout (movementTimeoutId (lod w)) w).

(** [!engine || engine.isDisposed] *)
Definition engineUnavailable (w : World) : bool :=
  match engine (host w) with
  | None => true
  | Some e => engineIsDisposed e
  end.

(** *** ui.js: the ratio applier *)

Definition minRatio : float := 0.1.
Definition maxRatio : float := 1.5.

Definition updateButtonActiveStates (w : World) : World :=
  emit (UpdateButtonActiveStates (isDynamicResolutionActive (lod w))
                                 (currentPixelRatioPreset (lod w))) w.

Definition updatePerformanceIndicator (w : World) : World :=
  if engineUnavailable w then w else emit UpdatePerformanceIndicator w.

(** The argument is a number, so the [typeof ratio !== 'number'] disjunct
    of the guard is false. [window.engine] and the global [engine] are the
    same object (main.js assigns one to the other). *)
Definition setPixelRatio (ratio : float) (w : World) : World :=
  let ratio :=
    if JS.lt ratio minRatio || JS.gt ratio maxRatio
    then JS.Math_max minRatio (JS.Math_min maxRatio ratio)
    else ratio in
  if JS.lt (JS.Math_abs (currentPixelRatio (win w) - ratio)%float) 0.01%float then w
  else
    let w := upd_win (set_currentPixelRatio ratio) w in
    let w :=
      match engine (host w) with
      | Some e =>
          let scalingLevel := (1.0 / currentPixelRatio (win w))%float in
          emit (SetHardwareScalingLevel scalingLevel)
               (upd_host (set_engine (Some (mkEngine (engineIsDisposed e) scalingLevel))) w)
      | None => w
      end in
    let w := updateButtonActiveStates w in
    if window_updatePerformanceIndicator (win w) then updatePerformanceIndicator w else w.

(** *** manual-lod.js *)

Definition deactivateDynamicResolution (w : World) : World :=
  if negb (isDynamicResolutionActive (lod w)) || engineUnavailable w
     || documentHidden (host w)
  then w
  else
    let w := upd_lod (fun l => set_drsFrameCounter (drsFrameCounter l + 1) l) w in
    if negb (Z.rem (drsFrameCounter (lod w)) DRS_CHECK_INTERVAL =? 0) then w
    else
      let w := upd_lod (set_isDynamicResolutionActive false) w in
      let w := cancelMovementTimer w in
      upd_lod (set_isConsideredMoving false) w.

Definition applyDynamicResolution (targetRatio : float) (w : World) : World :=
  setPixelRatio targetRatio w.

Definition applyPixelRatioPreset (presetName : string) (w : World) : World :=
  match PIXEL_RATIO_PRESETS presetName with
  | None => w
  | Some preset =>
      let w := deactivateDynamicResolution w in
      let w := upd_lod (set_currentPixelRatioPreset (Some presetName)) w in
      setPixelRatio (pixelRatio preset) w
  end.

(** [camera.rotationQuaternion], created from the Euler angles when absent. *)
Definition cameraQuaternion (cam : Camera) : Quaternion :=
  match rotationQuaternion cam with
  | Some q => q
  | None => FromEulerVector (rotation cam)
  end.

Definition ensureQuaternion (cam : Camera) : Camera :=
  mkCamera (position cam) (rotation cam) (Some (cameraQuaternion cam)) (cameraIsDisposed cam).

(** The part of [hasCameraMoved] after the snapshot is known to exist:
    [lastP], [lastQ] are the snapshot. *)
Definition compareWithSnapshot (forceCheck : bool) (cam : Camera)
           (lastP : Vector3) (lastQ : Quaternion) (w : World) : bool * World :=
  let posChangeSq := DistanceSquared (position cam) lastP in
  let posChanged := JS.gt posChangeSq movementDetectionThresholdPosSq in
  let cam := ensureQuaternion cam in
  let w := upd_host (set_camera (Some cam)) w in
  let rotDot := JS.Math_abs (Dot (cameraQuaternion cam) lastQ) in
  let rotChanged := JS.lt rotDot movementDetectionThresholdRotDot in
  let joyX := match joystickVector (win w) with Some v => fst v | None => 0%float end in
  let joyY := match joystickVector (win w) with Some v => snd v | None => 0%float end in
  let joystickMoving :=
    joystickActive (win w) && joystickVisible (win w)
    && (JS.gt (JS.Math_abs joyX) joystickMovementThreshold
        || JS.gt (JS.Math_abs joyY) joystickMovementThreshold) in
  let moved := posChanged || rotChanged || joystickMoving in
  let w :=
    if negb forceCheck then
      if isDynamicResolutionActive (lod w) || moved
      then upd_lod (set_lastCamera (Some (position cam)) (Some (cameraQuaternion cam))) w
      else w
    else w in
  (moved, w).

Definition hasCameraMoved (forceCheck : bool) (w : World) : bool * World :=
  match camera (host w) with
  | None => (false, w)
  | Some cam =>
      if engineUnavailable w then (false, w)
      else
        match lastCameraPosition (lod w), lastCameraRotationQ (lod w) with
        | Some lastP, Some lastQ => compareWithSnapshot forceCheck cam lastP lastQ w
        | _, _ =>
            let cam := ensureQuaternion cam in
            let w := upd_host (set_camera (Some cam)) w in
            let w := upd_lod (set_lastCamera (Some (position cam))
                                             (Some (cameraQuaternion cam))) w in
            if negb forceCheck then (false, w)
            else compareWithSnapshot forceCheck cam (position cam) (cameraQuaternion cam) w
        end
  end.

Definition activateDynamicResolution (w : World) : World :=
  if isDynamicResolutionActive (lod w) then w
  else
    let w := upd_lod (set_isDynamicResolutionActive true) w in
    let w := upd_lod (set_currentPixelRatioPreset None) w in
    let checked := hasCameraMoved true w in
    let currentlyMoving := fst checked in
    let w := snd checked in
    let w := upd_lod (set_isConsideredMoving currentlyMoving) w in
    let w :=
      if currentlyMoving then applyDynamicResolution (dynamicLowPixelRatio (lod w)) w
      else
        let w := applyDynamicResolution (dynamicHighPixelRatio (lod w)) w in
        cancelMovementTimer w in
    updateButtonActiveStates w.

(** The callback handed to [setTimeout] by [updateDynamicResolutionLogic]. *)
Definition resolutionIncreaseCallback (w : World) : World :=
  let w :=
    if isDynamicResolutionActive (lod w) then
      let w := applyDynamicResolution (dynamicHighPixelRatio (lod w)) w in
      upd_lod (set_isConsideredMoving false) w
    else upd_lod (set_isConsideredMoving false) w in
  upd_lod (set_movementTimeoutId None) w.

Definition updateDynamicResolutionLogic (w : World) : World :=
  if negb (isDynamicResolutionActive (lod w)) || engineUnavailable w
     || negb (scene (host w)) || negb (JS.defined (camera (host w)))
     || documentHidden (host w)
  then
    if negb (isDynamicResolutionActive (lod w))
       && JS.defined (movementTimeoutId (lod w))
    then cancelMovementTimer w
    else w
  else
    let checked := hasCameraMoved false w in
    let movedThisFrame := fst checked in
    let w := snd checked in
    if movedThisFrame then
      let w := upd_lod (set_isConsideredMoving true) w in
      let w :=
        if JS.gt (JS.Math_abs (currentPixelRatio (win w) - dynamicLowPixelRatio (lod w))%float)
                 0.01%float
        then applyDynamicResolution (dynamicLowPixelRatio (lod w)) w
        else w in
      if JS.defined (movementTimeoutId (lod w))
      then cancelMovementTimer w
      else w
    else
      if negb (JS.defined (movementTimeoutId (lod w))) then
        let scheduled := setTimeout timeUntilResolutionIncrease w in
        upd_lod (set_movementTimeoutId (Some (fst scheduled))) (snd scheduled)
      else w.

(** [initDynamicResolutionSystem]: the snapshot is taken when the camera is
    there. The observer it registers is what [EvFrame] below runs. *)
Definition initDynamicResolutionSystem (w : World) : World :=
  if negb (scene (host w)) then w
  else
    match camera (host w) with
    | Some cam =>
        let cam := ensureQuaternion cam in
        let w := upd_host (set_camera (Some cam)) w in
        upd_lod (set_lastCamera (Some (position cam)) (Some (cameraQuaternion cam))) w
    | None => w
    end.

(** [addPerformanceIndicator] defines [window.updatePerformanceIndicator]
    and calls it once. *)
Definition addPerformanceIndicator (w : World) : World :=
  updatePerformanceIndicator (upd_win (set_window_updatePerformanceIndicator true) w).

(** [initManualLOD]; [window.setPixelRatio] is defined, ui.js being loaded. *)
Definition initManualLOD (w : World) : World :=
  addPerformanceIndicator (initDynamicResolutionSystem (updateButtonActiveStates w)).

(** The two local variables of [initWithDefaults]. *)
Definition initialModeIsDynamic : bool := true.
Definition initialManualPreset : string := "MEDIUM".

Definition initWithDefaults (w : World) : World :=
  let isMobile := uaMobile (host w) in
  let w :=
    if isMobile
    then upd_lod (set_dynamicTargets (pixelRatio PRESET_MEDIUM) (pixelRatio PRESET_LOW)) w
    else upd_lod (set_dynamicTargets (pixelRatio PRESET_FULL) (pixelRatio PRESET_MEDIUM)) w in
  if initialModeIsDynamic then
    let w := if JS.defined (camera (host w)) then snd (hasCameraMoved true w) else w in
    activateDynamicResolution w
  else applyPixelRatioPreset initialManualPreset w.

(** [cleanupManualLOD], without the observer, the indicator interval and
    the DOM node it also removes. *)
Definition cleanupManualLOD (w : World) : World :=
  let w :=
    if JS.defined (movementTimeoutId (lod w))
    then cancelMovementTimer w
    else w in
  let w := upd_lod (set_isDynamicResolutionActive false) w in
  let w := upd_lod (set_currentPixelRatioPreset None) w in
  let w := upd_lod (set_lastCamera None None) w in
  upd_lod (set_isConsideredMoving false) w.

(** *** scene.js: the frustum-culling observer *)

(** [setupFrustumCullingObserver]: fresh closure variables. *)
Definition setupFrustumCullingObserver (w : World) : World :=
  let isMobile := uaMobile (host w) in
  let isLowEndDevice :=
    isMobile && (uaLowEndModel (host w)
                 || (screenWidth (host w) * screenHeight (host w) <? 1000000)) in
  upd_cull (fun _ => mkCuller 0 true ∅ isMobile isLowEndDevice) w.

Definition checkInterval (w : World) : Z :=
  let moving := joystickActive (win w) || JS.truthy (window_isConsideredMoving (win w)) in
  if cullIsLowEndDevice (cull w) then (if moving then 12 else 60)
  else if cullIsMobile (cull w) then (if moving then 8 else 45)
  else (if moving then 5 else 30).

Definition set_frustumCheckCount (v : Z) (c : Culler) : Culler :=
  mkCuller v (lastVisibilityState c) (boundingCache c) (cullIsMobile c) (cullIsLowEndDevice c).
Definition set_lastVisibilityState (v : bool) (c : Culler) : Culler :=
  mkCuller (frustumCheckCount c) v (boundingCache c) (cullIsMobile c) (cullIsLowEndDevice c).
Definition set_boundingCache (v : gmap N CacheEntry) (c : Culler) : Culler :=
  mkCuller (frustumCheckCount c) (lastVisibilityState c) v (cullIsMobile c) (cullIsLowEndDevice c).

(** [currentSplatMesh.isVisible = v], with the write recorded. *)
Definition writeIsVisible (v : bool) (w : World) : World :=
  match currentSplatMesh (host w) with
  | Some mesh =>
      emit (WriteIsVisible (uniqueId mesh) v)
           (upd_host (set_currentSplatMesh
                        (Some (mkMesh (uniqueId mesh) (_cachedBoundingInfo mesh)
                                      (getBoundingInfo mesh) v))) w)
  | None => w
  end.

(** Where the bounding sphere of the mesh comes from, in the order the
    observer tries: its own cache, the info cached on the mesh, a fresh
    [getBoundingInfo()]. [None] when all three fail. The second component
    is the world after the caching this entails. *)
Definition lookupBounding (mesh : Mesh) (w : World) : option BoundingSphere * World :=
  match boundingCache (cull w) !! uniqueId mesh with
  | Some cachedData => (Some (cachedBoundingSphere cachedData), w)
  | None =>
      match _cachedBoundingInfo mesh with
      | Some info =>
          (Some (boundingSphere info),
           upd_cull (fun c => set_boundingCache
                       (<[uniqueId mesh := mkCacheEntry info (boundingSphere info)]>
                          (boundingCache c)) c) w)
      | None =>
          match getBoundingInfo mesh with
          | Some info =>
              let w := upd_cull (fun c => set_boundingCache
                         (<[uniqueId mesh := mkCacheEntry info (boundingSphere info)]>
                            (boundingCache c)) c) w in
              (Some (boundingSphere info),
               upd_host (set_currentSplatMesh
                           (Some (mkMesh (uniqueId mesh) (Some info)
                                         (getBoundingInfo mesh) (isVisible mesh)))) w)
          | None => (None, w)
          end
      end
  end.

(** [if (lastVisibilityState !== v) { currentSplatMesh.isVisible = v;
    lastVisibilityState = v; }], which the observer does with [true] when it
    has no bounding information and with the frustum test otherwise. *)
Definition updateVisibility (v : bool) (w : World) : World :=
  if negb (Bool.eqb (lastVisibilityState (cull w)) v) then
    let w := writeIsVisible v w in
    upd_cull (set_lastVisibilityState v) w
  else w.

(** The periodic purge of the cache. *)
Definition purgeCache (w : World) : World :=
  if frustumCheckCount (cull w) >? 1000 then
    upd_cull (fun c => set_frustumCheckCount 0 (set_boundingCache ∅ c)) w
  else w.

(** The callback registered on [onBeforeRenderObservable]. *)
Definition frustumCullObserver (w : World) : World :=
  let interval := checkInterval w in
  let w := upd_cull (fun c => set_frustumCheckCount (frustumCheckCount c + 1) c) w in
  if negb (Z.rem (frustumCheckCount (cull w)) interval =? 0) then w
  else
    match currentSplatMesh (host w), camera (host w) with
    | Some mesh, Some cam =>
        if cameraIsDisposed cam then w
        else
          let found := lookupBounding mesh w in
          let w := snd found in
          match fst found with
          | None => updateVisibility true w
          | Some sphere =>
              let inFrustum := isInFrustum cam sphere in
              purgeCache (updateVisibility inFrustum w)
          end
    | _, _ => w
    end.

(** *** The host drives the controller *)

Definition removeTimer (id : positive) (w : World) : World :=
  upd_host (fun h => set_timers (List.filter (fun t => negb (isTimer id t)) (timers h)) h) w.

(** A timer that is still pending leaves the queue and its callback runs. *)
Definition fireTimer (w : World) (t : Timer) : World :=
  if existsb (isTimer (timerId t)) (timers (host w))
  then resolutionIncreaseCallback (removeTimer (timerId t) w)
  else w.

Definition isDue (time : Z) (t : Timer) : bool := dueTime t <=? time.

(** The clock advances by [dt] and the timers that are due fire, oldest
    first. *)
Definition elapse (dt : N) (w : World) : World :=
  let w := upd_host (fun h => set_now (now h + Z.of_N dt) h) w in
  fold_left fireTimer (List.filter (isDue (now (host w))) (timers (host w))) w.

(** What can happen to the controller: calls from main.js and from the
    settings buttons, rendered frames, time passing, and changes of what the
    controller reads from its collaborators. A mesh that [loadSplat] brings
    in is visible, as the engine creates it. *)
Inductive Event :=
| EvInitManualLOD
| EvInitWithDefaults
| EvPreset (presetName : string)
| EvDynamic
| EvFrame
| EvElapse (dt : N)
| EvCleanup
| EvCamera (cam : option Camera)
| EvJoystick (active visible : bool) (v : option (float * float))
| EvHidden (hidden : bool)
| EvEngine (e : option Engine)
| EvScene (present : bool)
| EvMesh (id : N) (cached : option BoundingInfo) (fresh : option BoundingInfo)
| EvNoMesh.

(** On a frame the observers run in the order they were registered: the
    culling observer (initScene), then the resolution logic (initManualLOD). *)
Definition exec (ev : Event) (w : World) : World :=
  match ev with
  | EvInitManualLOD => initManualLOD w
  | EvInitWithDefaults => initWithDefaults w
  | EvPreset presetName => applyPixelRatioPreset presetName w
  | EvDynamic => activateDynamicResolution w
  | EvFrame => updateDynamicResolutionLogic (frustumCullObserver w)
  | EvElapse dt => elapse dt w
  | EvCleanup => cleanupManualLOD w
  | EvCamera cam => upd_host (set_camera cam) w
  | EvJoystick active visible v => upd_win (set_joystick active visible v) w
  | EvHidden hidden => upd_host (set_documentHidden hidden) w
  | EvEngine e => upd_host (set_engine e) w
  | EvScene present => upd_host (set_scene present) w
  | EvMesh id cached fresh =>
      upd_host (set_currentSplatMesh (Some (mkMesh id cached fresh true))) w
  | EvNoMesh => upd_host (set_currentSplatMesh None) w
  end.

Definition run (evs : list Event) (w : World) : World :=
  fold_left (fun w ev => exec ev w) evs w.

(** The state when the scripts have been loaded: the initial values of the
    script-level variables, of the window properties and of the closure of
    the culling observer, on a given host. *)
Definition initialLod : Lod :=
  mkLod false None 0 (pixelRatio PRESET_HIGH) (pixelRatio PRESET_MEDIUM) None None None false.

Definition initialWin : Win :=
  mkWin DEFAULT_PIXEL_RATIO false false (Some (0%float, 0%float)) None false.

Definition initialWorld (mobile lowEndModel : bool) (width height : Z)
           (e : option Engine) (cam : option Camera) (mesh : option Mesh) : World :=
  setupFrustumCullingObserver
    (mkWorld initialLod initialWin (mkCuller 0 true ∅ false false)
             (mkHost e true cam mesh false mobile lowEndModel width height 0 [] 1%positive [])).

(** The mesh that initScene has loaded, if any, is visible. *)
Definition freshMesh (mesh : option Mesh) : Prop :=
  match mesh with Some m => isVisible m = true | None => True end.

Definition booted (w : World) : Prop :=
  exists mobile lowEndModel width height e cam mesh,
    freshMesh mesh /\
    w = initialWorld mobile lowEndModel width height e cam mesh.

Definition reachable (w : World) : Prop :=
  exists w0 evs, booted w0 /\ w = run evs w0.

End Controller.

(** ** Concrete hosts, for running the controller *)

Module Demo.

(** Stand-ins for the two engine functions: every Euler vector maps to the
    identity rotation, and a sphere is in view when the camera is within
    ten units of its centre along x. *)
Definition euler (_ : Vector3) : Quaternion := mkQuaternion 0 0 0 1.
Definition frustum (cam : Camera) (s : BoundingSphere) : bool :=
  JS.lt (JS.Math_abs (vx (position cam) - vx (center s))%float) 10%float.

Definition cameraAt (x : float) : Camera :=
  mkCamera (mkVector3 x 1.7 (-20)) (mkVector3 0 0 0) None false.

Definition sphere : BoundingSphere := mkSphere (mkVector3 0 0 0) 5.
Definition splat : Mesh :=
  mkMesh 7 (Some (mkBoundingInfo sphere)) (Some (mkBoundingInfo sphere)) true.
Definition bareMesh : Mesh := mkMesh 8 None None true.

Definition theEngine : Engine := mkEngine false 1.

Definition desktop : World :=
  initialWorld false false 1920 1080 (Some theEngine) (Some (cameraAt 0)) (Some splat).
Definition mobileLowEnd : World :=
  initialWorld true true 800 600 (Some theEngine) (Some (cameraAt 0)) (Some splat).

Definition go (evs : list Event) (w : World) : World := run euler frustum evs w.

(** The camera is put at [x] and five frames are rendered: with the
    joystick held, the fifth is a check frame on a desktop. *)
Definition feed (x : float) : list Event :=
  EvCamera (Some (cameraAt x)) :: repeat EvFrame 5.

(** Boot on a host, as main.js does it. *)
Definition boot : list Event := [EvInitManualLOD; EvInitWithDefaults].

(** Dynamic mode with the resolution-increase timer pending: boot, then one
    stationary frame. *)
Definition dynamicPending : World := go (boot ++ [EvFrame]) desktop.

(** Manual mode with the Medium preset: a fifth click on the button gets
    through the counter of [deactivateDynamicResolution]. *)
Definition manualMedium (w : World) : World :=
  go (boot ++ repeat (EvPreset "MEDIUM") 5) w.

(** The same on the low-end mobile host, the camera moved since the last
    snapshot. *)
Definition manualMediumMoving : World :=
  go [EvCamera (Some (cameraAt 1))] (manualMedium mobileLowEnd).

(** Manual mode with a timer still in the queue. *)
Definition staleTimer : World :=
  upd_lod (set_movementTimeoutId (Some 1%positive))
          (upd_host (set_timers [mkTimer 1 750]) desktop).

(** Dynamic mode on a desktop, the camera moving, the joystick at rest. *)
Definition movingDesktop : World :=
  go (boot ++ [EvCamera (Some (cameraAt 1)); EvFrame]) desktop.

(** The splat went out of view and was hidden, then a mesh without any
    bounding information took its place; the next frame is a check frame. *)
Definition beforeBlindCheck : World :=
  go (EvJoystick true true None :: EvCamera (Some (cameraAt 50)) :: repeat EvFrame 5
      ++ EvMesh 8 None None :: repeat EvFrame 4) desktop.

(** In view twice, out of view twice, in view again. *)
Definition sweep : list Event :=
  EvJoystick true true None :: feed 0 ++ feed 0 ++ feed 50 ++ feed 50 ++ feed 0.

Definition ratio (w : World) : float := currentPixelRatio (win w).

End Demo.

(* ------------------------------------------------------------------ *)
(** ** Vocabulary of the properties *)
(* ------------------------------------------------------------------ *)

(** [clamp(r, lo, hi)], as the specification of the applier writes it. *)
Definition clamp (r lo hi : float) : float := JS.Math_max lo (JS.Math_min hi r).

(** The ratio the applier leaves behind when the stored one is [cur] and it
    is asked for [r]: the clamped request, unless the stored ratio is within
    0.01 of it. *)
Definition storedAfter (cur r : float) : float :=
  let target := clamp r minRatio maxRatio in
  if JS.lt (JS.Math_abs (cur - target)%float) 0.01%float then cur else target.

Definition withinBounds (x : float) : bool := JS.le minRatio x && JS.le x maxRatio.

(** The ratios of the four presets. *)
Definition presetRatios : list float :=
  [pixelRatio PRESET_FULL; pixelRatio PRESET_HIGH; pixelRatio PRESET_MEDIUM;
   pixelRatio PRESET_LOW].

Definition storedRatio (w : World) : float := currentPixelRatio (win w).

(** The camera-pose snapshot of the movement detector, and the pose a
    refresh stores. *)
Definition snapshot (w : World) : option Vector3 * option Quaternion :=
  (lastCameraPosition (lod w), lastCameraRotationQ (lod w)).

Definition poseOf (FromEulerVector : Vector3 -> Quaternion) (cam : Camera)
  : option Vector3 * option Quaternion :=
  (Some (position cam), Some (cameraQuaternion FromEulerVector cam)).

(** Writes of [isVisible] among the effects so far. *)
Definition isVisibilityWrite (e : Effect) : bool :=
  match e with WriteIsVisible _ _ => true | _ => false end.

Definition visibilityWrites (w : World) : nat :=
  length (List.filter isVisibilityWrite (effects (host w))).

(** What belongs to the culler, and what the invariant of the resolution
    controller is about besides the stored ratio. *)
Definition cullPart (w : World) : Culler * option Mesh * nat :=
  (cull w, currentSplatMesh (host w), visibilityWrites w).

Definition drsRest (w : World)
  : float * float * list Timer * option positive * option bool :=
  (dynamicHighPixelRatio (lod w), dynamicLowPixelRatio (lod w),
   timers (host w), movementTimeoutId (lod w), window_isConsideredMoving (win w)).

(** What the culling observer leaves alone: the variables of the resolution
    controller, the window, and of the host everything but the mesh and the
    effects. *)
Definition besideCulling (w : World) :=
  (lod w, win w, engine (host w), scene (host w), camera (host w),
   documentHidden (host w), now (host w), timers (host w), nextTimerId (host w)).

(** The frames the culling observer consumes a result on, and the result:
    [None] on a frame it skips (the interval gate, a missing mesh or camera),
    [Some true] on a frame without bounding information (the observer then
    takes the mesh for visible), and otherwise the frustum test. *)
Definition checkOutcome (isInFrustum : Camera -> BoundingSphere -> bool) (w : World)
  : option bool :=
  if negb (Z.rem (frustumCheckCount (cull w) + 1) (checkInterval w) =? 0) then None
  else
    match currentSplatMesh (host w), camera (host w) with
    | Some mesh, Some cam =>
        if cameraIsDisposed cam then None
        else
          match fst (lookupBounding mesh w) with
          | None => Some true
          | Some sphere => Some (isInFrustum cam sphere)
          end
    | _, _ => None
    end.

(** A check frame on which no bounding information can be obtained. *)
Definition noBoundingFrame (w : World) : bool :=
  (Z.rem (frustumCheckCount (cull w) + 1) (checkInterval w) =? 0)
  && match currentSplatMesh (host w), camera (host w) with
     | Some mesh, Some cam =>
         negb (cameraIsDisposed cam) && negb (JS.defined (fst (lookupBounding mesh w)))
     | _, _ => false
     end.

(** The results consumed along a run, in order. *)
Fixpoint consumedResults (FromEulerVector : Vector3 -> Quaternion)
         (isInFrustum : Camera -> BoundingSphere -> bool)
         (evs : list Event) (w : World) : list bool :=
  match evs with
  | [] => []
  | ev :: rest =>
      match ev with
      | EvFrame => match checkOutcome isInFrustum w with Some b => [b] | None => [] end
      | _ => []
      end ++ consumedResults FromEulerVector isInFrustum rest
                             (exec FromEulerVector isInFrustum ev w)
  end.

(** Changes of value along a list of results, starting from the cached one. *)
Fixpoint transitions (last : bool) (results : list bool) : nat :=
  match results with
  | [] => 0%nat
  | b :: rest => ((if Bool.eqb last b then 0 else 1) + transitions b rest)%nat
  end.

(** The interval a tier uses while moving and while stationary. *)
Definition tierInterval (c : Culler) (moving : bool) : Z :=
  if cullIsLowEndDevice c then (if moving then 12 else 60)
  else if cullIsMobile c then (if moving then 8 else 45)
  else (if moving then 5 else 30).

(** The pairs (high, low) of Dynamic targets: the initial one and the two
    that [initWithDefaults] sets. *)
Definition targetPairs : list (float * float) :=
  [(pixelRatio PRESET_HIGH, pixelRatio PRESET_MEDIUM);
   (pixelRatio PRESET_MEDIUM, pixelRatio PRESET_LOW);
   (pixelRatio PRESET_FULL, pixelRatio PRESET_MEDIUM)].

(** The stored ratio and the targets are preset ratios, every pending timer
    is the one whose id the controller holds, and [window.isConsideredMoving]
    is undefined. *)
Definition drsConsistent (w : World) : Prop :=
  In (storedRatio w) presetRatios
  /\ In (dynamicHighPixelRatio (lod w), dynamicLowPixelRatio (lod w)) targetPairs
  /\ (forall t, In t (timers (host w)) -> movementTimeoutId (lod w) = Some (timerId t))
  /\ window_isConsideredMoving (win w) = None.

(** A mesh the culler believes visible is visible. *)
Definition cullConsistent (w : World) : Prop :=
  match currentSplatMesh (host w) with
  | Some m => lastVisibilityState (cull w) = true -> isVisible m = true
  | None => True
  end.

(* ------------------------------------------------------------------ *)
(** ** Further vocabulary: timers and modes *)
(* ------------------------------------------------------------------ *)

(** The timer discipline of the controller: either nothing is pending and
    no id is held, or exactly one timer is pending, it is the one whose id
    is held, Dynamic mode is on, and the timer is due within the
    resolution-increase delay. *)
Definition timerDiscipline (w : World) : Prop :=
  (timers (host w) = [] /\ movementTimeoutId (lod w) = None)
  \/ (exists t, timers (host w) = [t]
                /\ movementTimeoutId (lod w) = Some (timerId t)
                /\ isDynamicResolutionActive (lod w) = true
                /\ dueTime t <= now (host w) + timeUntilResolutionIncrease).

(** Events that are not a call into the controller by main.js or by a
    button: frames, time, and changes of what the controller reads. *)
Definition passive (ev : Event) : bool :=
  match ev with
  | EvInitManualLOD | EvInitWithDefaults | EvPreset _ | EvDynamic | EvCleanup => false
  | _ => true
  end.


(** The joystick is held beyond its dead zone. *)
Definition joystickDeflected (w : World) : bool :=
  joystickActive (win w) && joystickVisible (win w)
  && match joystickVector (win w) with
     | Some v => JS.gt (JS.Math_abs (fst v)) joystickMovementThreshold
                 || JS.gt (JS.Math_abs (snd v)) joystickMovementThreshold
     | None => false
     end.

(** ** Further hosts and runs *)

Module Scenes.


(** What happens around a manual preset without any call into the
    controller: the camera moves, frames are rendered, a second passes. *)
Definition idleEvents : list Event :=
  [EvCamera (Some (Demo.cameraAt 3)); EvFrame; EvJoystick true true (Some (1, 0)%float);
   EvFrame; EvElapse 1000; EvFrame; EvHidden true; EvFrame].

(** The joystick pushed to the right on the desktop host. *)
Definition joystickPushed : World :=
  Demo.go [EvJoystick true true (Some (0.5, 0)%float)] Demo.desktop.

End Scenes.

(** The snapshot is the pose of the camera. *)
Definition snapshotIsPose (FromEulerVector : Vector3 -> Quaternion) (w : World) : Prop :=
  match camera (host w) with
  | Some cam => snapshot w = poseOf FromEulerVector cam
  | None => False
  end.

(** The interval gate of the culling observer is open on the next frame. *)
Definition gateOpen (w : World) : bool :=
  Z.rem (frustumCheckCount (cull w) + 1) (checkInterval w) =? 0.

(** What the resolution controller only reads of the window. *)
Definition winInputs (w : World) :=
  (joystickActive (win w), joystickVisible (win w), joystickVector (win w),
   window_isConsideredMoving (win w), window_updatePerformanceIndicator (win w)).


(* ------------------------------------------------------------------ *)
(** ** event-manager.js: the registry of event listeners *)
(* ------------------------------------------------------------------ *)

Module EM.

Local Open Scope nat_scope.

(** The [options] argument of [addEventListener]: a boolean (the default is
    [false]) or an object with a [passive] field. *)
Inductive ListenerOptions :=
| OptBool (capture : bool)
| OptObject (passive : bool).

(** The object [addListener] creates and returns. [indexOf] compares objects
    by identity; [ident] is that identity. DOM elements and handler
    functions are references too, named by numbers. *)
Record Listener := mkListener {
  ident : nat;
  element : nat;
  eventType : string;
  handler : nat;
  options : ListenerOptions
}.

(** What a caller can hand to [removeListener]: [null] (which is what
    [addListener] returns on a refusal), an object with no element, or a
    listener. *)
Inductive ListenerRef :=
| Null
| NoElement
| Ref (l : Listener).

(** The calls the manager makes on DOM elements. *)
Inductive DomCall :=
| AddEventListener (el : nat) (type : string) (h : nat) (opts : ListenerOptions)
| RemoveEventListener (el : nat) (type : string) (h : nat) (opts : ListenerOptions).

(** [EventManager.listeners] is an object from category names to arrays; its
    own keys are kept in insertion order, as [Object.keys] lists them.
    [fresh] is the identity of the next object created. *)
Record Manager := mkManager {
  listeners : list (string * list Listener);
  fresh : nat;
  calls : list DomCall
}.

Definition initial : Manager :=
  mkManager [("window", []); ("document", []); ("canvas", []); ("ui", []);
             ("joystick", []); ("custom", [])]%string 0 [].

(** A method either returns, or throws a [TypeError]; what it did to the
    manager before throwing stays done. *)
Inductive Result (A : Type) :=
| Returned (a : A) (m : Manager)
| Threw (m : Manager).

Arguments Returned {A} a m.
Arguments Threw {A} m.

Definition state {A} (r : Result A) : Manager :=
  match r with Returned _ m => m | Threw m => m end.

Definition value {A} (r : Result A) : option A :=
  match r with Returned a _ => Some a | Threw _ => None end.

Definition andThen {A B} (c : Manager -> Result A) (k : A -> Manager -> Result B)
  : Manager -> Result B :=
  fun m => match c m with Returned a m' => k a m' | Threw m' => Threw m' end.

Declare Scope em_scope.
Notation "c1 ;; c2" := (andThen c1 (fun _ => c2))
  (at level 100, c2 at level 200, right associativity) : em_scope.
Local Open Scope em_scope.

(** [array.forEach(f)] for an [f] that may throw. *)
Fixpoint forEach {A} (f : A -> Manager -> Result unit) (l : list A)
  : Manager -> Result unit :=
  match l with
  | [] => Returned tt
  | x :: rest => f x ;; forEach f rest
  end.

(** The own property of the [listeners] object under a name. *)
Fixpoint own (category : string) (ls : list (string * list Listener))
  : option (list Listener) :=
  match ls with
  | [] => None
  | (c, l) :: rest => if String.eqb c category then Some l else own category rest
  end.

(** [listeners] is an object literal, so the property names of
    [Object.prototype] are found on it too: all of them hold functions,
    except [__proto__], which holds [Object.prototype] itself. *)
Definition objectPrototype : list string :=
  ["constructor"; "__defineGetter__"; "__defineSetter__"; "hasOwnProperty";
   "__lookupGetter__"; "__lookupSetter__"; "isPrototypeOf";
   "propertyIsEnumerable"; "toString"; "valueOf"; "__proto__";
   "toLocaleString"]%string.

Definition inherited (category : string) : bool :=
  existsb (String.eqb category) objectPrototype.

(** The value of [this.listeners[category]]. *)
Inductive Slot :=
| Tracked (l : list Listener)
| Inherited
| Undefined.

Definition slot (category : string) (m : Manager) : Slot :=
  match own category (listeners m) with
  | Some l => Tracked l
  | None => if inherited category then Inherited else Undefined
  end.

(** [this.listeners[category] = l]: an existing key keeps its place, a new
    one goes last. *)
Fixpoint assign (category : string) (l : list Listener)
         (ls : list (string * list Listener)) : list (string * list Listener) :=
  match ls with
  | [] => [(category, l)]
  | (c, old) :: rest =>
      if String.eqb c category then (c, l) :: rest
      else (c, old) :: assign category l rest
  end.

Definition set_listeners (ls : list (string * list Listener)) (m : Manager) : Manager :=
  mkManager ls (fresh m) (calls m).

Definition domCall (c : DomCall) (m : Manager) : Manager :=
  mkManager (listeners m) (fresh m) (calls m ++ [c]).

(** [addListener]: a missing element, an empty event type or a missing
    handler is refused with [null]. Under a name inherited from
    [Object.prototype] the slot is truthy but has no [push]: the DOM
    listener is attached, then the call throws. *)
Definition addListener (category : string) (el : option nat) (type : string)
           (h : option nat) (opts : ListenerOptions) (m : Manager)
  : Result ListenerRef :=
  match el, h with
  | Some e, Some f =>
      if String.eqb type "" then Returned Null m
      else
        let m :=
          match slot category m with
          | Undefined => set_listeners (assign category [] (listeners m)) m
          | _ => m
          end in
        let m := domCall (AddEventListener e type f opts) m in
        let listener := mkListener (fresh m) e type f opts in
        let m := mkManager (listeners m) (S (fresh m)) (calls m) in
        match slot category m with
        | Tracked l =>
            Returned (Ref listener)
                     (set_listeners (assign category (l ++ [listener]) (listeners m)) m)
        | _ => Threw m
        end
  | _, _ => Returned Null m
  end.

(** [array.indexOf(listener)] followed by [splice(index, 1)]: the first
    occurrence of that very object goes. *)
Fixpoint spliceOut (l : Listener) (ls : list Listener) : list Listener :=
  match ls with
  | [] => []
  | x :: rest => if Nat.eqb (ident x) (ident l) then rest else x :: spliceOut l rest
  end.

Definition unregister (l : Listener) : DomCall :=
  RemoveEventListener (element l) (eventType l) (handler l) (options l).

(** [removeListener] walks the own keys, whose values are arrays. *)
Definition removeListener (listener : ListenerRef) (m : Manager) : Result unit :=
  match listener with
  | Null | NoElement => Returned tt m
  | Ref l =>
      let m := domCall (unregister l) m in
      Returned tt
        (set_listeners
           (map (fun entry => (fst entry, spliceOut l (snd entry))) (listeners m)) m)
  end.

(** [removeCategory]: under an inherited name the slot is truthy but has no
    [forEach], and the call throws before anything is done. *)
Definition removeCategory (category : string) (m : Manager) : Result unit :=
  match slot category m with
  | Undefined => Returned tt m
  | Inherited => Threw m
  | Tracked l =>
      Returned tt
        (mkManager (assign category [] (listeners m)) (fresh m)
                   (calls m ++ map unregister l))
  end.

(** [removeAll] walks the keys that exist when it starts. *)
Definition removeAll (m : Manager) : Result unit :=
  forEach removeCategory (map fst (listeners m)) m.

Definition getCounts (m : Manager) : list (string * nat) :=
  map (fun entry => (fst entry, length (snd entry))) (listeners m).

(** The listeners tracked under a category, none when it has no array. *)
Definition under (category : string) (m : Manager) : list Listener :=
  match own category (listeners m) with Some l => l | None => [] end.

Definition count (category : string) (m : Manager) : nat :=
  length (under category m).

(** The objects other than [l]. *)
Definition other (l : Listener) (x : Listener) : bool :=
  negb (Nat.eqb (ident x) (ident l)).

(** Keys are distinct and none of them shadows a name of
    [Object.prototype]; the objects tracked are distinct and were made by
    this manager. *)
Definition tracked (m : Manager) : list Listener :=
  concat (map snd (listeners m)).

Definition wellFormed (m : Manager) : Prop :=
  NoDup (map fst (listeners m))
  /\ Forall (fun c => inherited c = false) (map fst (listeners m))
  /\ NoDup (map ident (tracked m))
  /\ Forall (fun x => ident x < fresh m) (tracked m).

(** ui.js, [setupFullscreenChangeListener]: for each of the four event
    names, the category of that name is emptied and the handler registered
    on the document. [doc] is the document, [h] the handler function this
    call creates; the button update the function ends with does not touch
    the registry. *)
Definition fullscreenEvents : list string :=
  ["fullscreenchange"; "webkitfullscreenchange"; "mozfullscreenchange";
   "MSFullscreenChange"]%string.

Definition fullscreenCategory (eventName : string) : string :=
  ("fullscreen-" ++ eventName)%string.

Definition setupFullscreenChangeListener (doc h : nat) : Manager -> Result unit :=
  forEach
    (fun eventName =>
       removeCategory (fullscreenCategory eventName) ;;
       addListener (fullscreenCategory eventName) (Some doc) eventName (Some h)
                   (OptBool false) ;;
       Returned tt)
    fullscreenEvents.

(** joystick.js, [setupJoystickEvents]: nothing without the joystick base;
    otherwise the joystick category is emptied and seven listeners are
    registered. [hs] names the handler functions. *)
Record JoystickHandlers := mkJoystickHandlers {
  startJoystick : nat; moveJoystick : nat; endJoystick : nat;
  handleTouchStart : nat; handleTouchMove : nat; handleTouchEnd : nat
}.

Definition setupJoystickEvents (joystickBase : option nat) (doc : nat)
           (hs : JoystickHandlers) : Manager -> Result unit :=
  match joystickBase with
  | None => Returned tt
  | Some base =>
      removeCategory "joystick" ;;
      addListener "joystick" (Some base) "mousedown" (Some (startJoystick hs))
                  (OptBool false) ;;
      addListener "joystick" (Some doc) "mousemove" (Some (moveJoystick hs))
                  (OptBool false) ;;
      addListener "joystick" (Some doc) "mouseup" (Some (endJoystick hs))
                  (OptBool false) ;;
      addListener "joystick" (Some base) "touchstart" (Some (handleTouchStart hs))
                  (OptObject false) ;;
      addListener "joystick" (Some doc) "touchmove" (Some (handleTouchMove hs))
                  (OptObject false) ;;
      addListener "joystick" (Some doc) "touchend" (Some (handleTouchEnd hs))
                  (OptObject true) ;;
      addListener "joystick" (Some doc) "touchcancel" (Some (handleTouchEnd hs))
                  (OptObject true) ;;
      Returned tt
  end.

(** A manager with listeners in three categories, one of them new. *)
Definition sample : Manager :=
  state (addListener "popup" (Some 3) "click" (Some 12) (OptBool false)
    (state (addListener "ui" (Some 2) "touchstart" (Some 11) (OptObject false)
      (state (addListener "ui" (Some 2) "click" (Some 10) (OptBool false)
        (state (addListener "window" (Some 1) "resize" (Some 9) (OptBool false)
                            initial))))))).

Definition sampleHandlers : JoystickHandlers := mkJoystickHandlers 20 21 22 23 24 25.

End EM.

(** The registries the methods can produce from the initial one, whatever
    their arguments, thrown calls included. *)
Module EMRun.

Inductive reachable : EM.Manager -> Prop :=
| reach_initial : reachable EM.initial
| reach_addListener c el type h opts m :
    reachable m -> reachable (EM.state (EM.addListener c el type h opts m))
| reach_removeListener r m :
    reachable m -> reachable (EM.state (EM.removeListener r m))
| reach_removeCategory c m :
    reachable m -> reachable (EM.state (EM.removeCategory c m))
| reach_removeAll m :
    reachable m -> reachable (EM.state (EM.removeAll m)).

End EMRun.

(* ------------------------------------------------------------------ *)
(** ** joystick.js: the on-screen joystick *)
(* ------------------------------------------------------------------ *)

Module Joy.

Local Open Scope float_scope.

(** What [getBoundingClientRect] of the joystick base gives, as far as the
    code reads it. *)
Record Rect := mkRect { left : float; top : float; width : float }.

(** The inline [transform] of the handle: not set, the centred one written
    by [resetJoystick], or the translation written by an animation frame. *)
Inductive Transform :=
| NoTransform
| Centred
| Translated (nx ny : float).

(** The inline [display] of the joystick container. *)
Inductive Display :=
| NoDisplay
| Block
| Hidden.

(** What the document holds when a function looks an element up: the
    container, the base with its bounding rectangle, the handle, and the
    document itself. Elements are named by numbers, as in the registry. *)
Record Page := mkPage {
  joystickContainer : bool;
  joystickBaseElement : option (nat * Rect);
  joystickHandleElement : bool;
  document : nat
}.

(** The six [window] variables and the nine variables of the file, then the
    browser's side: the handle's transform, the container's display, the
    animation frames requested and not yet run or cancelled (each with the
    [nx] and [ny] its callback holds), the next frame id, and the listener
    registry. [joystickHandle] tells whether the variable holds the element
    or [null]. *)
Record State := mkState {
  joystickActive : bool;
  joystickVector : float * float;
  joystickBaseRect : option Rect;
  baseRadius : float;
  maxHandleDistance : float;
  joystickVisible : bool;
  lastMoveTime : float;
  movementThrottle : float;
  lastPositionX : float;
  lastPositionY : float;
  movementThreshold : float;
  transformDirty : bool;
  updateScheduled : bool;
  rafId : option positive;
  joystickHandle : bool;
  handleTransform : Transform;
  containerDisplay : Display;
  frames : list (positive * (float * float));
  nextFrame : positive;
  registry : EM.Manager
}.

Definition set_joystickActive (v : bool) (s : State) : State :=
  mkState v (joystickVector s) (joystickBaseRect s) (baseRadius s) (maxHandleDistance s)
    (joystickVisible s) (lastMoveTime s) (movementThrottle s) (lastPositionX s)
    (lastPositionY s) (movementThreshold s) (transformDirty s) (updateScheduled s)
    (rafId s) (joystickHandle s) (handleTransform s) (containerDisplay s) (frames s)
    (nextFrame s) (registry s).

Definition set_joystickVector (v : float * float) (s : State) : State :=
  mkState (joystickActive s) v (joystickBaseRect s) (baseRadius s) (maxHandleDistance s)
    (joystickVisible s) (lastMoveTime s) (movementThrottle s) (lastPositionX s)
    (lastPositionY s) (movementThreshold s) (transformDirty s) (updateScheduled s)
    (rafId s) (joystickHandle s) (handleTransform s) (containerDisplay s) (frames s)
    (nextFrame s) (registry s).

Definition set_joystickBaseRect (v : option Rect) (s : State) : State :=
  mkState (joystickActive s) (joystickVector s) v (baseRadius s) (maxHandleDistance s)
    (joystickVisible s) (lastMoveTime s) (movementThrottle s) (lastPositionX s)
    (lastPositionY s) (movementThreshold s) (transformDirty s) (updateScheduled s)
    (rafId s) (joystickHandle s) (handleTransform s) (containerDisplay s) (frames s)
    (nextFrame s) (registry s).

Definition set_baseRadius (v : float) (s : State) : State :=
  mkState (joystickActive s) (joystickVector s) (joystickBaseRect s) v
    (maxHandleDistance s) (joystickVisible s) (lastMoveTime s) (movementThrottle s)
    (lastPositionX s) (lastPositionY s) (movementThreshold s) (transformDirty s)
    (updateScheduled s) (rafId s) (joystickHandle s) (handleTransform s)
    (containerDisplay s) (frames s) (nextFrame s) (registry s).

Definition set_maxHandleDistance (v : float) (s : State) : State :=
  mkState (joystickActive s) (joystickVector s) (joystickBaseRect s) (baseRadius s) v
    (joystickVisible s) (lastMoveTime s) (movementThrottle s) (lastPositionX s)
    (lastPositionY s) (movementThreshold s) (transformDirty s) (updateScheduled s)
    (rafId s) (joystickHandle s) (handleTransform s) (containerDisplay s) (frames s)
    (nextFrame s) (registry s).

Definition set_joystickVisible (v : bool) (s : State) : State :=
  mkState (joystickActive s) (joystickVector s) (joystickBaseRect s) (baseRadius s)
    (maxHandleDistance s) v (lastMoveTime s) (movementThrottle s) (lastPositionX s)
    (lastPositionY s) (movementThreshold s) (transformDirty s) (updateScheduled s)
    (rafId s) (joystickHandle s) (handleTransform s) (containerDisplay s) (frames s)
    (nextFrame s) (registry s).

Definition set_lastMoveTime (v : float) (s : State) : State :=
  mkState (joystickActive s) (joystickVector s) (joystickBaseRect s) (baseRadius s)
    (maxHandleDistance s) (joystickVisible s) v (movementThrottle s) (lastPositionX s)
    (lastPositionY s) (movementThreshold s) (transformDirty s) (updateScheduled s)
    (rafId s) (joystickHandle s) (handleTransform s) (containerDisplay s) (frames s)
    (nextFrame s) (registry s).

Definition set_movementThrottle (v : float) (s : State) : State :=
  mkState (joystickActive s) (joystickVector s) (joystickBaseRect s) (baseRadius s)
    (maxHandleDistance s) (joystickVisible s) (lastMoveTime s) v (lastPositionX s)
    (lastPositionY s) (movementThreshold s) (transformDirty s) (updateScheduled s)
    (rafId s) (joystickHandle s) (handleTransform s) (containerDisplay s) (frames s)
    (nextFrame s) (registry s).

Definition set_lastPositionX (v : float) (s : State) : State :=
  mkState (joystickActive s) (joystickVector s) (joystickBaseRect s) (baseRadius s)
    (maxHandleDistance s) (joystickVisible s) (lastMoveTime s) (movementThrottle s) v
    (lastPositionY s) (movementThreshold s) (transformDirty s) (updateScheduled s)
    (rafId s) (joystickHandle s) (handleTransform s) (containerDisplay s) (frames s)
    (nextFrame s) (registry s).

Definition set_lastPositionY (v : float) (s : State) : State :=
  mkState (joystickActive s) (joystickVector s) (joystickBaseRect s) (baseRadius s)
    (maxHandleDistance s) (joystickVisible s) (lastMoveTime s) (movementThrottle s)
    (lastPositionX s) v (movementThreshold s) (transformDirty s) (updateScheduled s)
    (rafId s) (joystickHandle s) (handleTransform s) (containerDisplay s) (frames s)
    (nextFrame s) (registry s).

Definition set_movementThreshold (v : float) (s : State) : State :=
  mkState (joystickActive s) (joystickVector s) (joystickBaseRect s) (baseRadius s)
    (maxHandleDistance s) (joystickVisible s) (lastMoveTime s) (movementThrottle s)
    (lastPositionX s) (lastPositionY s) v (transformDirty s) (updateScheduled s)
    (rafId s) (joystickHandle s) (handleTransform s) (containerDisplay s) (frames s)
    (nextFrame s) (registry s).

Definition set_transformDirty (v : bool) (s : State) : State :=
  mkState (joystickActive s) (joystickVector s) (joystickBaseRect s) (baseRadius s)
    (maxHandleDistance s) (joystickVisible s) (lastMoveTime s) (movementThrottle s)
    (lastPositionX s) (lastPositionY s) (movementThreshold s) v (updateScheduled s)
    (rafId s) (joystickHandle s) (handleTransform s) (containerDisplay s) (frames s)
    (nextFrame s) (registry s).

Definition set_updateScheduled (v : bool) (s : State) : State :=
  mkState (joystickActive s) (joystickVector s) (joystickBaseRect s) (baseRadius s)
    (maxHandleDistance s) (joystickVisible s) (lastMoveTime s) (movementThrottle s)
    (lastPositionX s) (lastPositionY s) (movementThreshold s) (transformDirty s) v
    (rafId s) (joystickHandle s) (handleTransform s) (containerDisplay s) (frames s)
    (nextFrame s) (registry s).

Definition set_rafId (v : option positive) (s : State) : State :=
  mkState (joystickActive s) (joystickVector s) (joystickBaseRect s) (baseRadius s)
    (maxHandleDistance s) (joystickVisible s) (lastMoveTime s) (movementThrottle s)
    (lastPositionX s) (lastPositionY s) (movementThreshold s) (transformDirty s)
    (updateScheduled s) v (joystickHandle s) (handleTransform s) (containerDisplay s)
    (frames s) (nextFrame s) (registry s).

Definition set_joystickHandle (v : bool) (s : State) : State :=
  mkState (joystickActive s) (joystickVector s) (joystickBaseRect s) (baseRadius s)
    (maxHandleDistance s) (joystickVisible s) (lastMoveTime s) (movementThrottle s)
    (lastPositionX s) (lastPositionY s) (movementThreshold s) (transformDirty s)
    (updateScheduled s) (rafId s) v (handleTransform s) (containerDisplay s) (frames s)
    (nextFrame s) (registry s).

Definition set_handleTransform (v : Transform) (s : State) : State :=
  mkState (joystickActive s) (joystickVector s) (joystickBaseRect s) (baseRadius s)
    (maxHandleDistance s) (joystickVisible s) (lastMoveTime s) (movementThrottle s)
    (lastPositionX s) (lastPositionY s) (movementThreshold s) (transformDirty s)
    (updateScheduled s) (rafId s) (joystickHandle s) v (containerDisplay s) (frames s)
    (nextFrame s) (registry s).

Definition set_containerDisplay (v : Display) (s : State) : State :=
  mkState (joystickActive s) (joystickVector s) (joystickBaseRect s) (baseRadius s)
    (maxHandleDistance s) (joystickVisible s) (lastMoveTime s) (movementThrottle s)
    (lastPositionX s) (lastPositionY s) (movementThreshold s) (transformDirty s)
    (updateScheduled s) (rafId s) (joystickHandle s) (handleTransform s) v (frames s)
    (nextFrame s) (registry s).

Definition set_frames (v : list (positive * (float * float))) (s : State) : State :=
  mkState (joystickActive s) (joystickVector s) (joystickBaseRect s) (baseRadius s)
    (maxHandleDistance s) (joystickVisible s) (lastMoveTime s) (movementThrottle s)
    (lastPositionX s) (lastPositionY s) (movementThreshold s) (transformDirty s)
    (updateScheduled s) (rafId s) (joystickHandle s) (handleTransform s)
    (containerDisplay s) v (nextFrame s) (registry s).

Definition set_nextFrame (v : positive) (s : State) : State :=
  mkState (joystickActive s) (joystickVector s) (joystickBaseRect s) (baseRadius s)
    (maxHandleDistance s) (joystickVisible s) (lastMoveTime s) (movementThrottle s)
    (lastPositionX s) (lastPositionY s) (movementThreshold s) (transformDirty s)
    (updateScheduled s) (rafId s) (joystickHandle s) (handleTransform s)
    (containerDisplay s) (frames s) v (registry s).

Definition set_registry (v : EM.Manager) (s : State) : State :=
  mkState (joystickActive s) (joystickVector s) (joystickBaseRect s) (baseRadius s)
    (maxHandleDistance s) (joystickVisible s) (lastMoveTime s) (movementThrottle s)
    (lastPositionX s) (lastPositionY s) (movementThreshold s) (transformDirty s)
    (updateScheduled s) (rafId s) (joystickHandle s) (handleTransform s)
    (containerDisplay s) (frames s) (nextFrame s) v.

(** The state when the file has been loaded, over a registry [m]. *)
Definition loaded (m : EM.Manager) : State :=
  mkState false (0, 0) None 0 0 false 0 0 0 0 0 false false None false
          NoTransform NoDisplay [] 1%positive m.

Definition MAX_HANDLE_DISTANCE_FACTOR : float := 0.75.
Definition AUTO_SHOW_ON_MOBILE : bool := true.

(** Frame ids are positive, so an id is truthy. *)
Definition requestAnimationFrame (nx ny : float) (s : State) : positive * State :=
  (nextFrame s,
   set_nextFrame (Pos.succ (nextFrame s))
                 (set_frames (frames s ++ [(nextFrame s, (nx, ny))]) s)).

Definition cancelAnimationFrame (id : positive) (s : State) : State :=
  set_frames (List.filter (fun f => negb (Pos.eqb (fst f) id)) (frames s)) s.

(** [if (rafId) { cancelAnimationFrame(rafId); rafId = null; }] *)
Definition cancelPendingFrame (s : State) : State :=
  match rafId s with
  | Some id => set_rafId None (cancelAnimationFrame id s)
  | None => s
  end.

Definition resetJoystick (s : State) : State :=
  let s := set_joystickVector (0, 0) s in
  let s := if joystickHandle s then set_handleTransform Centred s else s in
  let s := set_lastPositionX 0 s in
  let s := set_lastPositionY 0 s in
  set_transformDirty false s.

(** The three assignments [startJoystick] and [updateJoystickDimensions]
    make from the rectangle of the base. *)
Definition measure (rect : Rect) (s : State) : State :=
  let s := set_joystickBaseRect (Some rect) s in
  let s := set_baseRadius (width rect / 2) s in
  set_maxHandleDistance (baseRadius s * MAX_HANDLE_DISTANCE_FACTOR) s.

Definition updateJoystickDimensions (page : Page) (s : State) : State :=
  match joystickBaseElement page with
  | Some (_, rect) => if joystickHandle s then resetJoystick (measure rect s) else s
  | None => s
  end.

(** The callback handed to [requestAnimationFrame]; the browser runs the
    oldest pending one. With [joystickHandle] null its first statement
    throws and the flags are not reset. *)
Definition animationFrame (s : State) : State :=
  match frames s with
  | [] => s
  | (_, (nx, ny)) :: rest =>
      let s := set_frames rest s in
      if joystickHandle s then
        let s := set_handleTransform (Translated nx ny) s in
        let s := set_transformDirty false s in
        let s := set_updateScheduled false s in
        set_rafId None s
      else s
  end.

(** The body of [moveJoystickTouch], which [moveJoystick] repeats after its
    own guard: the time throttle, the handle and rectangle guard, the
    distance threshold, the vector, and the request of an animation frame.
    [now] is [performance.now()]. *)
Definition moveJoystickTouch (clientX clientY now : float) (s : State) : State :=
  if JS.gt (movementThrottle s) 0
     && JS.lt (now - lastMoveTime s) (movementThrottle s)
  then s
  else
    let s := set_lastMoveTime now s in
    match joystickHandle s, joystickBaseRect s with
    | true, Some rect =>
        let touchX := clientX - (left rect + baseRadius s) in
        let touchY := clientY - (top rect + baseRadius s) in
        if JS.gt (movementThreshold s) 0
           && (JS.lt (JS.Math_abs (touchX - lastPositionX s)) (movementThreshold s)
               && JS.lt (JS.Math_abs (touchY - lastPositionY s)) (movementThreshold s))
        then s
        else
          let s := set_lastPositionX touchX s in
          let s := set_lastPositionY touchY s in
          let distance := PrimFloat.sqrt (touchX * touchX + touchY * touchY) in
          let normalizedDistance := JS.Math_min distance (maxHandleDistance s) in
          let nx := if JS.gt distance 0 then (touchX / distance) * normalizedDistance
                    else 0 in
          let ny := if JS.gt distance 0 then (touchY / distance) * normalizedDistance
                    else 0 in
          let s := set_joystickVector
                     (nx / maxHandleDistance s, (- ny) / maxHandleDistance s) s in
          if updateScheduled s then s
          else
            let s := set_updateScheduled true s in
            let (id, s) := requestAnimationFrame nx ny s in
            set_rafId (Some id) s
    | _, _ => s
    end.

Definition moveJoystick (clientX clientY now : float) (s : State) : State :=
  if negb (joystickActive s) || negb (joystickVisible s) then s
  else moveJoystickTouch clientX clientY now s.

Definition startJoystick (page : Page) (clientX clientY now : float) (s : State)
  : State :=
  if negb (joystickVisible s) then s
  else
    match joystickBaseElement page with
    | None => s
    | Some (_, rect) =>
        let s := measure rect s in
        let s := set_joystickActive true s in
        moveJoystick clientX clientY now s
    end.

Definition endJoystick (s : State) : State :=
  if negb (joystickActive s) then s
  else
    let s := set_joystickActive false s in
    let s := resetJoystick s in
    let s := cancelPendingFrame s in
    set_updateScheduled false s.

(** [touches] are the [clientX] and [clientY] of [e.touches]. *)
Definition handleTouchStart (touches : list (float * float)) (now : float) (s : State)
  : State :=
  match touches with
  | [] => s
  | (clientX, clientY) :: _ =>
      if negb (joystickVisible s) then s
      else moveJoystickTouch clientX clientY now (set_joystickActive true s)
  end.

Definition handleTouchMove (touches : list (float * float)) (now : float) (s : State)
  : State :=
  match touches with
  | [] => s
  | (clientX, clientY) :: _ =>
      if negb (joystickActive s) || negb (joystickVisible s) then s
      else moveJoystickTouch clientX clientY now s
  end.

Definition handleTouchEnd (s : State) : State := endJoystick s.

(** [toggleJoystick]; the call of [updateJoystickDimensions] it defers by
    10 ms when showing is one of the calls the environment makes. *)
Definition toggleJoystick (page : Page) (s : State) : State :=
  if joystickContainer page then
    let s := set_joystickVisible (negb (joystickVisible s)) s in
    let s := set_containerDisplay (if joystickVisible s then Block else Hidden) s in
    if negb (joystickVisible s) then
      let s := cancelPendingFrame s in
      let s := set_updateScheduled false s in
      resetJoystick s
    else s
  else s.

(** [initJoystick]; [hs] names the handler functions for the registry, [h]
    is the host whose user agent and screen are tested. The position styles
    of the container are not part of the state. *)
Definition initJoystick (page : Page) (hs : EM.JoystickHandlers) (h : Host)
           (s : State) : State :=
  match joystickContainer page, joystickBaseElement page with
  | true, Some (base, _) =>
      let s := set_joystickHandle (joystickHandleElement page) s in
      if negb (joystickHandle s) then s
      else
        let isMobile := uaMobile h in
        let isLowEndMobile :=
          isMobile && (uaLowEndModel h
                       || (screenWidth h * screenHeight h <? 1000000)%Z) in
        let s :=
          if isLowEndMobile
          then set_movementThreshold 2 (set_movementThrottle 16 s)
          else if isMobile
          then set_movementThreshold 1 (set_movementThrottle 8 s)
          else set_movementThreshold 0 (set_movementThrottle 0 s) in
        let s :=
          if AUTO_SHOW_ON_MOBILE && isMobile
          then set_containerDisplay Block (set_joystickVisible true s)
          else s in
        let s := updateJoystickDimensions page s in
        set_registry
          (EM.state (EM.setupJoystickEvents (Some base) (document page) hs (registry s)))
          s
  | _, _ => s
  end.

Definition cleanupJoystick (s : State) : State :=
  let s := cancelPendingFrame s in
  let s := set_registry (EM.state (EM.removeCategory "joystick" (registry s))) s in
  let s := set_joystickActive false s in
  let s := set_joystickVector (0, 0) s in
  let s := set_updateScheduled false s in
  let s := set_transformDirty false s in
  set_joystickHandle false s.

(** The calls the page makes into the file. What the handlers do to the
    event object itself ([preventDefault]) is not part of the state. *)
Inductive Call :=
| InitJoystick (page : Page) (hs : EM.JoystickHandlers) (h : Host)
| ToggleJoystick (page : Page)
| UpdateJoystickDimensions (page : Page)
| StartJoystick (page : Page) (clientX clientY now : float)
| MoveJoystick (clientX clientY now : float)
| EndJoystick
| HandleTouchStart (touches : list (float * float)) (now : float)
| HandleTouchMove (touches : list (float * float)) (now : float)
| HandleTouchEnd
| AnimationFrame
| CleanupJoystick.

Definition exec (c : Call) (s : State) : State :=
  match c with
  | InitJoystick page hs h => initJoystick page hs h s
  | ToggleJoystick page => toggleJoystick page s
  | UpdateJoystickDimensions page => updateJoystickDimensions page s
  | StartJoystick page clientX clientY now => startJoystick page clientX clientY now s
  | MoveJoystick clientX clientY now => moveJoystick clientX clientY now s
  | EndJoystick => endJoystick s
  | HandleTouchStart touches now => handleTouchStart touches now s
  | HandleTouchMove touches now => handleTouchMove touches now s
  | HandleTouchEnd => handleTouchEnd s
  | AnimationFrame => animationFrame s
  | CleanupJoystick => cleanupJoystick s
  end.

Definition run (cs : list Call) (s : State) : State :=
  fold_left (fun s c => exec c s) cs s.

Definition reachable (s : State) : Prop :=
  exists m cs, s = run cs (loaded m).

(** The joystick is released or hidden. *)
Definition idle (s : State) : bool :=
  negb (joystickActive s) || negb (joystickVisible s).

(** A phone page and a drag on it. *)
Definition phonePage : Page :=
  mkPage true (Some (40%nat, mkRect 50 600 120)) true 0%nat.

Definition drag : list Call :=
  [InitJoystick phonePage EM.sampleHandlers (host Demo.mobileLowEnd);
   HandleTouchStart [(150, 640)] 1000;
   HandleTouchMove [(160, 650)] 1040].

Definition dragging : State := run drag (loaded EM.initial).

Definition released : State := run (drag ++ [HandleTouchEnd]) (loaded EM.initial).

End Joy.

(** The rest position: the vector is zero, no animation frame is waiting,
    and a handle the file holds is centred. *)
Definition joystickAtRest (s : Joy.State) : Prop :=
  Joy.joystickVector s = (0%float, 0%float)
  /\ Joy.rafId s = None
  /\ (Joy.joystickHandle s = true -> Joy.handleTransform s = Joy.Centred).

(** At most one animation frame is pending, the one [rafId] names, and
    [updateScheduled] tells whether [rafId] is set. *)
Definition oneFrame (s : Joy.State) : Prop :=
  Joy.updateScheduled s = JS.defined (Joy.rafId s)
  /\ match Joy.rafId s with
     | Some id => Joy.frames s = [] \/ exists nx ny, Joy.frames s = [(id, (nx, ny))]
     | None => Joy.frames s = []
     end.

Definition joystickCoherent (s : Joy.State) : Prop :=
  (Joy.idle s = true -> joystickAtRest s) /\ oneFrame s.

(* ------------------------------------------------------------------ *)
(** ** ui.js: panels and their buttons *)
(* ------------------------------------------------------------------ *)

Module UI.

Local Open Scope nat_scope.

(** An element as the panel code sees it: its [id] (empty when it has
    none) and its [classList], a list without repetitions. *)
Record Element := mkElement { id : string; classList : list string }.

(** The document: its elements in document order, whether one of the four
    fullscreen-element properties is set, the class list of the element the
    variable [popupMenu] of interaction.js holds ([None] for null), and
    whether [hidePopup] is defined, on its own or on [window]. *)
Record Document := mkDocument {
  elements : list Element;
  fullscreenElement : bool;
  popupMenu : option (list string);
  hidePopupDefined : bool
}.

Definition contains (c : string) (e : Element) : bool :=
  existsb (String.eqb c) (classList e).

Definition without (c : string) (l : list string) : list string :=
  List.filter (fun x => negb (String.eqb c x)) l.

(** [classList.remove(c)] and [classList.add(c)]. *)
Definition remove (c : string) (e : Element) : Element :=
  mkElement (id e) (without c (classList e)).

Definition add (c : string) (e : Element) : Element :=
  if contains c e then e else mkElement (id e) (classList e ++ [c]).

(** [document.getElementById]: the first element with that id, by its
    place in the document; the empty string finds nothing. *)
Fixpoint indexOfId (ident : string) (l : list Element) : option nat :=
  match l with
  | [] => None
  | e :: rest =>
      if String.eqb (id e) ident then Some 0
      else option_map S (indexOfId ident rest)
  end.

Definition getElementById (ident : string) (d : Document) : option nat :=
  if String.eqb ident "" then None else indexOfId ident (elements d).

(** A method call on the element at a place of the document. *)
Fixpoint updateAt (f : Element -> Element) (i : nat) (l : list Element)
  : list Element :=
  match l, i with
  | [], _ => []
  | e :: rest, 0 => f e :: rest
  | e :: rest, S i => e :: updateAt f i rest
  end.

Definition set_elements (l : list Element) (d : Document) : Document :=
  mkDocument l (fullscreenElement d) (popupMenu d) (hidePopupDefined d).

(** interaction.js, [hidePopup]. *)
Definition hidePopup (d : Document) : Document :=
  mkDocument (elements d) (fullscreenElement d)
             (option_map (without "active") (popupMenu d)) (hidePopupDefined d).

(** The two [forEach] bodies of [closeAllPanels], on one element of the
    node list. *)
Definition closePanel (e : Element) : Element :=
  if contains "panel" e && contains "active" e then remove "active" e else e.

Definition releaseButton (isFullscreenActive : bool) (e : Element) : Element :=
  if contains "action-button" e && contains "active" e then
    if negb (String.eqb (id e) "toggleFullscreen") || negb isFullscreenActive
    then remove "active" e
    else e
  else e.

Definition closeAllPanels (d : Document) : Document :=
  let d := set_elements (map closePanel (elements d)) d in
  let d := set_elements (map (releaseButton (fullscreenElement d)) (elements d)) d in
  if hidePopupDefined d then hidePopup d else d.

Definition togglePanel (panelId buttonId : string) (d : Document) : Document :=
  match getElementById panelId d, getElementById buttonId d with
  | Some panel, Some button =>
      let isActive :=
        match nth_error (elements d) panel with
        | Some e => contains "active" e
        | None => false
        end in
      let d := closeAllPanels d in
      if negb isActive then
        let d := set_elements (updateAt (add "active") panel (elements d)) d in
        set_elements (updateAt (add "active") button (elements d)) d
      else d
  | _, _ => d
  end.

(** An element as [closeAllPanels] leaves it: not an active panel, and an
    active action button only if it is the fullscreen toggle while the
    page is in fullscreen. *)
Definition closed (isFullscreenActive : bool) (e : Element) : bool :=
  negb (contains "panel" e && contains "active" e)
  && (negb (contains "action-button" e && contains "active" e)
      || (String.eqb (id e) "toggleFullscreen" && isFullscreenActive)).

(** One element through the two passes of [closeAllPanels]. *)
Definition shut (isFullscreenActive : bool) (e : Element) : Element :=
  releaseButton isFullscreenActive (closePanel e).

(** The element [getElementById] finds. *)
Definition elementById (ident : string) (d : Document) : option Element :=
  match getElementById ident d with
  | Some i => nth_error (elements d) i
  | None => None
  end.

(** A page with the settings panel open, in fullscreen. *)
Definition samplePage : Document :=
  mkDocument
    [mkElement "settingsPanel" ["panel"; "active"];
     mkElement "infoPanel" ["panel"];
     mkElement "toggleSettings" ["action-button"; "active"];
     mkElement "toggleInfo" ["action-button"];
     mkElement "toggleFullscreen" ["action-button"; "active"];
     mkElement "" ["panel-close"]]%string
    true (Some ["popup-menu"; "active"]%string) true.

End UI.

(* ------------------------------------------------------------------ *)
(** ** art-descriptions.js: the descriptions of the art pieces *)
(* ------------------------------------------------------------------ *)

Module Art.

Import Ascii.
Local Open Scope string_scope.

Record ArtInfo := mkArtInfo {
  title : string;
  description : string;
  artist : string;
  year : string;
  medium : string
}.

(** The object literal, with its keys in the order [for ... in] visits
    them. *)
Definition ART_DESCRIPTIONS : list (string * ArtInfo) :=
  [("pavel",
    mkArtInfo "Modern Sculpture"
      "A contemporary sculpture created in 2023 by artist Jane Doe. This piece explores themes of technology and nature through its unique geometric forms and organic textures."
      "Jane Doe" "2023" "Mixed media");
   ("gafanhoto",
    mkArtInfo "Abstract Horizon"
      "This vibrant painting uses bold colors and dynamic brushstrokes to create an abstract interpretation of a sunset over water. The artist's use of contrasting warm and cool tones creates a sense of depth and movement."
      "John Smith" "2021" "Acrylic on canvas");
   ("Installation01",
    mkArtInfo "Digital Echo"
      "An interactive installation that responds to viewer movement. As you approach this piece, notice how the light patterns shift and change. This work explores the relationship between human presence and digital environments."
      "Maya Chen" "2024" "Interactive digital installation");
   ("Statue01",
    mkArtInfo "Contemplation"
      "A bronze statue depicting a seated figure in quiet reflection. The smooth, simplified forms invite viewers to project their own emotions onto the piece. The slight tilt of the head suggests attentive listening."
      "Robert Williams" "2019" "Bronze");
   ("PhotoFrame01",
    mkArtInfo "Urban Perspectives"
      "A series of black and white photographs capturing unusual viewpoints of familiar city landmarks. The dramatic angles and stark contrasts encourage viewers to see these everyday structures in a new light."
      "Sarah Johnson" "2022" "Digital photography");
   ("Textile01",
    mkArtInfo "Woven Memories"
      "This intricate textile piece combines traditional weaving techniques with contemporary materials. The varying textures and patterns create a tactile landscape that invites close inspection."
      "Elena Rodriguez" "2020" "Mixed fiber arts")].

(** What [getArtInfo] can return: an entry of the table, a member of
    [Object.prototype] (the table is an object literal, so [constructor],
    [toString] and the like are found on it and are truthy), or the object
    for untitled work it builds at the end. *)
Inductive Value :=
| Entry (a : ArtInfo)
| PrototypeMember (name : string)
| Untitled.

Fixpoint own (key : string) (table : list (string * ArtInfo)) : option ArtInfo :=
  match table with
  | [] => None
  | (k, a) :: rest => if String.eqb k key then Some a else own key rest
  end.

(** [ART_DESCRIPTIONS[name]], when it is truthy. *)
Definition get (name : string) : option Value :=
  match own name ART_DESCRIPTIONS with
  | Some a => Some (Entry a)
  | None => if EM.inherited name then Some (PrototypeMember name) else None
  end.

(** Mesh names are strings of 8-bit characters. [includes] and [startsWith]
    on them: *)
Definition startsWith (key name : string) : bool := String.prefix key name.

Fixpoint includes (needle hay : string) : bool :=
  String.prefix needle hay
  || match hay with
     | EmptyString => false
     | String _ rest => includes needle rest
     end.

(** [split] at a one-character separator, and [pop] of the non-empty array
    it gives. *)
Fixpoint split (sep : ascii) (s : string) : list string :=
  match s with
  | EmptyString => [EmptyString]
  | String c rest =>
      if Ascii.eqb c sep then EmptyString :: split sep rest
      else match split sep rest with
           | first :: others => String c first :: others
           | [] => [String c EmptyString]
           end
  end.

Definition pop (parts : list string) : string := List.last parts EmptyString.

(** The white space and line terminators below 256 that [trim] removes:
    TAB, LF, VT, FF, CR, SPACE and NBSP. *)
Definition whiteSpace (c : ascii) : bool :=
  existsb (Nat.eqb (nat_of_ascii c)) [9; 10; 11; 12; 13; 32; 160]%nat.

Fixpoint trimStart (s : string) : string :=
  match s with
  | EmptyString => EmptyString
  | String c rest => if whiteSpace c then trimStart rest else s
  end.

Fixpoint trimEnd (s : string) : string :=
  match s with
  | EmptyString => EmptyString
  | String c rest =>
      match trimEnd rest with
      | EmptyString => if whiteSpace c then EmptyString else String c EmptyString
      | kept => String c kept
      end
  end.

Definition trim (s : string) : string := trimEnd (trimStart s).

(** The name after the last [|], trimmed. *)
Definition simpleName (meshName : string) : string :=
  trim (pop (split "|"%char meshName)).

Definition getArtInfo (meshName : string) : Value :=
  match get meshName with
  | Some found => found
  | None =>
      match (if includes "|" meshName then get (simpleName meshName) else None) with
      | Some found => found
      | None =>
          match List.find (fun entry => startsWith (fst entry) meshName
                                        || includes (fst entry) meshName)
                          ART_DESCRIPTIONS with
          | Some (_, a) => Entry a
          | None => Untitled
          end
      end
  end.

End Art.

(* ------------------------------------------------------------------ *)
(** ** Facts about binary64 comparison *)
(* ------------------------------------------------------------------ *)

Module FloatFacts.

Lemma SFcompare_antisym (x y : spec_float) :
  SFcompare y x = option_map CompOpp (SFcompare x y).
Proof.
  destruct x as [sx|sx| |sx mx ex], y as [sy|sy| |sy my ey]; simpl;
    try destruct sx; try destruct sy; try reflexivity;
    rewrite (Z.compare_antisym ex ey), (ZC4 my mx);
    destruct (ex ?= ey); simpl; try reflexivity;
    now destruct (Pos.compare_cont Eq mx my).
Qed.

Lemma SFcompare_Eq (x y : spec_float) :
  SFcompare x y = Some Eq ->
  x = y \/ (exists s s', x = S754_zero s /\ y = S754_zero s').
Proof.
  destruct x as [sx|sx| |sx mx ex], y as [sy|sy| |sy my ey]; simpl;
    try discriminate; try (destruct sx; discriminate); try (destruct sy; discriminate).
  - right. eauto.
  - destruct sx, sy; try discriminate; now left.
  - destruct sx, sy; try discriminate;
      destruct (ex ?= ey) eqn:E; try discriminate;
      apply Z.compare_eq in E; subst ey; intros H.
    + injection H as H. destruct (Pos.compare_cont Eq mx my) eqn:C; try discriminate.
      apply Pcompare_Eq_eq in C. subst. now left.
    + injection H as H. apply Pcompare_Eq_eq in H. subst. now left.
Qed.

Lemma SFcompare_None (x y : spec_float) :
  SFcompare x y = None -> x = S754_nan \/ y = S754_nan.
Proof.
  destruct x as [sx|sx| |sx mx ex], y as [sy|sy| |sy my ey]; simpl; auto; discriminate.
Qed.

Lemma Prim2SF_nan : Prim2SF nan = S754_nan.
Proof. reflexivity. Qed.

Lemma SFcompare_refl (x : spec_float) : x <> S754_nan -> SFcompare x x = Some Eq.
Proof.
  destruct x as [sx|sx| |sx mx ex]; simpl; intros H; try congruence.
  - now destruct sx.
  - destruct sx; rewrite Z.compare_refl, Pcompare_refl; reflexivity.
Qed.

(** The only number that differs from itself is NaN. *)
Lemma is_nan_true (x : float) : is_nan x = true -> x = nan.
Proof.
  unfold is_nan. rewrite FloatAxioms.eqb_spec. unfold SFeqb. intros H.
  apply Prim2SF_inj. rewrite Prim2SF_nan.
  destruct (Prim2SF x) eqn:E; try reflexivity;
    rewrite SFcompare_refl in H by discriminate; discriminate.
Qed.

Lemma is_nan_false (x : float) : is_nan x = false -> Prim2SF x <> S754_nan.
Proof.
  unfold is_nan. rewrite FloatAxioms.eqb_spec. unfold SFeqb. intros H E. rewrite E in H.
  discriminate.
Qed.

Lemma ltb_leb (x y : float) : PrimFloat.ltb x y = true -> PrimFloat.leb x y = true.
Proof.
  rewrite FloatAxioms.ltb_spec, FloatAxioms.leb_spec. unfold SFltb, SFleb.
  destruct (SFcompare (Prim2SF x) (Prim2SF y)) as [[]|]; congruence.
Qed.

Lemma not_ltb_leb (x y : float) :
  is_nan x = false -> is_nan y = false ->
  PrimFloat.ltb x y = false -> PrimFloat.leb y x = true.
Proof.
  intros Hx Hy. apply is_nan_false in Hx, Hy.
  rewrite FloatAxioms.ltb_spec, FloatAxioms.leb_spec. unfold SFltb, SFleb.
  rewrite (SFcompare_antisym (Prim2SF x) (Prim2SF y)).
  destruct (SFcompare (Prim2SF x) (Prim2SF y)) as [[]|] eqn:E; simpl; try congruence.
  apply SFcompare_None in E. tauto.
Qed.

(** Two numbers neither of which is below the other are the same number,
    unless both are zeros. *)
Lemma not_ltb_eq (x y : float) :
  is_nan x = false -> is_nan y = false ->
  PrimFloat.ltb x y = false -> PrimFloat.ltb y x = false ->
  x = y \/ (is_zero x = true /\ is_zero y = true).
Proof.
  intros Hx Hy. apply is_nan_false in Hx, Hy.
  rewrite !FloatAxioms.ltb_spec. unfold SFltb.
  rewrite (SFcompare_antisym (Prim2SF x) (Prim2SF y)).
  destruct (SFcompare (Prim2SF x) (Prim2SF y)) as [[]|] eqn:E; simpl; try congruence.
  - intros _ _. apply SFcompare_Eq in E. destruct E as [E|(s & s' & E1 & E2)].
    + left. now apply Prim2SF_inj.
    + right. unfold is_zero. rewrite !FloatAxioms.eqb_spec, E1, E2. split; reflexivity.
  - apply SFcompare_None in E. tauto.
Qed.

Lemma leb_not_nan (x y : float) : PrimFloat.leb x y = true -> is_nan x = false /\ is_nan y = false.
Proof.
  rewrite FloatAxioms.leb_spec. unfold SFleb. intros H.
  split; destruct (is_nan _) eqn:E; try reflexivity; apply is_nan_true in E; subst;
    rewrite Prim2SF_nan in H; simpl in H; try discriminate.
  destruct (Prim2SF x); discriminate.
Qed.

(** Numbers are told apart by their representation. *)
Lemma float_neq (x y : float) : Prim2SF x <> Prim2SF y -> x <> y.
Proof. intros H E. apply H. now rewrite E. Qed.

End FloatFacts.


(* ------------------------------------------------------------------ *)
(** ** The ratio applier *)
(* ------------------------------------------------------------------ *)

Import FloatFacts.

(** Case analysis on whatever the goal still branches on. *)
Ltac break_matches :=
  repeat match goal with
         | |- context [match ?x with _ => _ end] => destruct x eqn:?; simpl
         end.

(** A request that passes the guard of [setPixelRatio] is its own clamp. *)
Lemma clamp_in_range (r : float) :
  JS.lt r minRatio = false -> JS.gt r maxRatio = false -> clamp r minRatio maxRatio = r.
Proof.
  intros Hlo Hhi. unfold JS.lt, JS.gt in Hlo, Hhi.
  destruct (is_nan r) eqn:Hnan.
  - apply is_nan_true in Hnan. subst r. reflexivity.
  - assert (Hmin : JS.Math_min maxRatio r = r).
    { unfold JS.Math_min, JS.lt. rewrite Hnan, Hhi.
      change (is_nan maxRatio) with false. change (get_sign maxRatio) with false.
      simpl. now destruct (PrimFloat.ltb r maxRatio). }
    unfold clamp. rewrite Hmin. unfold JS.Math_max, JS.lt. rewrite Hnan, Hlo.
    change (is_nan minRatio) with false. simpl.
    destruct (PrimFloat.ltb minRatio r) eqn:Hlt; [reflexivity|].
    destruct (not_ltb_eq minRatio r eq_refl Hnan Hlt Hlo) as [E|[E _]].
    + rewrite <- E. now destruct (get_sign minRatio).
    + discriminate E.
Qed.

(** What [setPixelRatio] leaves in [window.currentPixelRatio]. *)
Lemma setPixelRatio_stored (r : float) (w : World) :
  storedRatio (setPixelRatio r w) = storedAfter (storedRatio w) r.
Proof.
  unfold setPixelRatio, storedAfter, storedRatio.
  set (c := if JS.lt r minRatio || JS.gt r maxRatio then _ else r).
  assert (Hc : c = clamp r minRatio maxRatio).
  { subst c. destruct (JS.lt r minRatio) eqn:Hlo, (JS.gt r maxRatio) eqn:Hhi;
      simpl; try reflexivity. symmetry. now apply clamp_in_range. }
  rewrite <- Hc. clearbody c.
  destruct (JS.lt _ _); [reflexivity|].
  unfold updateButtonActiveStates, updatePerformanceIndicator, engineUnavailable, emit.
  destruct w as [l x cu h]; simpl. now break_matches.
Qed.

(** The clamp of a number that is not NaN lies within the bounds. *)
Lemma clamp_withinBounds (r : float) :
  is_nan r = false -> withinBounds (clamp r minRatio maxRatio) = true.
Proof.
  intros Hnan.
  assert (Hm : is_nan (JS.Math_min maxRatio r) = false
               /\ PrimFloat.leb (JS.Math_min maxRatio r) maxRatio = true).
  { unfold JS.Math_min, JS.lt. rewrite Hnan.
    change (is_nan maxRatio) with false. change (get_sign maxRatio) with false. simpl.
    destruct (PrimFloat.ltb maxRatio r) eqn:H1; [now split|].
    destruct (PrimFloat.ltb r maxRatio) eqn:H2; split; auto using ltb_leb, not_ltb_leb. }
  destruct Hm as [Hmn Hmle]. unfold clamp, withinBounds, JS.le.
  set (m := JS.Math_min maxRatio r) in *. clearbody m.
  unfold JS.Math_max, JS.lt. rewrite Hmn. change (is_nan minRatio) with false. simpl.
  destruct (PrimFloat.ltb minRatio m) eqn:H1.
  - now rewrite (ltb_leb _ _ H1), Hmle.
  - destruct (PrimFloat.ltb m minRatio) eqn:H2; [reflexivity|].
    destruct (get_sign m); [reflexivity|].
    now rewrite (not_ltb_leb m minRatio Hmn eq_refl H2), Hmle.
Qed.

(** Requests that are not NaN keep the stored ratio within the bounds. *)
Lemma setPixelRatio_withinBounds (rs : list float) (w : World) :
  withinBounds (storedRatio w) = true ->
  Forall (fun r => is_nan r = false) rs ->
  withinBounds (storedRatio (fold_left (fun w r => setPixelRatio r w) rs w)) = true.
Proof.
  intros Hw Hrs. revert w Hw.
  induction Hrs as [|r rs Hr _ IH]; intros w Hw; simpl; [exact Hw|].
  apply IH. rewrite setPixelRatio_stored. unfold storedAfter.
  destruct (JS.lt _ _); [exact Hw|]. now apply clamp_withinBounds.
Qed.

(** C3, as stated, fails: with 0.5 stored, a request for 0.505 is dropped, and
    the stored ratio is not the clamp of the request. *)
Lemma setPixelRatio_drops_near_request :
  storedRatio (setPixelRatio 0.505 Demo.desktop) <> clamp 0.505 minRatio maxRatio.
Proof. apply float_neq. vm_compute. discriminate. Qed.

(** C3 (amended): for every number [r], [setPixelRatio r] leaves the stored
    ratio equal to [clamp r 0.1 1.5], except that a stored ratio within 0.01
    of that clamp is kept as it is; with the boot ratio 0.5 stored,
    [setPixelRatio 2.0] stores 1.5. *)
Theorem setPixelRatio_clamps_unless_near (r : float) (w : World) :
  storedRatio (setPixelRatio r w) =
    (if JS.lt (JS.Math_abs (storedRatio w - clamp r minRatio maxRatio)%float) 0.01%float
     then storedRatio w
     else clamp r minRatio maxRatio)
  /\ storedRatio (setPixelRatio 2.0 (upd_win (set_currentPixelRatio DEFAULT_PIXEL_RATIO) w))
     = 1.5%float.
Proof.
  split.
  - apply setPixelRatio_stored.
  - rewrite setPixelRatio_stored. reflexivity.
Qed.

(** C7, at the failing input: NaN is a number, passes the guard of
    [setPixelRatio] and is stored, from the boot ratio 0.5; the stored ratio
    is then outside [0.1, 1.5]. *)
Theorem setPixelRatio_stores_NaN :
  storedRatio Demo.desktop = 0.5%float
  /\ storedRatio (setPixelRatio nan Demo.desktop) = nan
  /\ withinBounds (storedRatio (setPixelRatio nan Demo.desktop)) = false.
Proof. repeat split; reflexivity. Qed.


(* ------------------------------------------------------------------ *)
(** ** The movement detector *)
(* ------------------------------------------------------------------ *)

(** C5, as stated, fails: the snapshot was taken at x = 0, the camera is now
    at x = 1, and a forced check reports movement but leaves the snapshot
    where it was. *)
Lemma forced_check_keeps_snapshot :
  let w := Demo.go [EvInitManualLOD; EvCamera (Some (Demo.cameraAt 1))] Demo.desktop in
  fst (hasCameraMoved Demo.euler true w) = true
  /\ snapshot (snd (hasCameraMoved Demo.euler true w)) = snapshot w
  /\ snapshot (snd (hasCameraMoved Demo.euler true w)) <> poseOf Demo.euler (Demo.cameraAt 1).
Proof.
  repeat split; try reflexivity.
  intros H.
  apply (f_equal (fun s => match fst s with Some v => Prim2SF (vx v) | None => S754_nan end)) in H.
  vm_compute in H. discriminate.
Qed.

(** C5 (amended): a call with [forceCheck = true] leaves an existing snapshot
    unchanged; a call with [forceCheck = false] refreshes an existing
    snapshot to the current camera pose exactly when Dynamic mode is active
    or movement was detected on that call, and otherwise leaves it unchanged;
    a missing snapshot is set to the current pose by any call; and nothing is
    touched while the camera or the engine is unavailable. *)
Theorem hasCameraMoved_snapshot_policy
        (FromEulerVector : Vector3 -> Quaternion) (forceCheck : bool) (w : World) :
  snapshot (snd (hasCameraMoved FromEulerVector forceCheck w)) =
    match camera (host w) with
    | None => snapshot w
    | Some cam =>
        if engineUnavailable w then snapshot w
        else
          match snapshot w with
          | (Some _, Some _) =>
              if forceCheck then snapshot w
              else if isDynamicResolutionActive (lod w)
                      || fst (hasCameraMoved FromEulerVector forceCheck w)
                   then poseOf FromEulerVector cam
                   else snapshot w
          | _ => poseOf FromEulerVector cam
          end
    end.
Proof.
  unfold hasCameraMoved, compareWithSnapshot, snapshot, poseOf, engineUnavailable.
  destruct w as [[act pre cnt hi lo tid lastP lastQ mov] x cu h]; simpl.
  destruct (camera h) as [cam|]; [|reflexivity].
  destruct (engine h) as [e|]; [|reflexivity].
  destruct (engineIsDisposed e); [reflexivity|].
  destruct lastP as [p|], lastQ as [q|], forceCheck; simpl; try reflexivity.
  destruct act; simpl; [reflexivity|].
  now break_matches.
Qed.

(* ------------------------------------------------------------------ *)
(** ** The resolution controller leaves the culler alone *)
(* ------------------------------------------------------------------ *)

Lemma cullPart_upd_lod (f : Lod -> Lod) (w : World) : cullPart (upd_lod f w) = cullPart w.
Proof. reflexivity. Qed.

Lemma cullPart_upd_win (f : Win -> Win) (w : World) : cullPart (upd_win f w) = cullPart w.
Proof. reflexivity. Qed.

Lemma cullPart_upd_host (f : Host -> Host) (w : World) :
  currentSplatMesh (f (host w)) = currentSplatMesh (host w) ->
  effects (f (host w)) = effects (host w) ->
  cullPart (upd_host f w) = cullPart w.
Proof.
  intros Hm He. unfold cullPart, visibilityWrites. simpl. now rewrite Hm, He.
Qed.

Lemma cullPart_emit (e : Effect) (w : World) :
  isVisibilityWrite e = false -> cullPart (emit e w) = cullPart w.
Proof.
  intros He. unfold cullPart, visibilityWrites, emit. simpl.
  rewrite List.filter_app. simpl. rewrite He. now rewrite app_nil_r.
Qed.

(** Rewriting a world through the operations of the resolution controller,
    splitting on the branches they take. *)
Ltac cull_frame :=
  repeat first
         [ rewrite cullPart_upd_lod
         | rewrite cullPart_upd_win
         | rewrite cullPart_emit by reflexivity
         | rewrite cullPart_upd_host by reflexivity
         | match goal with
           | |- context [match ?x with _ => _ end] => destruct x eqn:?
           end ].

Lemma cullPart_setPixelRatio (r : float) (w : World) :
  cullPart (setPixelRatio r w) = cullPart w.
Proof.
  unfold setPixelRatio, updateButtonActiveStates, updatePerformanceIndicator.
  cull_frame; reflexivity.
Qed.

Lemma cullPart_cancelMovementTimer (w : World) :
  cullPart (cancelMovementTimer w) = cullPart w.
Proof. unfold cancelMovementTimer, clearTimeout. cull_frame; reflexivity. Qed.

Lemma cullPart_deactivateDynamicResolution (w : World) :
  cullPart (deactivateDynamicResolution w) = cullPart w.
Proof.
  unfold deactivateDynamicResolution. cull_frame; try reflexivity.
  now rewrite cullPart_cancelMovementTimer.
Qed.

Lemma cullPart_applyPixelRatioPreset (presetName : string) (w : World) :
  cullPart (applyPixelRatioPreset presetName w) = cullPart w.
Proof.
  unfold applyPixelRatioPreset. destruct (PIXEL_RATIO_PRESETS presetName); [|reflexivity].
  now rewrite cullPart_setPixelRatio, cullPart_upd_lod, cullPart_deactivateDynamicResolution.
Qed.

Section ControllerFrames.

Variable FromEulerVector : Vector3 -> Quaternion.

Lemma cullPart_hasCameraMoved (forceCheck : bool) (w : World) :
  cullPart (snd (hasCameraMoved FromEulerVector forceCheck w)) = cullPart w.
Proof.
  unfold hasCameraMoved, compareWithSnapshot.
  cull_frame; simpl; cull_frame; reflexivity.
Qed.

Lemma cullPart_activateDynamicResolution (w : World) :
  cullPart (activateDynamicResolution FromEulerVector w) = cullPart w.
Proof.
  unfold activateDynamicResolution, applyDynamicResolution, updateButtonActiveStates.
  destruct (isDynamicResolutionActive (lod w)); [reflexivity|].
  cbv zeta. rewrite cullPart_emit by reflexivity.
  destruct (fst _);
    rewrite ?cullPart_cancelMovementTimer, cullPart_setPixelRatio, cullPart_upd_lod,
      cullPart_hasCameraMoved; reflexivity.
Qed.

Lemma cullPart_resolutionIncreaseCallback (w : World) :
  cullPart (resolutionIncreaseCallback w) = cullPart w.
Proof.
  unfold resolutionIncreaseCallback, applyDynamicResolution.
  destruct (isDynamicResolutionActive (lod w));
    rewrite ?cullPart_upd_lod, ?cullPart_setPixelRatio; reflexivity.
Qed.

Lemma cullPart_updateDynamicResolutionLogic (w : World) :
  cullPart (updateDynamicResolutionLogic FromEulerVector w) = cullPart w.
Proof.
  unfold updateDynamicResolutionLogic, applyDynamicResolution, setTimeout.
  destruct (_ || _ || _ || _ || _).
  - destruct (_ && _); [apply cullPart_cancelMovementTimer|reflexivity].
  - cbv zeta. destruct (fst _).
    + destruct (JS.gt _ _);
        (destruct (JS.defined _);
         rewrite ?cullPart_cancelMovementTimer, ?cullPart_setPixelRatio, ?cullPart_upd_lod,
           cullPart_hasCameraMoved; reflexivity).
    + destruct (negb _); simpl;
        rewrite ?cullPart_upd_lod, ?cullPart_upd_host, ?cullPart_hasCameraMoved by reflexivity;
        reflexivity.
Qed.

End ControllerFrames.

Section HostFrames.

Variable FromEulerVector : Vector3 -> Quaternion.
Variable isInFrustum : Camera -> BoundingSphere -> bool.

Lemma cullPart_fireTimer (w : World) (t : Timer) : cullPart (fireTimer w t) = cullPart w.
Proof.
  unfold fireTimer, removeTimer. destruct (existsb _ _); [|reflexivity].
  now rewrite cullPart_resolutionIncreaseCallback, cullPart_upd_host.
Qed.

Lemma cullPart_fold_fireTimer (ts : list Timer) (w : World) :
  cullPart (fold_left fireTimer ts w) = cullPart w.
Proof.
  revert w. induction ts as [|t ts IH]; intros w; simpl; [reflexivity|].
  now rewrite IH, cullPart_fireTimer.
Qed.

Lemma cullPart_elapse (dt : N) (w : World) : cullPart (elapse dt w) = cullPart w.
Proof. unfold elapse. now rewrite cullPart_fold_fireTimer, cullPart_upd_host. Qed.

Lemma cullPart_initManualLOD (w : World) :
  cullPart (initManualLOD FromEulerVector w) = cullPart w.
Proof.
  unfold initManualLOD, addPerformanceIndicator, updatePerformanceIndicator,
    initDynamicResolutionSystem, updateButtonActiveStates.
  cull_frame; reflexivity.
Qed.

Lemma cullPart_initWithDefaults (w : World) :
  cullPart (initWithDefaults FromEulerVector w) = cullPart w.
Proof.
  unfold initWithDefaults. simpl.
  rewrite cullPart_activateDynamicResolution.
  destruct (uaMobile (host w)); destruct (JS.defined _);
    rewrite ?cullPart_hasCameraMoved; reflexivity.
Qed.

Lemma cullPart_cleanupManualLOD (w : World) : cullPart (cleanupManualLOD w) = cullPart w.
Proof.
  unfold cleanupManualLOD. destruct (JS.defined _); simpl;
    rewrite ?cullPart_upd_lod, ?cullPart_cancelMovementTimer; reflexivity.
Qed.

(** Apart from rendered frames, nothing changes the closure of the culling
    observer nor adds a visibility write. *)
Lemma exec_other_culler (ev : Event) (w : World) :
  ev <> EvFrame ->
  cull (exec FromEulerVector isInFrustum ev w) = cull w
  /\ visibilityWrites (exec FromEulerVector isInFrustum ev w) = visibilityWrites w.
Proof.
  intros Hev.
  assert (H : forall w', cullPart w' = cullPart w ->
                         cull w' = cull w /\ visibilityWrites w' = visibilityWrites w).
  { intros w' H. unfold cullPart in H. now inversion H. }
  destruct ev; unfold exec; try (now split); try contradiction; apply H.
  - apply cullPart_initManualLOD.
  - apply cullPart_initWithDefaults.
  - apply cullPart_applyPixelRatioPreset.
  - apply cullPart_activateDynamicResolution.
  - apply cullPart_elapse.
  - apply cullPart_cleanupManualLOD.
Qed.

End HostFrames.

(* ------------------------------------------------------------------ *)
(** ** The culling observer *)
(* ------------------------------------------------------------------ *)

Lemma lookupBounding_beside (mesh : Mesh) (w : World) :
  besideCulling (snd (lookupBounding mesh w)) = besideCulling w
  /\ effects (host (snd (lookupBounding mesh w))) = effects (host w)
  /\ lastVisibilityState (cull (snd (lookupBounding mesh w))) = lastVisibilityState (cull w)
  /\ frustumCheckCount (cull (snd (lookupBounding mesh w))) = frustumCheckCount (cull w).
Proof.
  unfold lookupBounding.
  destruct (boundingCache (cull w) !! uniqueId mesh); [now repeat split|].
  destruct (_cachedBoundingInfo mesh); [now repeat split|].
  destruct (getBoundingInfo mesh); now repeat split.
Qed.

(** The mesh keeps its identity and its visibility through the lookup. *)
Lemma lookupBounding_mesh (mesh : Mesh) (w : World) :
  currentSplatMesh (host w) = Some mesh ->
  exists m, currentSplatMesh (host (snd (lookupBounding mesh w))) = Some m
            /\ isVisible m = isVisible mesh /\ uniqueId m = uniqueId mesh.
Proof.
  intros Hm. unfold lookupBounding.
  destruct (boundingCache (cull w) !! uniqueId mesh); [now exists mesh|].
  destruct (_cachedBoundingInfo mesh); [now exists mesh|].
  destruct (getBoundingInfo mesh); [|now exists mesh].
  simpl. eexists. split; [reflexivity|]. now split.
Qed.

(** The lookup does not depend on the frame counter. *)
Lemma lookupBounding_count (mesh : Mesh) (w : World) (f : Z -> Z) :
  fst (lookupBounding mesh
         (upd_cull (fun c => set_frustumCheckCount (f (frustumCheckCount c)) c) w))
  = fst (lookupBounding mesh w).
Proof.
  unfold lookupBounding. simpl.
  destruct (boundingCache (cull w) !! uniqueId mesh); [reflexivity|].
  destruct (_cachedBoundingInfo mesh); [reflexivity|].
  now destruct (getBoundingInfo mesh).
Qed.

Lemma updateVisibility_beside (v : bool) (w : World) :
  besideCulling (updateVisibility v w) = besideCulling w.
Proof.
  unfold updateVisibility, writeIsVisible.
  destruct (negb _); [|reflexivity].
  now destruct (currentSplatMesh (host w)).
Qed.

(** With a mesh in place, [updateVisibility v] writes once if the cached
    value differs from [v] and not at all otherwise; afterwards the cached
    value is [v], and so is the flag of the mesh if it was written. *)
Lemma updateVisibility_spec (v : bool) (w : World) (mesh : Mesh) :
  currentSplatMesh (host w) = Some mesh ->
  visibilityWrites (updateVisibility v w)
  = (visibilityWrites w + (if Bool.eqb (lastVisibilityState (cull w)) v then 0 else 1))%nat
  /\ lastVisibilityState (cull (updateVisibility v w)) = v
  /\ frustumCheckCount (cull (updateVisibility v w)) = frustumCheckCount (cull w)
  /\ exists m, currentSplatMesh (host (updateVisibility v w)) = Some m
               /\ isVisible m = (if Bool.eqb (lastVisibilityState (cull w)) v
                                 then isVisible mesh else v).
Proof.
  intros Hm. unfold updateVisibility, writeIsVisible, visibilityWrites, emit.
  destruct (Bool.eqb (lastVisibilityState (cull w)) v) eqn:E; simpl.
  - apply Bool.eqb_prop in E. repeat split; auto. now exists mesh.
  - rewrite Hm. simpl. rewrite List.filter_app, length_app. simpl.
    repeat split; eauto.
Qed.

Lemma purgeCache_beside (w : World) :
  besideCulling (purgeCache w) = besideCulling w
  /\ visibilityWrites (purgeCache w) = visibilityWrites w
  /\ lastVisibilityState (cull (purgeCache w)) = lastVisibilityState (cull w)
  /\ currentSplatMesh (host (purgeCache w)) = currentSplatMesh (host w).
Proof. unfold purgeCache. now destruct (_ >? _). Qed.

Section CullingObserver.

Variable isInFrustum : Camera -> BoundingSphere -> bool.

(** One frame of the observer: it writes the flag once if it consumes a
    result that differs from the cached value, and the cached value becomes
    the result it consumed. *)
Lemma frustumCullObserver_step (w : World) :
  besideCulling (frustumCullObserver isInFrustum w) = besideCulling w
  /\ visibilityWrites (frustumCullObserver isInFrustum w)
     = (visibilityWrites w
        + match checkOutcome isInFrustum w with
          | Some b => if Bool.eqb (lastVisibilityState (cull w)) b then 0 else 1
          | None => 0
          end)%nat
  /\ lastVisibilityState (cull (frustumCullObserver isInFrustum w))
     = match checkOutcome isInFrustum w with
       | Some b => b
       | None => lastVisibilityState (cull w)
       end.
Proof.
  unfold frustumCullObserver, checkOutcome.
  set (w1 := upd_cull _ w). cbv zeta.
  change (frustumCheckCount (cull w1)) with (frustumCheckCount (cull w) + 1).
  change (currentSplatMesh (host w1)) with (currentSplatMesh (host w)).
  change (camera (host w1)) with (camera (host w)).
  assert (Hskip : besideCulling w1 = besideCulling w
                  /\ visibilityWrites w1 = (visibilityWrites w + 0)%nat
                  /\ lastVisibilityState (cull w1) = lastVisibilityState (cull w)).
  { repeat split. unfold visibilityWrites. simpl. lia. }
  destruct (negb _); [exact Hskip|].
  destruct (currentSplatMesh (host w)) as [mesh|] eqn:Hmesh; [|exact Hskip].
  destruct (camera (host w)) as [cam|]; [|exact Hskip].
  destruct (cameraIsDisposed cam); [exact Hskip|].
  rewrite <- (lookupBounding_count mesh w (fun z => z + 1)). fold w1.
  destruct (lookupBounding_beside mesh w1) as (Hb & He & Hl & _).
  destruct (lookupBounding_mesh mesh w1 Hmesh) as (m & Hm & _).
  set (w2 := snd (lookupBounding mesh w1)) in *.
  assert (Hw2 : visibilityWrites w2 = visibilityWrites w).
  { unfold visibilityWrites. now rewrite He. }
  change (lastVisibilityState (cull w1)) with (lastVisibilityState (cull w)) in Hl.
  destruct (fst (lookupBounding mesh w1)) as [sphere|].
  - destruct (purgeCache_beside (updateVisibility (isInFrustum cam sphere) w2))
      as (Pb & Pw & Pl & _).
    destruct (updateVisibility_spec (isInFrustum cam sphere) w2 m Hm) as (Uw & Ul & _).
    rewrite Pb, Pw, Pl, updateVisibility_beside, Uw, Ul, Hb, Hw2, Hl. now repeat split.
  - destruct (updateVisibility_spec true w2 m Hm) as (Uw & Ul & _).
    rewrite updateVisibility_beside, Uw, Ul, Hb, Hw2, Hl. now repeat split.
Qed.

(** The observer keeps the cached value in line with the mesh. *)
Lemma frustumCullObserver_consistent (w : World) :
  cullConsistent w -> cullConsistent (frustumCullObserver isInFrustum w).
Proof.
  unfold frustumCullObserver.
  set (w1 := upd_cull _ w). cbv zeta. intros Hc.
  assert (Hc1 : cullConsistent w1) by exact Hc.
  destruct (negb _); [exact Hc1|].
  destruct (currentSplatMesh (host w1)) as [mesh|] eqn:Hmesh; [|exact Hc1].
  destruct (camera (host w1)) as [cam|]; [|exact Hc1].
  destruct (cameraIsDisposed cam); [exact Hc1|].
  destruct (lookupBounding_beside mesh w1) as (_ & _ & Hl & _).
  destruct (lookupBounding_mesh mesh w1 Hmesh) as (m & Hm & Hv & _).
  set (w2 := snd (lookupBounding mesh w1)) in *.
  assert (Hupd : forall v, cullConsistent (updateVisibility v w2)).
  { intros v. destruct (updateVisibility_spec v w2 m Hm) as (_ & Ul & _ & m' & Hm' & Hv').
    unfold cullConsistent. rewrite Hm', Ul, Hv'. intros ->.
    destruct (Bool.eqb _ true) eqn:E; [|reflexivity].
    apply Bool.eqb_prop in E. rewrite Hl in E. rewrite Hv.
    unfold cullConsistent in Hc1. rewrite Hmesh in Hc1. auto. }
  destruct (fst (lookupBounding mesh w1)); [|apply Hupd].
  destruct (purgeCache_beside (updateVisibility (isInFrustum cam b) w2)) as (_ & _ & Pl & Pm).
  unfold cullConsistent. rewrite Pm, Pl. apply Hupd.
Qed.

(** On a check frame without bounding information the mesh ends up
    visible. *)
Lemma frustumCullObserver_fail_open (w : World) :
  cullConsistent w -> noBoundingFrame w = true ->
  exists m, currentSplatMesh (host (frustumCullObserver isInFrustum w)) = Some m
            /\ isVisible m = true.
Proof.
  unfold frustumCullObserver, noBoundingFrame.
  set (w1 := upd_cull _ w). cbv zeta. intros Hc Hf.
  change (frustumCheckCount (cull w1)) with (frustumCheckCount (cull w) + 1).
  change (currentSplatMesh (host w1)) with (currentSplatMesh (host w)).
  change (camera (host w1)) with (camera (host w)).
  apply andb_prop in Hf. destruct Hf as [Hgate Hf]. rewrite Hgate. simpl.
  destruct (currentSplatMesh (host w)) as [mesh|] eqn:Hmesh; [|discriminate].
  destruct (camera (host w)) as [cam|]; [|discriminate].
  apply andb_prop in Hf. destruct Hf as [Hd Hnone].
  apply negb_true_iff in Hd. rewrite Hd.
  rewrite <- (lookupBounding_count mesh w (fun z => z + 1)) in Hnone. fold w1 in Hnone.
  destruct (lookupBounding_beside mesh w1) as (_ & _ & Hl & _).
  destruct (lookupBounding_mesh mesh w1 Hmesh) as (m & Hm & Hv & _).
  destruct (fst (lookupBounding mesh w1)); [discriminate|].
  destruct (updateVisibility_spec true (snd (lookupBounding mesh w1)) m Hm)
    as (_ & _ & _ & m' & Hm' & Hv').
  exists m'. split; [exact Hm'|]. rewrite Hv'.
  destruct (Bool.eqb _ true) eqn:E; [|reflexivity].
  apply Bool.eqb_prop in E. rewrite Hl in E. rewrite Hv.
  unfold cullConsistent in Hc. rewrite Hmesh in Hc. auto.
Qed.

End CullingObserver.

Lemma Event_eq_dec_frame (ev : Event) : {ev = EvFrame} + {ev <> EvFrame}.
Proof. destruct ev; (now left) || (right; discriminate). Qed.

(** C8: along any run, the number of visibility writes is the number of
    changes of value in the sequence of results the observer consumes on its
    check frames, counted from the cached last value (a check frame without
    bounding information consumes [true]); a run that feeds the results
    true, true, false, false, true makes exactly two writes. *)
Theorem visibility_writes_are_transitions
        (FromEulerVector : Vector3 -> Quaternion)
        (isInFrustum : Camera -> BoundingSphere -> bool)
        (evs : list Event) (w : World) :
  visibilityWrites (run FromEulerVector isInFrustum evs w)
  = (visibilityWrites w
     + transitions (lastVisibilityState (cull w))
                   (consumedResults FromEulerVector isInFrustum evs w))%nat
  /\ consumedResults Demo.euler Demo.frustum Demo.sweep Demo.desktop
     = [true; true; false; false; true]
  /\ visibilityWrites (Demo.go Demo.sweep Demo.desktop) = 2%nat.
Proof.
  split; [|split; vm_compute; reflexivity].
  revert w. induction evs as [|ev evs IH]; intros w.
  - simpl. lia.
  - change (run FromEulerVector isInFrustum (ev :: evs) w)
      with (run FromEulerVector isInFrustum evs (exec FromEulerVector isInFrustum ev w)).
    rewrite IH. simpl consumedResults.
    destruct (Event_eq_dec_frame ev) as [->|Hev].
    + unfold exec.
      pose proof (cullPart_updateDynamicResolutionLogic FromEulerVector
                    (frustumCullObserver isInFrustum w)) as Hu.
      unfold cullPart in Hu. inversion Hu as [[Hc Hm Hw]].
      destruct (frustumCullObserver_step isInFrustum w) as (_ & Sw & Sl).
      rewrite Hw, Hc, Sw, Sl.
      destruct (checkOutcome isInFrustum w) as [b|]; simpl; lia.
    + destruct (exec_other_culler FromEulerVector isInFrustum ev w Hev) as [Hc Hw].
      rewrite Hc, Hw. destruct ev; try reflexivity. contradiction.
Qed.

(* ------------------------------------------------------------------ *)
(** ** Invariants of the resolution controller *)
(* ------------------------------------------------------------------ *)

Lemma drsConsistent_ext (w w' : World) :
  storedRatio w' = storedRatio w -> drsRest w' = drsRest w ->
  drsConsistent w -> drsConsistent w'.
Proof.
  unfold drsConsistent, drsRest. intros Hr Hd. inversion Hd as [[H1 H2 H3 H4 H5]].
  now rewrite Hr, H1, H2, H3, H4, H5.
Qed.

(** Preset ratios are far enough apart for a request to be stored exactly. *)
Lemma storedAfter_preset (cur r : float) :
  In cur presetRatios -> In r presetRatios -> storedAfter cur r = r.
Proof.
  unfold presetRatios. simpl. intros Hc Hr.
  repeat (destruct Hc as [<-|Hc]; [|]); try contradiction;
    repeat (destruct Hr as [<-|Hr]; [|]); try contradiction; reflexivity.
Qed.

Lemma targets_are_presets (w : World) :
  drsConsistent w ->
  In (dynamicHighPixelRatio (lod w)) presetRatios
  /\ In (dynamicLowPixelRatio (lod w)) presetRatios.
Proof.
  intros (_ & Ht & _). unfold targetPairs, presetRatios in *. simpl in *.
  repeat (destruct Ht as [Ht|Ht]; [inversion Ht; split; auto 6|]). contradiction.
Qed.

Lemma preset_table_ratios (presetName : string) (preset : PresetEntry) :
  PIXEL_RATIO_PRESETS presetName = Some preset -> In (pixelRatio preset) presetRatios.
Proof.
  unfold PIXEL_RATIO_PRESETS, presetRatios.
  repeat (destruct (String.eqb presetName _); [intros [= <-]; simpl; auto 6|]).
  discriminate.
Qed.

Lemma drsRest_setPixelRatio (r : float) (w : World) :
  drsRest (setPixelRatio r w) = drsRest w.
Proof.
  unfold setPixelRatio, updateButtonActiveStates, updatePerformanceIndicator.
  break_matches; reflexivity.
Qed.

Lemma setPixelRatio_lod (r : float) (w : World) : lod (setPixelRatio r w) = lod w.
Proof.
  unfold setPixelRatio, updateButtonActiveStates, updatePerformanceIndicator.
  break_matches; reflexivity.
Qed.

Lemma setPixelRatio_timers (r : float) (w : World) :
  timers (host (setPixelRatio r w)) = timers (host w).
Proof.
  unfold setPixelRatio, updateButtonActiveStates, updatePerformanceIndicator.
  break_matches; reflexivity.
Qed.

Lemma cancelMovementTimer_lod (w : World) :
  lod (cancelMovementTimer w) = set_movementTimeoutId None (lod w).
Proof. unfold cancelMovementTimer, clearTimeout. now destruct (movementTimeoutId (lod w)). Qed.

Lemma drsConsistent_setPixelRatio (r : float) (w : World) :
  In r presetRatios -> drsConsistent w ->
  drsConsistent (setPixelRatio r w) /\ storedRatio (setPixelRatio r w) = r.
Proof.
  intros Hr Hc.
  assert (Hs : storedRatio (setPixelRatio r w) = r).
  { rewrite setPixelRatio_stored. apply storedAfter_preset; [apply Hc|exact Hr]. }
  split; [|exact Hs].
  pose proof (drsRest_setPixelRatio r w) as Hd.
  unfold drsConsistent, drsRest in *. inversion Hd as [[H1 H2 H3 H4 H5]].
  rewrite Hs, H1, H2, H3, H4, H5. destruct Hc as (_ & Hc). now split.
Qed.

Lemma filter_same_id (id : positive) (ts : list Timer) :
  (forall u, In u ts -> timerId u = id) ->
  List.filter (fun t => negb (isTimer id t)) ts = [].
Proof.
  induction ts as [|t ts IH]; intros H; [reflexivity|]. simpl.
  unfold isTimer at 1. rewrite (H t (or_introl eq_refl)), Pos.eqb_refl. simpl.
  apply IH. intros u Hu. apply H. now right.
Qed.

(** Cancelling the timer empties the queue: every pending timer is the one
    the controller holds. *)
Lemma drsConsistent_cancelMovementTimer (w : World) :
  drsConsistent w ->
  drsConsistent (cancelMovementTimer w)
  /\ timers (host (cancelMovementTimer w)) = []
  /\ movementTimeoutId (lod (cancelMovementTimer w)) = None
  /\ storedRatio (cancelMovementTimer w) = storedRatio w.
Proof.
  intros (Hr & Ht & Hq & Hw).
  assert (He : timers (host (cancelMovementTimer w)) = []).
  { unfold cancelMovementTimer, clearTimeout.
    destruct (movementTimeoutId (lod w)) as [id|] eqn:Hid; simpl.
    - apply filter_same_id. intros u Hu. specialize (Hq u Hu). congruence.
    - destruct (timers (host w)) as [|t ts]; [reflexivity|].
      specialize (Hq t (or_introl eq_refl)). discriminate. }
  assert (Hs : storedRatio (cancelMovementTimer w) = storedRatio w).
  { unfold cancelMovementTimer, clearTimeout. now destruct (movementTimeoutId (lod w)). }
  assert (Hl : lod (cancelMovementTimer w) = set_movementTimeoutId None (lod w)).
  { unfold cancelMovementTimer, clearTimeout. now destruct (movementTimeoutId (lod w)). }
  assert (Hx : window_isConsideredMoving (win (cancelMovementTimer w))
               = window_isConsideredMoving (win w)).
  { unfold cancelMovementTimer, clearTimeout. now destruct (movementTimeoutId (lod w)). }
  unfold drsConsistent. rewrite Hs, Hl, He, Hx. simpl.
  repeat split; auto. intros t [].
Qed.

(** A timer is scheduled only when none is held. *)
Lemma drsConsistent_schedule (w : World) :
  drsConsistent w -> movementTimeoutId (lod w) = None ->
  drsConsistent
    (upd_lod (set_movementTimeoutId (Some (fst (setTimeout timeUntilResolutionIncrease w))))
             (snd (setTimeout timeUntilResolutionIncrease w))).
Proof.
  intros (Hr & Ht & Hq & Hw) Hid. repeat split; auto. simpl.
  destruct (timers (host w)) as [|t ts].
  - intros t [<-|[]]. reflexivity.
  - specialize (Hq t (or_introl eq_refl)). congruence.
Qed.

Lemma drsConsistent_upd_lod (f : Lod -> Lod) (w : World) :
  dynamicHighPixelRatio (f (lod w)) = dynamicHighPixelRatio (lod w) ->
  dynamicLowPixelRatio (f (lod w)) = dynamicLowPixelRatio (lod w) ->
  movementTimeoutId (f (lod w)) = movementTimeoutId (lod w) ->
  drsConsistent w -> drsConsistent (upd_lod f w).
Proof.
  intros H1 H2 H3. apply drsConsistent_ext; [reflexivity|].
  unfold drsRest. simpl. now rewrite H1, H2, H3.
Qed.

Lemma drsConsistent_emit (e : Effect) (w : World) :
  drsConsistent w -> drsConsistent (emit e w).
Proof. now apply drsConsistent_ext. Qed.

Section ControllerInvariant.

Variable FromEulerVector : Vector3 -> Quaternion.
Variable isInFrustum : Camera -> BoundingSphere -> bool.

(** The movement detector touches neither the ratio, the targets, the timer
    nor the mode. *)
Lemma hasCameraMoved_beside (forceCheck : bool) (w : World) :
  storedRatio (snd (hasCameraMoved FromEulerVector forceCheck w)) = storedRatio w
  /\ drsRest (snd (hasCameraMoved FromEulerVector forceCheck w)) = drsRest w
  /\ isDynamicResolutionActive (lod (snd (hasCameraMoved FromEulerVector forceCheck w)))
     = isDynamicResolutionActive (lod w).
Proof.
  unfold hasCameraMoved, compareWithSnapshot.
  destruct (camera (host w)); [|now repeat split].
  destruct (engineUnavailable w); [now repeat split|].
  destruct (lastCameraPosition (lod w)), (lastCameraRotationQ (lod w)), forceCheck;
    simpl; break_matches; now repeat split.
Qed.

Lemma drsConsistent_hasCameraMoved (forceCheck : bool) (w : World) :
  drsConsistent w -> drsConsistent (snd (hasCameraMoved FromEulerVector forceCheck w)).
Proof.
  destruct (hasCameraMoved_beside forceCheck w) as (Hr & Hd & _).
  now apply drsConsistent_ext.
Qed.

(** A forced check answers from the camera, the snapshot and the joystick
    alone: the mode and the preset name do not enter. *)
Lemma forced_check_ignores_mode (w : World) (f : Lod -> Lod) :
  lastCameraPosition (f (lod w)) = lastCameraPosition (lod w) ->
  lastCameraRotationQ (f (lod w)) = lastCameraRotationQ (lod w) ->
  fst (hasCameraMoved FromEulerVector true (upd_lod f w))
  = fst (hasCameraMoved FromEulerVector true w).
Proof.
  intros Hp Hq. unfold hasCameraMoved, compareWithSnapshot, engineUnavailable. simpl.
  rewrite Hp, Hq.
  destruct (camera (host w)); [|reflexivity].
  destruct (engine (host w)) as [e|]; [|reflexivity].
  destruct (engineIsDisposed e); [reflexivity|].
  now destruct (lastCameraPosition (lod w)), (lastCameraRotationQ (lod w)).
Qed.

(** Entering Dynamic mode from Manual mode. *)
Lemma activateDynamicResolution_spec (w : World) :
  drsConsistent w -> isDynamicResolutionActive (lod w) = false ->
  drsConsistent (activateDynamicResolution FromEulerVector w)
  /\ isDynamicResolutionActive (lod (activateDynamicResolution FromEulerVector w)) = true
  /\ storedRatio (activateDynamicResolution FromEulerVector w)
     = (if fst (hasCameraMoved FromEulerVector true w)
        then dynamicLowPixelRatio (lod w) else dynamicHighPixelRatio (lod w))
  /\ (fst (hasCameraMoved FromEulerVector true w) = false ->
      timers (host (activateDynamicResolution FromEulerVector w)) = []
      /\ movementTimeoutId (lod (activateDynamicResolution FromEulerVector w)) = None).
Proof.
  intros Hc Ha. unfold activateDynamicResolution, applyDynamicResolution. rewrite Ha.
  set (wa := upd_lod (set_currentPixelRatioPreset None)
                     (upd_lod (set_isDynamicResolutionActive true) w)).
  assert (Hwa : drsConsistent wa) by exact Hc.
  assert (Hmv : fst (hasCameraMoved FromEulerVector true wa)
                = fst (hasCameraMoved FromEulerVector true w)).
  { unfold wa. now rewrite !forced_check_ignores_mode. }
  cbv zeta. rewrite Hmv.
  destruct (hasCameraMoved_beside true wa) as (Hr & Hd & Hact).
  pose proof (drsConsistent_hasCameraMoved true wa Hwa) as Hc1.
  set (w1 := snd (hasCameraMoved FromEulerVector true wa)) in *.
  set (mv := fst (hasCameraMoved FromEulerVector true w)).
  set (w2 := upd_lod (set_isConsideredMoving mv) w1).
  assert (Hc2 : drsConsistent w2) by exact Hc1.
  assert (Hact2 : isDynamicResolutionActive (lod w2) = true) by exact Hact.
  assert (Hhl : dynamicHighPixelRatio (lod w2) = dynamicHighPixelRatio (lod w)
                /\ dynamicLowPixelRatio (lod w2) = dynamicLowPixelRatio (lod w)).
  { unfold drsRest in Hd. inversion Hd. now split. }
  destruct Hhl as [Hh Hl].
  destruct (targets_are_presets w2 Hc2) as [Hhp Hlp].
  unfold updateButtonActiveStates.
  destruct mv.
  - destruct (drsConsistent_setPixelRatio _ w2 Hlp Hc2) as [Hc3 Hs3].
    split; [|split; [|split]].
    + now apply drsConsistent_emit.
    + change (isDynamicResolutionActive
                (lod (setPixelRatio (dynamicLowPixelRatio (lod w2)) w2)) = true).
      now rewrite setPixelRatio_lod.
    + change (storedRatio (setPixelRatio (dynamicLowPixelRatio (lod w2)) w2)
              = dynamicLowPixelRatio (lod w)). now rewrite Hs3.
    + discriminate.
  - destruct (drsConsistent_setPixelRatio _ w2 Hhp Hc2) as [Hc3 Hs3].
    destruct (drsConsistent_cancelMovementTimer _ Hc3) as (Hc4 & Ht4 & Hi4 & Hs4).
    split; [|split; [|split]].
    + now apply drsConsistent_emit.
    + change (isDynamicResolutionActive
                (lod (cancelMovementTimer (setPixelRatio (dynamicHighPixelRatio (lod w2)) w2)))
              = true).
      now rewrite cancelMovementTimer_lod, setPixelRatio_lod.
    + change (storedRatio (cancelMovementTimer
                             (setPixelRatio (dynamicHighPixelRatio (lod w2)) w2))
              = dynamicHighPixelRatio (lod w)). now rewrite Hs4, Hs3.
    + intros _. split; [exact Ht4|exact Hi4].
Qed.

Lemma drsConsistent_activateDynamicResolution (w : World) :
  drsConsistent w -> drsConsistent (activateDynamicResolution FromEulerVector w).
Proof.
  intros Hc. destruct (isDynamicResolutionActive (lod w)) eqn:Ha.
  - unfold activateDynamicResolution. now rewrite Ha.
  - now apply activateDynamicResolution_spec.
Qed.

End ControllerInvariant.

Lemma drsConsistent_deactivateDynamicResolution (w : World) :
  drsConsistent w -> drsConsistent (deactivateDynamicResolution w).
Proof.
  intros Hc. unfold deactivateDynamicResolution.
  destruct (_ || _ || _); [exact Hc|]. cbv zeta.
  destruct (negb _); [exact Hc|].
  apply drsConsistent_upd_lod; try reflexivity.
  now apply drsConsistent_cancelMovementTimer.
Qed.

Lemma drsConsistent_applyPixelRatioPreset (presetName : string) (w : World) :
  drsConsistent w -> drsConsistent (applyPixelRatioPreset presetName w).
Proof.
  intros Hc. unfold applyPixelRatioPreset.
  destruct (PIXEL_RATIO_PRESETS presetName) as [preset|] eqn:Hp; [|exact Hc].
  apply drsConsistent_setPixelRatio; [now apply preset_table_ratios with presetName|].
  apply drsConsistent_upd_lod; try reflexivity.
  now apply drsConsistent_deactivateDynamicResolution.
Qed.

(** The callback of a timer that has left an otherwise empty queue. *)
Lemma drsConsistent_resolutionIncreaseCallback (w : World) :
  drsConsistent w -> timers (host w) = [] ->
  drsConsistent (resolutionIncreaseCallback w).
Proof.
  intros Hc Ht. unfold resolutionIncreaseCallback, applyDynamicResolution.
  assert (H : forall w', drsConsistent w' -> timers (host w') = [] ->
                         drsConsistent (upd_lod (set_movementTimeoutId None) w')).
  { intros w' (Hr & Hp & _ & Hw) Ht'. repeat split; auto. simpl. rewrite Ht'. intros t []. }
  destruct (isDynamicResolutionActive (lod w)).
  - destruct (targets_are_presets w Hc) as [Hh _].
    destruct (drsConsistent_setPixelRatio _ w Hh Hc) as [Hc' _].
    apply H.
    + apply drsConsistent_upd_lod; try reflexivity. exact Hc'.
    + change (timers (host (setPixelRatio (dynamicHighPixelRatio (lod w)) w)) = []).
      now rewrite setPixelRatio_timers.
  - apply H; [exact Hc|exact Ht].
Qed.

Lemma drsConsistent_fireTimer (w : World) (t : Timer) :
  drsConsistent w -> drsConsistent (fireTimer w t).
Proof.
  intros Hc. unfold fireTimer.
  destruct (existsb _ _) eqn:Hex; [|exact Hc].
  apply existsb_exists in Hex. destruct Hex as (t' & Hin & Hid).
  unfold isTimer in Hid. apply Pos.eqb_eq in Hid.
  destruct Hc as (Hr & Hp & Hq & Hw).
  assert (He : timers (host (removeTimer (timerId t) w)) = []).
  { unfold removeTimer. simpl. apply filter_same_id.
    intros u Hu. pose proof (Hq u Hu) as E1. pose proof (Hq t' Hin) as E2.
    rewrite E1 in E2. injection E2 as E2. congruence. }
  apply drsConsistent_resolutionIncreaseCallback; [|exact He].
  repeat split; auto. rewrite He. intros u [].
Qed.

Lemma drsConsistent_elapse (dt : N) (w : World) :
  drsConsistent w -> drsConsistent (elapse dt w).
Proof.
  intros Hc. unfold elapse. cbv zeta.
  set (w1 := upd_host _ w). assert (Hc1 : drsConsistent w1) by exact Hc.
  clearbody w1. generalize (List.filter (isDue (now (host w1))) (timers (host w1))).
  intros ts. revert w1 Hc1.
  induction ts as [|t ts IH]; intros w1 Hc1; simpl; [exact Hc1|].
  apply IH. now apply drsConsistent_fireTimer.
Qed.

Lemma drsConsistent_cleanupManualLOD (w : World) :
  drsConsistent w -> drsConsistent (cleanupManualLOD w).
Proof.
  intros Hc. unfold cleanupManualLOD. cbv zeta.
  repeat (apply drsConsistent_upd_lod; try reflexivity).
  destruct (JS.defined _); [now apply drsConsistent_cancelMovementTimer|exact Hc].
Qed.

Section ExecInvariant.

Variable FromEulerVector : Vector3 -> Quaternion.
Variable isInFrustum : Camera -> BoundingSphere -> bool.

Lemma drsConsistent_updateDynamicResolutionLogic (w : World) :
  drsConsistent w -> drsConsistent (updateDynamicResolutionLogic FromEulerVector w).
Proof.
  intros Hc. unfold updateDynamicResolutionLogic, applyDynamicResolution.
  destruct (_ || _ || _ || _ || _).
  - destruct (_ && _); [now apply drsConsistent_cancelMovementTimer|exact Hc].
  - cbv zeta.
    pose proof (drsConsistent_hasCameraMoved FromEulerVector false w Hc) as Hc1.
    set (w1 := snd (hasCameraMoved FromEulerVector false w)) in *.
    destruct (fst _).
    + set (w2 := upd_lod (set_isConsideredMoving true) w1).
      assert (Hc2 : drsConsistent w2) by exact Hc1.
      destruct (targets_are_presets w2 Hc2) as [_ Hl].
      destruct (drsConsistent_setPixelRatio _ w2 Hl Hc2) as [Hc3 _].
      destruct (JS.gt _ _); destruct (JS.defined _);
        try (now apply drsConsistent_cancelMovementTimer); assumption.
    + destruct (movementTimeoutId (lod w1)) eqn:Hid; simpl; [exact Hc1|].
      now apply drsConsistent_schedule.
Qed.

Lemma drsConsistent_initManualLOD (w : World) :
  drsConsistent w -> drsConsistent (initManualLOD FromEulerVector w).
Proof.
  apply drsConsistent_ext.
  - unfold initManualLOD, addPerformanceIndicator, updatePerformanceIndicator,
      initDynamicResolutionSystem, updateButtonActiveStates.
    break_matches; reflexivity.
  - unfold initManualLOD, addPerformanceIndicator, updatePerformanceIndicator,
      initDynamicResolutionSystem, updateButtonActiveStates.
    break_matches; reflexivity.
Qed.

Lemma drsConsistent_initWithDefaults (w : World) :
  drsConsistent w -> drsConsistent (initWithDefaults FromEulerVector w).
Proof.
  intros (Hr & Hp & Hq & Hw). unfold initWithDefaults. simpl.
  apply drsConsistent_activateDynamicResolution.
  destruct (uaMobile (host w)); destruct (JS.defined _);
    try apply drsConsistent_hasCameraMoved;
    repeat split; auto; unfold targetPairs; simpl; auto.
Qed.

Lemma drsConsistent_frustumCullObserver (w : World) :
  drsConsistent w -> drsConsistent (frustumCullObserver isInFrustum w).
Proof.
  destruct (frustumCullObserver_step isInFrustum w) as (Hb & _).
  unfold besideCulling in Hb. inversion Hb as [[H1 H2 H3 H4 H5 H6 H7 H8 H9]].
  apply drsConsistent_ext.
  - unfold storedRatio. now rewrite H2.
  - unfold drsRest. now rewrite H1, H2, H8.
Qed.

Lemma drsConsistent_exec (ev : Event) (w : World) :
  drsConsistent w -> drsConsistent (exec FromEulerVector isInFrustum ev w).
Proof.
  intros Hc. destruct ev; unfold exec; try exact Hc.
  - now apply drsConsistent_initManualLOD.
  - now apply drsConsistent_initWithDefaults.
  - now apply drsConsistent_applyPixelRatioPreset.
  - now apply drsConsistent_activateDynamicResolution.
  - now apply drsConsistent_updateDynamicResolutionLogic, drsConsistent_frustumCullObserver.
  - now apply drsConsistent_elapse.
  - now apply drsConsistent_cleanupManualLOD.
Qed.

Lemma cullConsistent_exec (ev : Event) (w : World) :
  cullConsistent w -> cullConsistent (exec FromEulerVector isInFrustum ev w).
Proof.
  intros Hc.
  assert (H : forall w0 w', cullPart w' = cullPart w0 -> cullConsistent w0 -> cullConsistent w').
  { intros w0 w' E. unfold cullPart in E. inversion E as [[E1 E2 E3]].
    unfold cullConsistent. now rewrite E1, E2. }
  destruct ev; unfold exec; try exact Hc.
  - apply (H w); [apply cullPart_initManualLOD|exact Hc].
  - apply (H w); [apply cullPart_initWithDefaults|exact Hc].
  - apply (H w); [apply cullPart_applyPixelRatioPreset|exact Hc].
  - apply (H w); [apply cullPart_activateDynamicResolution|exact Hc].
  - apply (H (frustumCullObserver isInFrustum w)).
    + apply cullPart_updateDynamicResolutionLogic.
    + now apply frustumCullObserver_consistent.
  - apply (H w); [apply cullPart_elapse|exact Hc].
  - apply (H w); [apply cullPart_cleanupManualLOD|exact Hc].
  - intros _. reflexivity.
  - exact I.
Qed.

(** Both invariants hold in every reachable state. *)
Lemma reachable_consistent (w : World) :
  reachable FromEulerVector isInFrustum w -> drsConsistent w /\ cullConsistent w.
Proof.
  intros (w0 & evs & Hb & ->).
  assert (H0 : drsConsistent w0 /\ cullConsistent w0).
  { destruct Hb as (mobile & lowEnd & width & height & e & cam & mesh & Hm & ->).
    split.
    - repeat split; unfold presetRatios, targetPairs; simpl; auto. intros t [].
    - unfold cullConsistent. simpl. destruct mesh; auto. }
  clear Hb. revert w0 H0. unfold run.
  induction evs as [|ev evs IH]; intros w0 [Hd Hc]; simpl; [now split|].
  apply IH. split; [now apply drsConsistent_exec|now apply cullConsistent_exec].
Qed.

End ExecInvariant.

(* ------------------------------------------------------------------ *)
(** ** Properties of the resolution state machine *)
(* ------------------------------------------------------------------ *)

Lemma demo_reachable (evs : list Event) (w : World) :
  w = Demo.desktop \/ w = Demo.mobileLowEnd ->
  reachable Demo.euler Demo.frustum (Demo.go evs w).
Proof.
  intros Hw. exists w, evs. split; [|reflexivity].
  destruct Hw as [-> | ->]; unfold booted, Demo.desktop, Demo.mobileLowEnd.
  - exists false, false, 1920, 1080, (Some Demo.theEngine), (Some (Demo.cameraAt 0)),
      (Some Demo.splat). now split.
  - exists true, true, 800, 600, (Some Demo.theEngine), (Some (Demo.cameraAt 0)),
      (Some Demo.splat). now split.
Defined.

Lemma activateDynamicResolution_active (FromEulerVector : Vector3 -> Quaternion) (w : World) :
  isDynamicResolutionActive (lod (activateDynamicResolution FromEulerVector w)) = true.
Proof.
  unfold activateDynamicResolution, applyDynamicResolution.
  destruct (isDynamicResolutionActive (lod w)) eqn:Ha; [exact Ha|]. cbv zeta.
  set (wa := upd_lod (set_currentPixelRatioPreset None)
                     (upd_lod (set_isDynamicResolutionActive true) w)).
  destruct (hasCameraMoved_beside FromEulerVector true wa) as (_ & _ & Hact).
  unfold updateButtonActiveStates.
  destruct (fst (hasCameraMoved FromEulerVector true wa)).
  - change (isDynamicResolutionActive
              (lod (setPixelRatio
                      (dynamicLowPixelRatio
                         (lod (upd_lod (set_isConsideredMoving true)
                                       (snd (hasCameraMoved FromEulerVector true wa)))))
                      (upd_lod (set_isConsideredMoving true)
                               (snd (hasCameraMoved FromEulerVector true wa))))) = true).
    rewrite setPixelRatio_lod. exact Hact.
  - change (isDynamicResolutionActive
              (lod (cancelMovementTimer
                      (setPixelRatio
                         (dynamicHighPixelRatio
                            (lod (upd_lod (set_isConsideredMoving false)
                                          (snd (hasCameraMoved FromEulerVector true wa)))))
                         (upd_lod (set_isConsideredMoving false)
                                  (snd (hasCameraMoved FromEulerVector true wa)))))) = true).
    rewrite cancelMovementTimer_lod, setPixelRatio_lod. exact Hact.
Qed.

(** C1, at the failing input: Dynamic mode on a desktop with the timer
    pending (due at 750 ms); the Low preset is applied, which stores 0.35
    but leaves Dynamic mode on and the timer in the queue; once 750 ms have
    passed the timer fires and the stored ratio is 1.0. *)
Theorem preset_click_leaves_timer_armed :
  let w0 := Demo.dynamicPending in
  let w1 := Demo.go [EvPreset "LOW"] w0 in
  let w2 := Demo.go [EvElapse 750] w1 in
  (isDynamicResolutionActive (lod w0) = true
   /\ movementTimeoutId (lod w0) = Some 1%positive
   /\ timers (host w0) = [mkTimer 1 750])
  /\ (storedRatio w1 = 0.35%float
      /\ currentPixelRatioPreset (lod w1) = Some "LOW"%string
      /\ isDynamicResolutionActive (lod w1) = true
      /\ timers (host w1) = [mkTimer 1 750])
  /\ storedRatio w2 = 1%float.
Proof. vm_compute. repeat split; reflexivity. Qed.

(** When the call does get through the counter of
    [deactivateDynamicResolution], the preset ends Dynamic mode, empties the
    timer queue, and no amount of waiting changes the stored ratio. *)
Lemma preset_cancels_timer_when_counter_allows
      (presetName : string) (preset : PresetEntry) (w : World) :
  drsConsistent w ->
  PIXEL_RATIO_PRESETS presetName = Some preset ->
  isDynamicResolutionActive (lod w) = true ->
  engineUnavailable w = false -> documentHidden (host w) = false ->
  Z.rem (drsFrameCounter (lod w) + 1) DRS_CHECK_INTERVAL = 0 ->
  isDynamicResolutionActive (lod (applyPixelRatioPreset presetName w)) = false
  /\ timers (host (applyPixelRatioPreset presetName w)) = []
  /\ forall dt, storedRatio (elapse dt (applyPixelRatioPreset presetName w))
                = pixelRatio preset.
Proof.
  intros Hc Hp Ha He Hh Hn. unfold applyPixelRatioPreset. rewrite Hp.
  assert (Hd : deactivateDynamicResolution w
               = upd_lod (set_isConsideredMoving false)
                   (cancelMovementTimer
                      (upd_lod (set_isDynamicResolutionActive false)
                         (upd_lod (fun l => set_drsFrameCounter (drsFrameCounter l + 1) l) w)))).
  { unfold deactivateDynamicResolution. rewrite Ha, He, Hh. simpl.
    now rewrite Hn. }
  rewrite Hd.
  set (w0 := upd_lod (set_isDynamicResolutionActive false)
               (upd_lod (fun l => set_drsFrameCounter (drsFrameCounter l + 1) l) w)).
  assert (Hc0 : drsConsistent w0) by exact Hc.
  destruct (drsConsistent_cancelMovementTimer w0 Hc0) as (Hc1 & Ht1 & _ & _).
  set (w1 := upd_lod (set_currentPixelRatioPreset (Some presetName))
               (upd_lod (set_isConsideredMoving false) (cancelMovementTimer w0))).
  assert (Hc2 : drsConsistent w1) by exact Hc1.
  destruct (drsConsistent_setPixelRatio _ w1 (preset_table_ratios _ _ Hp) Hc2) as [_ Hs].
  assert (Ht : timers (host (setPixelRatio (pixelRatio preset) w1)) = []).
  { rewrite setPixelRatio_timers. exact Ht1. }
  split; [|split].
  - rewrite setPixelRatio_lod.
    change (lod w1) with (set_currentPixelRatioPreset (Some presetName)
                            (set_isConsideredMoving false (lod (cancelMovementTimer w0)))).
    now rewrite cancelMovementTimer_lod.
  - exact Ht.
  - intros dt. unfold elapse. simpl. rewrite Ht. exact Hs.
Qed.

(** C2, at the failing input: [initWithDefaults] takes the dynamic branch on
    every host; after it Dynamic mode is active, and at boot no manual preset
    is recorded, on the desktop host and on the mobile one. *)
Theorem initWithDefaults_enters_dynamic
        (FromEulerVector : Vector3 -> Quaternion) (w : World) :
  isDynamicResolutionActive (lod (initWithDefaults FromEulerVector w)) = true
  /\ currentPixelRatioPreset (lod (initWithDefaults Demo.euler Demo.desktop)) = None
  /\ currentPixelRatioPreset (lod (initWithDefaults Demo.euler Demo.mobileLowEnd)) = None.
Proof.
  split; [|split; reflexivity].
  unfold initWithDefaults. simpl. apply activateDynamicResolution_active.
Qed.

(** C4: when the timer fires while Dynamic mode is off, its callback applies
    nothing: the stored ratio, the window, the engine, the effects and the
    culler are as before, and of the controller's variables only the timer
    id and the moving flag are reset. *)
Theorem stale_timer_applies_nothing (w : World) (t : Timer) :
  isDynamicResolutionActive (lod w) = false ->
  storedRatio (fireTimer w t) = storedRatio w
  /\ effects (host (fireTimer w t)) = effects (host w)
  /\ engine (host (fireTimer w t)) = engine (host w)
  /\ isDynamicResolutionActive (lod (fireTimer w t)) = false
  /\ resolutionIncreaseCallback w
     = upd_lod (fun l => set_movementTimeoutId None (set_isConsideredMoving false l)) w.
Proof.
  intros Ha. unfold fireTimer, resolutionIncreaseCallback, removeTimer. simpl. rewrite Ha.
  destruct (existsb _ _); simpl; now repeat split.
Qed.

Lemma stale_timer_applies_nothing_witness :
  isDynamicResolutionActive (lod Demo.staleTimer) = false
  /\ timers (host Demo.staleTimer) = [mkTimer 1 750]
  /\ storedRatio (fireTimer Demo.staleTimer (mkTimer 1 750)) = storedRatio Demo.staleTimer.
Proof.
  split; [reflexivity|]. split; [reflexivity|].
  exact (proj1 (stale_timer_applies_nothing Demo.staleTimer (mkTimer 1 750) eq_refl)).
Defined.

(** C6: in every reachable state in which Dynamic mode is off, activating
    it turns it on and stores the target that the forced movement check
    selects: the low target if the check reports movement, otherwise the high
    target, and then no timer is pending. On the desktop host, from the
    Medium preset (0.5) and stationary, the ratio becomes 1.0; on the low-end
    mobile host, moving, it becomes 0.35. *)
Theorem entering_dynamic_applies_target
        (FromEulerVector : Vector3 -> Quaternion)
        (isInFrustum : Camera -> BoundingSphere -> bool) (w : World) :
  reachable FromEulerVector isInFrustum w ->
  isDynamicResolutionActive (lod w) = false ->
  (isDynamicResolutionActive (lod (activateDynamicResolution FromEulerVector w)) = true
   /\ (fst (hasCameraMoved FromEulerVector true w) = true ->
       storedRatio (activateDynamicResolution FromEulerVector w)
       = dynamicLowPixelRatio (lod w))
   /\ (fst (hasCameraMoved FromEulerVector true w) = false ->
       storedRatio (activateDynamicResolution FromEulerVector w)
       = dynamicHighPixelRatio (lod w)
       /\ timers (host (activateDynamicResolution FromEulerVector w)) = []
       /\ movementTimeoutId (lod (activateDynamicResolution FromEulerVector w)) = None))
  /\ (currentPixelRatioPreset (lod (Demo.manualMedium Demo.desktop)) = Some "MEDIUM"%string
      /\ storedRatio (Demo.manualMedium Demo.desktop) = 0.5%float
      /\ fst (hasCameraMoved Demo.euler true (Demo.manualMedium Demo.desktop)) = false
      /\ storedRatio (activateDynamicResolution Demo.euler (Demo.manualMedium Demo.desktop))
         = 1%float)
  /\ (fst (hasCameraMoved Demo.euler true Demo.manualMediumMoving) = true
      /\ storedRatio (activateDynamicResolution Demo.euler Demo.manualMediumMoving)
         = 0.35%float).
Proof.
  intros Hr Ha. split; [|split; vm_compute; repeat split; reflexivity].
  destruct (reachable_consistent _ _ _ Hr) as [Hc _].
  destruct (activateDynamicResolution_spec FromEulerVector w Hc Ha) as (_ & Hact & Hs & Ht).
  split; [exact Hact|]. split.
  - intros Hm. now rewrite Hs, Hm.
  - intros Hm. split; [now rewrite Hs, Hm|now apply Ht].
Qed.

Lemma entering_dynamic_applies_target_witness :
  isDynamicResolutionActive (lod (Demo.manualMedium Demo.desktop)) = false
  /\ fst (hasCameraMoved Demo.euler true (Demo.manualMedium Demo.desktop)) = false
  /\ storedRatio (activateDynamicResolution Demo.euler (Demo.manualMedium Demo.desktop))
     = dynamicHighPixelRatio (lod (Demo.manualMedium Demo.desktop))
  /\ timers (host (activateDynamicResolution Demo.euler (Demo.manualMedium Demo.desktop))) = []
  /\ movementTimeoutId
       (lod (activateDynamicResolution Demo.euler (Demo.manualMedium Demo.desktop))) = None.
Proof.
  split; [reflexivity|]. split; [reflexivity|].
  exact (proj2 (proj2 (proj1 (entering_dynamic_applies_target
                                Demo.euler Demo.frustum (Demo.manualMedium Demo.desktop)
                                (demo_reachable _ _ (or_introl eq_refl)) eq_refl)))
               eq_refl).
Defined.

(* ------------------------------------------------------------------ *)
(** ** Properties of the visibility culler *)
(* ------------------------------------------------------------------ *)

(** C9: in every reachable state, on a check frame on which no bounding
    information can be obtained for the mesh, the mesh is visible after the
    observer has run, whatever frustum test the observer is given, and it
    still is after the whole frame. *)
Theorem culling_fails_open
        (FromEulerVector : Vector3 -> Quaternion)
        (isInFrustum anyTest : Camera -> BoundingSphere -> bool) (w : World) :
  reachable FromEulerVector isInFrustum w ->
  noBoundingFrame w = true ->
  (exists m, currentSplatMesh (host (frustumCullObserver anyTest w)) = Some m
             /\ isVisible m = true)
  /\ (exists m, currentSplatMesh (host (exec FromEulerVector anyTest EvFrame w)) = Some m
                /\ isVisible m = true).
Proof.
  intros Hr Hf. destruct (reachable_consistent _ _ _ Hr) as [_ Hc].
  destruct (frustumCullObserver_fail_open anyTest w Hc Hf) as (m & Hm & Hv).
  split; [now exists m|]. exists m. split; [|exact Hv].
  unfold exec.
  pose proof (cullPart_updateDynamicResolutionLogic FromEulerVector
                (frustumCullObserver anyTest w)) as E.
  apply (f_equal (fun p => snd (fst p))) in E. simpl in E. now rewrite E.
Qed.

Lemma culling_fails_open_witness :
  noBoundingFrame Demo.beforeBlindCheck = true
  /\ lastVisibilityState (cull Demo.beforeBlindCheck) = false
  /\ exists m, currentSplatMesh (host (frustumCullObserver (fun _ _ => false)
                                                            Demo.beforeBlindCheck)) = Some m
               /\ isVisible m = true.
Proof.
  split; [reflexivity|]. split; [reflexivity|].
  exact (proj1 (culling_fails_open Demo.euler Demo.frustum (fun _ _ => false)
                                   Demo.beforeBlindCheck
                                   (demo_reachable _ _ (or_introl eq_refl)) eq_refl)).
Defined.

(** C10: in every reachable state [window.isConsideredMoving] is undefined,
    so the interval of the culling observer is the one of the tier for
    "moving" exactly when the joystick is active; with the joystick inactive
    it is the stationary interval (60, 45 or 30 frames by tier), whatever the
    controller's own moving flag says. *)
Theorem culling_interval_follows_joystick_only
        (FromEulerVector : Vector3 -> Quaternion)
        (isInFrustum : Camera -> BoundingSphere -> bool) (w : World) :
  reachable FromEulerVector isInFrustum w ->
  window_isConsideredMoving (win w) = None
  /\ checkInterval w = tierInterval (cull w) (joystickActive (win w))
  /\ (joystickActive (win w) = false ->
      checkInterval w = (if cullIsLowEndDevice (cull w) then 60
                         else if cullIsMobile (cull w) then 45 else 30)).
Proof.
  intros Hr. destruct (reachable_consistent _ _ _ Hr) as [(_ & _ & _ & Hw) _].
  unfold checkInterval, tierInterval. rewrite Hw. simpl. rewrite orb_false_r.
  repeat split. intros ->. reflexivity.
Qed.

Lemma culling_interval_follows_joystick_only_witness :
  isConsideredMoving (lod Demo.movingDesktop) = true
  /\ joystickActive (win Demo.movingDesktop) = false
  /\ checkInterval Demo.movingDesktop = 30.
Proof.
  split; [reflexivity|]. split; [reflexivity|].
  exact (proj2 (proj2 (culling_interval_follows_joystick_only
                         Demo.euler Demo.frustum Demo.movingDesktop
                         (demo_reachable _ _ (or_introl eq_refl)))) eq_refl).
Defined.

(* ------------------------------------------------------------------ *)
(** ** The timer discipline *)
(* ------------------------------------------------------------------ *)

Lemma timerDiscipline_ext (w w' : World) :
  timers (host w') = timers (host w) ->
  movementTimeoutId (lod w') = movementTimeoutId (lod w) ->
  isDynamicResolutionActive (lod w') = isDynamicResolutionActive (lod w) ->
  now (host w') = now (host w) ->
  timerDiscipline w -> timerDiscipline w'.
Proof.
  unfold timerDiscipline. intros H1 H2 H3 H4. now rewrite H1, H2, H3, H4.
Qed.

(** With nothing pending and no id held, the discipline holds in any mode. *)
Lemma timerDiscipline_idle (w : World) :
  timers (host w) = [] -> movementTimeoutId (lod w) = None -> timerDiscipline w.
Proof. intros H1 H2. left. now split. Qed.

Lemma timerDiscipline_coherent (w : World) :
  timerDiscipline w ->
  forall t, In t (timers (host w)) -> movementTimeoutId (lod w) = Some (timerId t).
Proof.
  intros [[Ht _]|(t & Ht & Hid & _)] u Hu; rewrite Ht in Hu.
  - destruct Hu.
  - destruct Hu as [<-|[]]. exact Hid.
Qed.

(** In Manual mode nothing is pending. *)
Lemma timerDiscipline_manual (w : World) :
  timerDiscipline w -> isDynamicResolutionActive (lod w) = false ->
  timers (host w) = [] /\ movementTimeoutId (lod w) = None.
Proof.
  intros [H|(t & _ & _ & Ha & _)] Hm; [exact H|congruence].
Qed.

Lemma timerDiscipline_no_id (w : World) :
  timerDiscipline w -> movementTimeoutId (lod w) = None -> timers (host w) = [].
Proof.
  intros [[H _]|(t & _ & Hid & _)] Hn; [exact H|congruence].
Qed.

Lemma setPixelRatio_now (r : float) (w : World) :
  now (host (setPixelRatio r w)) = now (host w).
Proof.
  unfold setPixelRatio, updateButtonActiveStates, updatePerformanceIndicator.
  break_matches; reflexivity.
Qed.

Lemma timerDiscipline_setPixelRatio (r : float) (w : World) :
  timerDiscipline w -> timerDiscipline (setPixelRatio r w).
Proof.
  apply timerDiscipline_ext;
    rewrite ?setPixelRatio_lod, ?setPixelRatio_timers, ?setPixelRatio_now; reflexivity.
Qed.

(** Cancelling empties the queue as soon as every pending timer is the one
    whose id is held. *)
Lemma cancelMovementTimer_empties (w : World) :
  (forall t, In t (timers (host w)) -> movementTimeoutId (lod w) = Some (timerId t)) ->
  timers (host (cancelMovementTimer w)) = []
  /\ movementTimeoutId (lod (cancelMovementTimer w)) = None
  /\ now (host (cancelMovementTimer w)) = now (host w)
  /\ storedRatio (cancelMovementTimer w) = storedRatio w.
Proof.
  intros Hq. rewrite cancelMovementTimer_lod. unfold cancelMovementTimer, clearTimeout.
  destruct (movementTimeoutId (lod w)) as [id|] eqn:Hid; simpl.
  - repeat split. apply filter_same_id. intros u Hu. specialize (Hq u Hu). congruence.
  - repeat split. destruct (timers (host w)) as [|t ts]; [reflexivity|].
    specialize (Hq t (or_introl eq_refl)). discriminate.
Qed.

Lemma timerDiscipline_cancelMovementTimer (w : World) :
  (forall t, In t (timers (host w)) -> movementTimeoutId (lod w) = Some (timerId t)) ->
  timerDiscipline (cancelMovementTimer w).
Proof.
  intros Hq. destruct (cancelMovementTimer_empties w Hq) as (H1 & H2 & _).
  now apply timerDiscipline_idle.
Qed.

Lemma timerDiscipline_deactivateDynamicResolution (w : World) :
  timerDiscipline w -> timerDiscipline (deactivateDynamicResolution w).
Proof.
  intros Hd. unfold deactivateDynamicResolution.
  destruct (_ || _ || _); [exact Hd|]. cbv zeta.
  destruct (negb _).
  - revert Hd. now apply timerDiscipline_ext.
  - set (w0 := upd_lod (set_isDynamicResolutionActive false)
                 (upd_lod (fun l => set_drsFrameCounter (drsFrameCounter l + 1) l) w)).
    destruct (cancelMovementTimer_empties w0 (timerDiscipline_coherent w Hd)) as (H1 & H2 & _).
    apply timerDiscipline_idle; [exact H1|].
    change (movementTimeoutId (lod (cancelMovementTimer w0)) = None). exact H2.
Qed.

Lemma timerDiscipline_applyPixelRatioPreset (presetName : string) (w : World) :
  timerDiscipline w -> timerDiscipline (applyPixelRatioPreset presetName w).
Proof.
  intros Hd. unfold applyPixelRatioPreset.
  destruct (PIXEL_RATIO_PRESETS presetName); [|exact Hd].
  apply timerDiscipline_setPixelRatio.
  apply (timerDiscipline_ext (deactivateDynamicResolution w)); try reflexivity.
  now apply timerDiscipline_deactivateDynamicResolution.
Qed.

Lemma removeTimer_empties (w : World) (t : Timer) :
  timerDiscipline w ->
  existsb (isTimer (timerId t)) (timers (host w)) = true ->
  timers (host (removeTimer (timerId t) w)) = [].
Proof.
  intros Hd Hex. apply existsb_exists in Hex. destruct Hex as (u & Hu & Hid).
  unfold isTimer in Hid. apply Pos.eqb_eq in Hid.
  unfold removeTimer. simpl. apply filter_same_id. intros v Hv.
  pose proof (timerDiscipline_coherent w Hd u Hu) as E1.
  pose proof (timerDiscipline_coherent w Hd v Hv) as E2. congruence.
Qed.

Lemma resolutionIncreaseCallback_timer (w : World) :
  timers (host (resolutionIncreaseCallback w)) = timers (host w)
  /\ movementTimeoutId (lod (resolutionIncreaseCallback w)) = None
  /\ now (host (resolutionIncreaseCallback w)) = now (host w)
  /\ isDynamicResolutionActive (lod (resolutionIncreaseCallback w))
     = isDynamicResolutionActive (lod w).
Proof.
  unfold resolutionIncreaseCallback, applyDynamicResolution.
  destruct (isDynamicResolutionActive (lod w)) eqn:Ha.
  - change (timers (host (setPixelRatio (dynamicHighPixelRatio (lod w)) w)) = timers (host w)
            /\ @None positive = None
            /\ now (host (setPixelRatio (dynamicHighPixelRatio (lod w)) w)) = now (host w)
            /\ isDynamicResolutionActive
                 (lod (setPixelRatio (dynamicHighPixelRatio (lod w)) w)) = true).
    now rewrite setPixelRatio_timers, setPixelRatio_now, setPixelRatio_lod.
  - now repeat split.
Qed.

Lemma timerDiscipline_fireTimer (w : World) (t : Timer) :
  timerDiscipline w -> timerDiscipline (fireTimer w t).
Proof.
  intros Hd. unfold fireTimer.
  destruct (existsb _ _) eqn:Hex; [|exact Hd].
  destruct (resolutionIncreaseCallback_timer (removeTimer (timerId t) w)) as (H1 & H2 & _).
  apply timerDiscipline_idle; [|exact H2].
  rewrite H1. now apply removeTimer_empties.
Qed.

Lemma timerDiscipline_elapse (dt : N) (w : World) :
  timerDiscipline w -> timerDiscipline (elapse dt w).
Proof.
  intros Hd. unfold elapse. cbv zeta.
  set (w1 := upd_host _ w).
  assert (Hd1 : timerDiscipline w1).
  { destruct Hd as [H|(t & H1 & H2 & H3 & H4)]; [now left|].
    right. exists t. repeat split; auto. simpl. lia. }
  clearbody w1. generalize (List.filter (isDue (now (host w1))) (timers (host w1))).
  intros ts. revert w1 Hd1.
  induction ts as [|t ts IH]; intros w1 Hd1; simpl; [exact Hd1|].
  apply IH. now apply timerDiscipline_fireTimer.
Qed.

Lemma timerDiscipline_cleanupManualLOD (w : World) :
  timerDiscipline w -> timerDiscipline (cleanupManualLOD w).
Proof.
  intros Hd. unfold cleanupManualLOD. cbv zeta.
  destruct (JS.defined (movementTimeoutId (lod w))) eqn:Hdef.
  - destruct (cancelMovementTimer_empties w (timerDiscipline_coherent w Hd)) as (H1 & H2 & _).
    apply timerDiscipline_idle; [exact H1|exact H2].
  - destruct (movementTimeoutId (lod w)) eqn:Hid; [discriminate|].
    apply timerDiscipline_idle; [exact (timerDiscipline_no_id w Hd Hid)|exact Hid].
Qed.

Section TimerDiscipline.

Variable FromEulerVector : Vector3 -> Quaternion.
Variable isInFrustum : Camera -> BoundingSphere -> bool.

Lemma hasCameraMoved_now (forceCheck : bool) (w : World) :
  now (host (snd (hasCameraMoved FromEulerVector forceCheck w))) = now (host w)
  /\ storedRatio (snd (hasCameraMoved FromEulerVector forceCheck w)) = storedRatio w
  /\ timers (host (snd (hasCameraMoved FromEulerVector forceCheck w))) = timers (host w)
  /\ movementTimeoutId (lod (snd (hasCameraMoved FromEulerVector forceCheck w)))
     = movementTimeoutId (lod w)
  /\ isDynamicResolutionActive (lod (snd (hasCameraMoved FromEulerVector forceCheck w)))
     = isDynamicResolutionActive (lod w)
  /\ dynamicHighPixelRatio (lod (snd (hasCameraMoved FromEulerVector forceCheck w)))
     = dynamicHighPixelRatio (lod w)
  /\ dynamicLowPixelRatio (lod (snd (hasCameraMoved FromEulerVector forceCheck w)))
     = dynamicLowPixelRatio (lod w).
Proof.
  unfold hasCameraMoved, compareWithSnapshot.
  destruct (camera (host w)); [|now repeat split].
  destruct (engineUnavailable w); [now repeat split|].
  destruct (lastCameraPosition (lod w)), (lastCameraRotationQ (lod w)), forceCheck;
    simpl; break_matches; now repeat split.
Qed.

Lemma timerDiscipline_hasCameraMoved (forceCheck : bool) (w : World) :
  timerDiscipline w -> timerDiscipline (snd (hasCameraMoved FromEulerVector forceCheck w)).
Proof.
  destruct (hasCameraMoved_now forceCheck w) as (H1 & _ & H2 & H3 & H4 & _).
  now apply timerDiscipline_ext.
Qed.

Lemma timerDiscipline_activateDynamicResolution (w : World) :
  timerDiscipline w -> timerDiscipline (activateDynamicResolution FromEulerVector w).
Proof.
  intros Hd. unfold activateDynamicResolution, applyDynamicResolution.
  destruct (isDynamicResolutionActive (lod w)) eqn:Ha; [exact Hd|]. cbv zeta.
  destruct (timerDiscipline_manual w Hd Ha) as [Ht Hid].
  set (wa := upd_lod (set_currentPixelRatioPreset None)
                     (upd_lod (set_isDynamicResolutionActive true) w)).
  destruct (hasCameraMoved_now true wa) as (_ & _ & H2 & H3 & _).
  set (w1 := snd (hasCameraMoved FromEulerVector true wa)) in *.
  unfold updateButtonActiveStates.
  destruct (fst (hasCameraMoved FromEulerVector true wa)).
  - apply timerDiscipline_idle.
    + change (timers (host (setPixelRatio
                              (dynamicLowPixelRatio (lod (upd_lod (set_isConsideredMoving true) w1)))
                              (upd_lod (set_isConsideredMoving true) w1))) = []).
      rewrite setPixelRatio_timers. simpl. now rewrite H2.
    + change (movementTimeoutId
                (lod (setPixelRatio
                        (dynamicLowPixelRatio (lod (upd_lod (set_isConsideredMoving true) w1)))
                        (upd_lod (set_isConsideredMoving true) w1))) = None).
      rewrite setPixelRatio_lod. simpl. now rewrite H3.
  - set (w2 := setPixelRatio
                 (dynamicHighPixelRatio (lod (upd_lod (set_isConsideredMoving false) w1)))
                 (upd_lod (set_isConsideredMoving false) w1)).
    assert (Hq : forall t, In t (timers (host w2)) ->
                           movementTimeoutId (lod w2) = Some (timerId t)).
    { unfold w2. rewrite setPixelRatio_timers. simpl. rewrite H2.
      change (timers (host wa)) with (timers (host w)). rewrite Ht. intros t []. }
    destruct (cancelMovementTimer_empties w2 Hq) as (E1 & E2 & _).
    apply timerDiscipline_idle; [exact E1|exact E2].
Qed.

Lemma timerDiscipline_updateDynamicResolutionLogic (w : World) :
  timerDiscipline w -> timerDiscipline (updateDynamicResolutionLogic FromEulerVector w).
Proof.
  intros Hd. unfold updateDynamicResolutionLogic, applyDynamicResolution.
  destruct (negb (isDynamicResolutionActive (lod w)) || _ || _ || _ || _) eqn:Hg.
  - destruct (_ && _); [|exact Hd].
    apply timerDiscipline_cancelMovementTimer. now apply timerDiscipline_coherent.
  - cbv zeta.
    assert (Ha : isDynamicResolutionActive (lod w) = true).
    { destruct (isDynamicResolutionActive (lod w)); [reflexivity|discriminate]. }
    pose proof (timerDiscipline_hasCameraMoved false w Hd) as Hd1.
    destruct (hasCameraMoved_now false w) as (_ & _ & _ & _ & Ha1 & _).
    rewrite Ha in Ha1.
    set (w1 := snd (hasCameraMoved FromEulerVector false w)) in *.
    destruct (fst _).
    + set (w2 := upd_lod (set_isConsideredMoving true) w1).
      assert (Hd2 : timerDiscipline w2) by exact Hd1.
      pose proof (timerDiscipline_setPixelRatio (dynamicLowPixelRatio (lod w2)) w2 Hd2) as Hd3.
      destruct (JS.gt _ _).
      * destruct (JS.defined
                    (movementTimeoutId
                       (lod (setPixelRatio (dynamicLowPixelRatio (lod w2)) w2))));
          [|exact Hd3].
        apply timerDiscipline_cancelMovementTimer. now apply timerDiscipline_coherent.
      * destruct (JS.defined (movementTimeoutId (lod w2))); [|exact Hd2].
        apply timerDiscipline_cancelMovementTimer. now apply timerDiscipline_coherent.
    + destruct (movementTimeoutId (lod w1)) eqn:Hid; simpl; [exact Hd1|].
      right. exists (mkTimer (nextTimerId (host w1)) (now (host w1) + timeUntilResolutionIncrease)).
      simpl. rewrite (timerDiscipline_no_id w1 Hd1 Hid). repeat split; auto. lia.
Qed.

Lemma timerDiscipline_initWithDefaults (w : World) :
  timerDiscipline w -> timerDiscipline (initWithDefaults FromEulerVector w).
Proof.
  intros Hd. unfold initWithDefaults. simpl.
  apply timerDiscipline_activateDynamicResolution.
  destruct (uaMobile (host w)); destruct (JS.defined _);
    try apply timerDiscipline_hasCameraMoved; exact Hd.
Qed.

Lemma timerDiscipline_initManualLOD (w : World) :
  timerDiscipline w -> timerDiscipline (initManualLOD FromEulerVector w).
Proof.
  apply timerDiscipline_ext;
    unfold initManualLOD, addPerformanceIndicator, updatePerformanceIndicator,
      initDynamicResolutionSystem, updateButtonActiveStates;
    break_matches; reflexivity.
Qed.

Lemma timerDiscipline_frustumCullObserver (w : World) :
  timerDiscipline w -> timerDiscipline (frustumCullObserver isInFrustum w).
Proof.
  destruct (frustumCullObserver_step isInFrustum w) as (Hb & _).
  unfold besideCulling in Hb.
  apply timerDiscipline_ext.
  - now apply (f_equal (fun p => snd (fst p))) in Hb.
  - apply (f_equal (fun p => fst (fst (fst (fst (fst (fst (fst (fst p))))))))) in Hb.
    simpl in Hb. now rewrite Hb.
  - apply (f_equal (fun p => fst (fst (fst (fst (fst (fst (fst (fst p))))))))) in Hb.
    simpl in Hb. now rewrite Hb.
  - now apply (f_equal (fun p => snd (fst (fst p)))) in Hb.
Qed.

Lemma timerDiscipline_exec (ev : Event) (w : World) :
  timerDiscipline w -> timerDiscipline (exec FromEulerVector isInFrustum ev w).
Proof.
  intros Hd. destruct ev; unfold exec; try exact Hd.
  - now apply timerDiscipline_initManualLOD.
  - now apply timerDiscipline_initWithDefaults.
  - now apply timerDiscipline_applyPixelRatioPreset.
  - now apply timerDiscipline_activateDynamicResolution.
  - now apply timerDiscipline_updateDynamicResolutionLogic, timerDiscipline_frustumCullObserver.
  - now apply timerDiscipline_elapse.
  - now apply timerDiscipline_cleanupManualLOD.
Qed.

Lemma reachable_run (evs : list Event) (w : World) :
  reachable FromEulerVector isInFrustum w ->
  reachable FromEulerVector isInFrustum (run FromEulerVector isInFrustum evs w).
Proof.
  intros (w0 & evs0 & Hb & ->). exists w0, (evs0 ++ evs). split; [exact Hb|].
  unfold run. now rewrite fold_left_app.
Qed.

End TimerDiscipline.

Lemma reachable_timerDiscipline
      (FromEulerVector : Vector3 -> Quaternion)
      (isInFrustum : Camera -> BoundingSphere -> bool) (w : World) :
  reachable FromEulerVector isInFrustum w -> timerDiscipline w.
Proof.
  intros (w0 & evs & Hb & ->).
  assert (H0 : timerDiscipline w0).
  { destruct Hb as (mobile & lowEnd & width & height & e & cam & mesh & _ & ->).
    now left. }
  clear Hb. revert w0 H0. unfold run.
  induction evs as [|ev evs IH]; intros w0 H0; simpl; [exact H0|].
  apply IH. now apply timerDiscipline_exec.
Qed.

(** X1: in every reachable state at most one timer is pending; a pending
    timer is the one whose id the controller holds, Dynamic mode is on, and
    the timer is due at most 750 ms from now; when none is pending, no id is
    held. *)
Theorem at_most_one_pending_timer
        (FromEulerVector : Vector3 -> Quaternion)
        (isInFrustum : Camera -> BoundingSphere -> bool) (w : World) :
  reachable FromEulerVector isInFrustum w ->
  timerDiscipline w /\ (length (timers (host w)) <= 1)%nat.
Proof.
  intros Hr.
  pose proof (reachable_timerDiscipline FromEulerVector isInFrustum w Hr) as H.
  split; [exact H|].
  destruct H as [[-> _]|(t & -> & _)]; simpl; lia.
Qed.

Lemma at_most_one_pending_timer_witness :
  timers (host Demo.dynamicPending) = [mkTimer 1 750]
  /\ timerDiscipline Demo.dynamicPending.
Proof.
  split; [reflexivity|].
  exact (proj1 (at_most_one_pending_timer Demo.euler Demo.frustum Demo.dynamicPending
                                          (demo_reachable _ _ (or_introl eq_refl)))).
Defined.

(* ------------------------------------------------------------------ *)
(** ** Hysteresis of Dynamic mode *)
(* ------------------------------------------------------------------ *)


Lemma besideCulling_fields (w w' : World) :
  besideCulling w' = besideCulling w ->
  lod w' = lod w /\ win w' = win w /\ engine (host w') = engine (host w)
  /\ scene (host w') = scene (host w) /\ camera (host w') = camera (host w)
  /\ documentHidden (host w') = documentHidden (host w)
  /\ now (host w') = now (host w) /\ timers (host w') = timers (host w)
  /\ nextTimerId (host w') = nextTimerId (host w).
Proof.
  unfold besideCulling. intros H. injection H as H1 H2 H3 H4 H5 H6 H7 H8 H9.
  now repeat split.
Qed.

Section Hysteresis.

Variable FromEulerVector : Vector3 -> Quaternion.
Variable isInFrustum : Camera -> BoundingSphere -> bool.





End Hysteresis.

Section FrameProperties.

Variable FromEulerVector : Vector3 -> Quaternion.
Variable isInFrustum : Camera -> BoundingSphere -> bool.


Lemma manual_step (ev : Event) (w : World) :
  timerDiscipline w -> isDynamicResolutionActive (lod w) = false ->
  passive ev = true ->
  storedRatio (exec FromEulerVector isInFrustum ev w) = storedRatio w
  /\ isDynamicResolutionActive (lod (exec FromEulerVector isInFrustum ev w)) = false
  /\ currentPixelRatioPreset (lod (exec FromEulerVector isInFrustum ev w))
     = currentPixelRatioPreset (lod w)
  /\ timers (host (exec FromEulerVector isInFrustum ev w)) = [].
Proof.
  intros Hd Ha Hp. destruct (timerDiscipline_manual w Hd Ha) as [Ht Hid].
  destruct ev; try discriminate Hp; unfold exec; try (now repeat split).
  - destruct (frustumCullObserver_step isInFrustum w) as (Hb & _).
    destruct (besideCulling_fields _ _ Hb) as (Hl & Hx & _ & _ & _ & _ & _ & Htm & _).
    unfold updateDynamicResolutionLogic. rewrite Hl, Ha, Hid. simpl.
    unfold storedRatio. now rewrite Hl, Hx, Htm, Ha.
  - unfold elapse. simpl. rewrite Ht. simpl. now repeat split.
Qed.

End FrameProperties.

(** X2: in a reachable state in Manual mode, no sequence of frames, elapsed
    time and changes of the camera, the joystick, the tab visibility, the
    engine, the scene or the mesh changes the stored ratio, the recorded
    preset or the mode, and no timer is ever pending. *)
Theorem manual_mode_is_stable
        (FromEulerVector : Vector3 -> Quaternion)
        (isInFrustum : Camera -> BoundingSphere -> bool)
        (evs : list Event) (w : World) :
  reachable FromEulerVector isInFrustum w ->
  isDynamicResolutionActive (lod w) = false ->
  forallb passive evs = true ->
  storedRatio (run FromEulerVector isInFrustum evs w) = storedRatio w
  /\ isDynamicResolutionActive (lod (run FromEulerVector isInFrustum evs w)) = false
  /\ currentPixelRatioPreset (lod (run FromEulerVector isInFrustum evs w))
     = currentPixelRatioPreset (lod w)
  /\ timers (host (run FromEulerVector isInFrustum evs w)) = [].
Proof.
  intros Hr Ha Hp.
  pose proof (reachable_timerDiscipline FromEulerVector isInFrustum w Hr) as Hd.
  clear Hr. revert w Ha Hd. unfold run.
  induction evs as [|ev evs IH]; intros w Ha Hd; simpl.
  - repeat split; auto. now apply timerDiscipline_manual.
  - simpl in Hp. apply andb_prop in Hp. destruct Hp as [Hp1 Hp2].
    destruct (manual_step FromEulerVector isInFrustum ev w Hd Ha Hp1) as (E1 & E2 & E3 & _).
    destruct (IH Hp2 _ E2 (timerDiscipline_exec FromEulerVector isInFrustum ev w Hd))
      as (F1 & F2 & F3 & F4).
    rewrite F1, F3, E1, E3. now repeat split.
Qed.

Lemma manual_mode_is_stable_witness :
  isDynamicResolutionActive (lod (Demo.manualMedium Demo.desktop)) = false
  /\ forallb passive Scenes.idleEvents = true
  /\ storedRatio (Demo.go Scenes.idleEvents (Demo.manualMedium Demo.desktop)) = 0.5%float.
Proof.
  split; [reflexivity|]. split; [reflexivity|].
  exact (proj1 (manual_mode_is_stable Demo.euler Demo.frustum Scenes.idleEvents
                                      (Demo.manualMedium Demo.desktop)
                                      (demo_reachable _ _ (or_introl eq_refl))
                                      eq_refl eq_refl)).
Defined.











(** X7: in every reachable state, [cleanupManualLOD] leaves no timer
    pending and no id held, turns Dynamic mode off, forgets the preset name
    and the camera snapshot, and keeps the stored ratio. *)
Theorem cleanup_cancels_timer_and_resets
        (FromEulerVector : Vector3 -> Quaternion)
        (isInFrustum : Camera -> BoundingSphere -> bool) (w : World) :
  reachable FromEulerVector isInFrustum w ->
  timers (host (cleanupManualLOD w)) = []
  /\ movementTimeoutId (lod (cleanupManualLOD w)) = None
  /\ isDynamicResolutionActive (lod (cleanupManualLOD w)) = false
  /\ currentPixelRatioPreset (lod (cleanupManualLOD w)) = None
  /\ snapshot (cleanupManualLOD w) = (None, None)
  /\ isConsideredMoving (lod (cleanupManualLOD w)) = false
  /\ storedRatio (cleanupManualLOD w) = storedRatio w.
Proof.
  intros Hr.
  pose proof (reachable_timerDiscipline FromEulerVector isInFrustum w Hr) as Hd.
  unfold cleanupManualLOD, snapshot. cbv zeta.
  destruct (JS.defined (movementTimeoutId (lod w))) eqn:Hdef.
  - destruct (cancelMovementTimer_empties w (timerDiscipline_coherent w Hd))
      as (H1 & H2 & _ & H4).
    repeat split; auto.
  - destruct (movementTimeoutId (lod w)) eqn:Hid; [discriminate|].
    repeat split; auto. exact (timerDiscipline_no_id w Hd Hid).
Qed.

Lemma cleanup_cancels_timer_and_resets_witness :
  timers (host Demo.dynamicPending) = [mkTimer 1 750]
  /\ timers (host (cleanupManualLOD Demo.dynamicPending)) = [].
Proof.
  split; [reflexivity|].
  exact (proj1 (cleanup_cancels_timer_and_resets Demo.euler Demo.frustum Demo.dynamicPending
                  (demo_reachable _ _ (or_introl eq_refl)))).
Defined.

(* ------------------------------------------------------------------ *)
(** ** Repeated requests and a camera at rest *)
(* ------------------------------------------------------------------ *)

(** A number minus itself is +0, or NaN when the number is NaN or
    infinite. *)
Lemma sub_self (x : float) : (x - x)%float = 0%float \/ (x - x)%float = nan.
Proof.
  assert (H : Prim2SF (x - x)%float = S754_zero false \/ Prim2SF (x - x)%float = S754_nan).
  { rewrite FloatAxioms.sub_spec. unfold SF64sub.
    destruct (Prim2SF x) as [s|s| |s m e]; simpl.
    - left. now destruct s.
    - right. now destruct s.
    - now right.
    - left. rewrite Z.sub_diag. reflexivity. }
  destruct H as [H|H]; [left|right]; apply Prim2SF_inj; rewrite H; reflexivity.
Qed.

Lemma min_repr : Prim2SF minRatio = S754_finite false 7205759403792794 (-56).
Proof. reflexivity. Qed.
Lemma max_repr : Prim2SF maxRatio = S754_finite false 6755399441055744 (-52).
Proof. reflexivity. Qed.

Lemma leb_finite_left (a c : float) s m e :
  Prim2SF a = S754_finite s m e ->
  PrimFloat.leb a c = true -> Prim2SF c <> S754_infinity true /\ Prim2SF c <> S754_nan.
Proof.
  intros Ha. rewrite FloatAxioms.leb_spec, Ha. unfold SFleb, SFcompare.
  destruct (Prim2SF c) as [s'|s'| |s' m' e']; try (intros _; split; discriminate).
  - destruct s'; [|intros _; split; discriminate]. destruct s; discriminate.
  - discriminate.
Qed.

Lemma leb_finite_right (c b : float) s m e :
  Prim2SF b = S754_finite s m e ->
  PrimFloat.leb c b = true -> Prim2SF c <> S754_infinity false.
Proof.
  intros Hb. rewrite FloatAxioms.leb_spec, Hb. unfold SFleb, SFcompare.
  destruct (Prim2SF c) as [s'|s'| |s' m' e']; try (intros _; discriminate).
  destruct s'; [intros _; discriminate|]. discriminate.
Qed.

Lemma withinBounds_sub_self (c : float) :
  withinBounds c = true -> (c - c)%float = 0%float.
Proof.
  unfold withinBounds, JS.le. intros H. apply andb_prop in H. destruct H as [Hlo Hhi].
  destruct (leb_finite_left _ _ _ _ _ min_repr Hlo) as [Hninf Hnan].
  pose proof (leb_finite_right _ _ _ _ _ max_repr Hhi) as Hpinf.
  apply Prim2SF_inj. rewrite FloatAxioms.sub_spec. unfold SF64sub, SFsub.
  destruct (Prim2SF c) as [s|s| |s m e].
  - now destruct s.
  - destruct s; congruence.
  - congruence.
  - rewrite Z.sub_diag. reflexivity.
Qed.

(** The guard of [setPixelRatio] computes the clamp of the request. *)
Lemma guard_is_clamp (r : float) :
  (if JS.lt r minRatio || JS.gt r maxRatio
   then JS.Math_max minRatio (JS.Math_min maxRatio r) else r)
  = clamp r minRatio maxRatio.
Proof.
  destruct (JS.lt r minRatio) eqn:Hlo, (JS.gt r maxRatio) eqn:Hhi;
    simpl; try reflexivity. symmetry. now apply clamp_in_range.
Qed.

(** X8: a request for the same ratio, when it is not NaN, is applied at
    most once: calling [setPixelRatio] again with it changes nothing, in
    particular it notifies nobody and does not touch the engine. A request
    for NaN is applied again each time. *)
Theorem setPixelRatio_repeated_request (r : float) (w : World) :
  is_nan r = false ->
  setPixelRatio r (setPixelRatio r w) = setPixelRatio r w
  /\ length (effects (host (setPixelRatio nan (setPixelRatio nan Demo.desktop))))
     = (2 * length (effects (host (setPixelRatio nan Demo.desktop))))%nat.
Proof.
  intros Hnan. split; [|reflexivity].
  assert (Hnoop : forall w0,
             JS.lt (JS.Math_abs (storedRatio w0 - clamp r minRatio maxRatio)%float) 0.01%float
             = true -> setPixelRatio r w0 = w0).
  { intros w0 H. unfold setPixelRatio. rewrite guard_is_clamp.
    unfold storedRatio in H. now rewrite H. }
  destruct (JS.lt (JS.Math_abs (storedRatio w - clamp r minRatio maxRatio)%float) 0.01%float)
    eqn:E.
  - rewrite (Hnoop w E). now apply Hnoop.
  - apply Hnoop. rewrite setPixelRatio_stored. unfold storedAfter. rewrite E.
    now rewrite (withinBounds_sub_self _ (clamp_withinBounds r Hnan)).
Qed.

Lemma setPixelRatio_repeated_request_witness :
  effects (host (setPixelRatio 0.75 (setPixelRatio 0.75 Demo.desktop)))
  = effects (host (setPixelRatio 0.75 Demo.desktop)).
Proof.
  exact (f_equal (fun w => effects (host w))
                 (proj1 (setPixelRatio_repeated_request 0.75 Demo.desktop eq_refl))).
Defined.

(** The squared distance of a position to itself never exceeds the
    threshold of the movement detector. *)
Lemma DistanceSquared_self (p : Vector3) :
  JS.gt (DistanceSquared p p) movementDetectionThresholdPosSq = false.
Proof.
  unfold DistanceSquared. cbv zeta.
  destruct (sub_self (vx p)) as [-> | ->], (sub_self (vy p)) as [-> | ->],
    (sub_self (vz p)) as [-> | ->]; reflexivity.
Qed.

(** X9: with the camera and the engine available, a camera that is where
    the snapshot was taken, whose rotation quaternion has a squared norm of
    at least 0.99995, and a joystick that is not deflected, is reported as
    not moving, by a forced check and by a plain one. *)
Theorem camera_at_rest_reports_no_movement
        (FromEulerVector : Vector3 -> Quaternion) (forceCheck : bool)
        (w : World) (cam : Camera) :
  camera (host w) = Some cam -> engineUnavailable w = false ->
  snapshotIsPose FromEulerVector w ->
  JS.lt (JS.Math_abs (Dot (cameraQuaternion FromEulerVector cam)
                          (cameraQuaternion FromEulerVector cam)))
        movementDetectionThresholdRotDot = false ->
  joystickDeflected w = false ->
  fst (hasCameraMoved FromEulerVector forceCheck w) = false.
Proof.
  intros Hcam He Hsnap Hrot Hjoy.
  unfold snapshotIsPose in Hsnap. rewrite Hcam in Hsnap.
  unfold snapshot, poseOf in Hsnap. injection Hsnap as Hp Hq.
  unfold hasCameraMoved, compareWithSnapshot. rewrite Hcam, He, Hp, Hq. cbv zeta.
  assert (Hj : joystickActive (win w) && joystickVisible (win w)
               && (JS.gt (JS.Math_abs match joystickVector (win w) with
                                      | Some v => fst v | None => 0%float end)
                         joystickMovementThreshold
                   || JS.gt (JS.Math_abs match joystickVector (win w) with
                                         | Some v => snd v | None => 0%float end)
                            joystickMovementThreshold) = false).
  { unfold joystickDeflected in Hjoy.
    destruct (joystickVector (win w)); [exact Hjoy|].
    now rewrite andb_false_r. }
  assert (Hq2 : cameraQuaternion FromEulerVector (ensureQuaternion FromEulerVector cam)
                = cameraQuaternion FromEulerVector cam) by reflexivity.
  simpl. rewrite DistanceSquared_self, Hq2, Hrot.
  simpl in Hj. rewrite Hj. now destruct forceCheck.
Qed.

Lemma camera_at_rest_reports_no_movement_witness :
  snapshotIsPose Demo.euler Demo.movingDesktop
  /\ fst (hasCameraMoved Demo.euler false Demo.movingDesktop) = false.
Proof.
  assert (Hs : snapshotIsPose Demo.euler Demo.movingDesktop) by (vm_compute; reflexivity).
  split; [exact Hs|].
  apply (camera_at_rest_reports_no_movement Demo.euler false Demo.movingDesktop
           (mkCamera (mkVector3 1 1.7 (-20)) (mkVector3 0 0 0)
                     (Some (mkQuaternion 0 0 0 1)) false)).
  - vm_compute; reflexivity.
  - vm_compute; reflexivity.
  - exact Hs.
  - vm_compute; reflexivity.
  - vm_compute; reflexivity.
Defined.

(** X10: with the camera and the engine available, a joystick that is
    active, visible and deflected beyond 0.1 on either axis makes a forced
    check report movement, and a plain check too once a snapshot exists;
    the plain check that has to create the snapshot reports no movement,
    joystick or not. *)
Theorem joystick_counts_as_movement
        (FromEulerVector : Vector3 -> Quaternion) (w : World) (cam : Camera) :
  camera (host w) = Some cam -> engineUnavailable w = false ->
  joystickDeflected w = true ->
  fst (hasCameraMoved FromEulerVector true w) = true
  /\ (JS.defined (lastCameraPosition (lod w)) && JS.defined (lastCameraRotationQ (lod w))
      = true -> fst (hasCameraMoved FromEulerVector false w) = true)
  /\ (JS.defined (lastCameraPosition (lod w)) && JS.defined (lastCameraRotationQ (lod w))
      = false -> fst (hasCameraMoved FromEulerVector false w) = false).
Proof.
  intros Hcam He Hjoy.
  unfold hasCameraMoved, compareWithSnapshot. rewrite Hcam, He. cbv zeta.
  assert (Hj : joystickActive (win w) && joystickVisible (win w)
               && (JS.gt (JS.Math_abs match joystickVector (win w) with
                                      | Some v => fst v | None => 0%float end)
                         joystickMovementThreshold
                   || JS.gt (JS.Math_abs match joystickVector (win w) with
                                         | Some v => snd v | None => 0%float end)
                            joystickMovementThreshold) = true).
  { unfold joystickDeflected in Hjoy.
    destruct (joystickVector (win w)); [exact Hjoy|].
    now rewrite andb_false_r in Hjoy. }
  destruct (lastCameraPosition (lod w)), (lastCameraRotationQ (lod w)); simpl;
    simpl in Hj; rewrite ?Hj, ?orb_true_r; repeat split; auto; discriminate.
Qed.

Lemma joystick_counts_as_movement_witness :
  joystickDeflected Scenes.joystickPushed = true
  /\ fst (hasCameraMoved Demo.euler true Scenes.joystickPushed) = true.
Proof.
  split; [reflexivity|].
  exact (proj1 (joystick_counts_as_movement Demo.euler Scenes.joystickPushed
                  (Demo.cameraAt 0) eq_refl eq_refl eq_refl)).
Defined.

(* ------------------------------------------------------------------ *)
(** ** More on the culling observer *)
(* ------------------------------------------------------------------ *)

(** X11: when the cached visibility agrees with the flag of the mesh, a
    frame on which the observer consumes a result leaves both the flag of
    the mesh and the cached value equal to that result. *)
Theorem check_frame_sets_visibility
        (isInFrustum : Camera -> BoundingSphere -> bool)
        (w : World) (mesh : Mesh) (b : bool) :
  currentSplatMesh (host w) = Some mesh ->
  lastVisibilityState (cull w) = isVisible mesh ->
  checkOutcome isInFrustum w = Some b ->
  lastVisibilityState (cull (frustumCullObserver isInFrustum w)) = b
  /\ exists m, currentSplatMesh (host (frustumCullObserver isInFrustum w)) = Some m
               /\ isVisible m = b.
Proof.
  intros Hmesh Hagree Hout.
  destruct (frustumCullObserver_step isInFrustum w) as (_ & _ & Hl).
  rewrite Hout in Hl. split; [exact Hl|]. clear Hl.
  revert Hout. unfold frustumCullObserver, checkOutcome.
  set (w1 := upd_cull _ w). cbv zeta.
  change (frustumCheckCount (cull w1)) with (frustumCheckCount (cull w) + 1).
  change (currentSplatMesh (host w1)) with (currentSplatMesh (host w)).
  change (camera (host w1)) with (camera (host w)).
  destruct (negb _); [discriminate|]. rewrite Hmesh.
  destruct (camera (host w)) as [cam|]; [|discriminate].
  destruct (cameraIsDisposed cam); [discriminate|].
  rewrite <- (lookupBounding_count mesh w (fun z => z + 1)). fold w1.
  destruct (lookupBounding_beside mesh w1) as (_ & _ & Hlast & _).
  destruct (lookupBounding_mesh mesh w1 Hmesh) as (m & Hm & Hv & _).
  change (lastVisibilityState (cull w1)) with (lastVisibilityState (cull w)) in Hlast.
  assert (Hupd : forall v, exists m', currentSplatMesh
                                        (host (updateVisibility v (snd (lookupBounding mesh w1))))
                                      = Some m' /\ isVisible m' = v).
  { intros v.
    destruct (updateVisibility_spec v (snd (lookupBounding mesh w1)) m Hm)
      as (_ & _ & _ & m' & Hm' & Hv').
    exists m'. split; [exact Hm'|]. rewrite Hv', Hlast, Hv, Hagree.
    destruct (Bool.eqb (isVisible mesh) v) eqn:E; [|reflexivity].
    now apply Bool.eqb_prop in E. }
  destruct (fst (lookupBounding mesh w1)) as [sphere|]; intros [= <-].
  - destruct (purgeCache_beside
                (updateVisibility (isInFrustum cam sphere) (snd (lookupBounding mesh w1))))
      as (_ & _ & _ & Pm).
    rewrite Pm. apply Hupd.
  - apply Hupd.
Qed.

Lemma check_frame_sets_visibility_witness :
  checkOutcome Demo.frustum
               (Demo.go (EvJoystick true true None :: EvCamera (Some (Demo.cameraAt 50))
                         :: repeat EvFrame 4) Demo.desktop) = Some false
  /\ lastVisibilityState
       (cull (frustumCullObserver Demo.frustum
                (Demo.go (EvJoystick true true None :: EvCamera (Some (Demo.cameraAt 50))
                          :: repeat EvFrame 4) Demo.desktop))) = false.
Proof.
  split; [vm_compute; reflexivity|].
  apply (check_frame_sets_visibility Demo.frustum _ Demo.splat false);
    vm_compute; reflexivity.
Defined.



Lemma winInputs_setPixelRatio (r : float) (w : World) :
  winInputs (setPixelRatio r w) = winInputs w.
Proof.
  unfold setPixelRatio, updateButtonActiveStates, updatePerformanceIndicator.
  break_matches; reflexivity.
Qed.

Lemma winInputs_cancelMovementTimer (w : World) :
  winInputs (cancelMovementTimer w) = winInputs w.
Proof. unfold cancelMovementTimer, clearTimeout. now destruct (movementTimeoutId (lod w)). Qed.

Section Cadence.

Variable FromEulerVector : Vector3 -> Quaternion.
Variable isInFrustum : Camera -> BoundingSphere -> bool.

Lemma winInputs_hasCameraMoved (forceCheck : bool) (w : World) :
  winInputs (snd (hasCameraMoved FromEulerVector forceCheck w)) = winInputs w.
Proof.
  unfold hasCameraMoved, compareWithSnapshot.
  destruct (camera (host w)); [|reflexivity].
  destruct (engineUnavailable w); [reflexivity|].
  destruct (lastCameraPosition (lod w)), (lastCameraRotationQ (lod w)), forceCheck;
    simpl; break_matches; reflexivity.
Qed.

Lemma winInputs_updateDynamicResolutionLogic (w : World) :
  winInputs (updateDynamicResolutionLogic FromEulerVector w) = winInputs w.
Proof.
  unfold updateDynamicResolutionLogic, applyDynamicResolution.
  destruct (_ || _ || _ || _ || _).
  - destruct (_ && _); [apply winInputs_cancelMovementTimer|reflexivity].
  - cbv zeta. destruct (fst _).
    + destruct (JS.gt _ _).
      * destruct (JS.defined _);
          rewrite ?winInputs_cancelMovementTimer, winInputs_setPixelRatio;
          apply winInputs_hasCameraMoved.
      * destruct (JS.defined _); rewrite ?winInputs_cancelMovementTimer;
          apply winInputs_hasCameraMoved.
    + destruct (negb _); apply winInputs_hasCameraMoved.
Qed.

(** The tier of the observer is fixed when it is set up. *)
Lemma frustumCullObserver_tier (w : World) :
  cullIsMobile (cull (frustumCullObserver isInFrustum w)) = cullIsMobile (cull w)
  /\ cullIsLowEndDevice (cull (frustumCullObserver isInFrustum w))
     = cullIsLowEndDevice (cull w).
Proof.
  unfold frustumCullObserver, purgeCache, updateVisibility, writeIsVisible, lookupBounding.
  cbv zeta. break_matches; now split.
Qed.

Lemma frame_keeps_interval (w : World) :
  checkInterval (exec FromEulerVector isInFrustum EvFrame w) = checkInterval w.
Proof.
  unfold exec.
  pose proof (winInputs_updateDynamicResolutionLogic (frustumCullObserver isInFrustum w)) as Hw.
  pose proof (cullPart_updateDynamicResolutionLogic FromEulerVector
                (frustumCullObserver isInFrustum w)) as Hc.
  apply (f_equal (fun p => fst (fst p))) in Hc. simpl in Hc.
  destruct (frustumCullObserver_step isInFrustum w) as (Hb & _).
  destruct (besideCulling_fields _ _ Hb) as (_ & Hx & _).
  destruct (frustumCullObserver_tier w) as [Hm Hl].
  unfold winInputs in Hw. injection Hw as H1 _ _ H4 _.
  unfold checkInterval. now rewrite Hc, H1, H4, Hx, Hm, Hl.
Qed.

Lemma closed_frame_counts (w : World) :
  gateOpen w = false ->
  frustumCheckCount (cull (exec FromEulerVector isInFrustum EvFrame w))
  = frustumCheckCount (cull w) + 1.
Proof.
  intros Hg. unfold exec.
  pose proof (cullPart_updateDynamicResolutionLogic FromEulerVector
                (frustumCullObserver isInFrustum w)) as Hc.
  apply (f_equal (fun p => fst (fst p))) in Hc. simpl in Hc. rewrite Hc.
  unfold frustumCullObserver. cbv zeta.
  change (frustumCheckCount
            (cull (upd_cull (fun c => set_frustumCheckCount (frustumCheckCount c + 1) c) w)))
    with (frustumCheckCount (cull w) + 1).
  unfold gateOpen in Hg. rewrite Hg. reflexivity.
Qed.

Lemma closed_frames_count (n : nat) (w : World) :
  0 <= frustumCheckCount (cull w) -> 0 < checkInterval w ->
  (forall j, 1 <= j <= Z.of_nat n ->
             (frustumCheckCount (cull w) + j) mod checkInterval w <> 0) ->
  frustumCheckCount (cull (run FromEulerVector isInFrustum (repeat EvFrame n) w))
  = frustumCheckCount (cull w) + Z.of_nat n
  /\ checkInterval (run FromEulerVector isInFrustum (repeat EvFrame n) w) = checkInterval w.
Proof.
  revert w. induction n as [|n IH]; intros w Hc Hk Hj.
  - simpl. split; [lia|reflexivity].
  - change (run FromEulerVector isInFrustum (repeat EvFrame (S n)) w)
      with (run FromEulerVector isInFrustum (repeat EvFrame n)
                (exec FromEulerVector isInFrustum EvFrame w)).
    assert (Hg : gateOpen w = false).
    { unfold gateOpen. apply Z.eqb_neq. rewrite Z.rem_mod_nonneg by lia.
      apply Hj. lia. }
    pose proof (closed_frame_counts w Hg) as Hc1.
    pose proof (frame_keeps_interval w) as Hk1.
    destruct (IH (exec FromEulerVector isInFrustum EvFrame w)) as [E1 E2].
    + rewrite Hc1. lia.
    + now rewrite Hk1.
    + intros j Hjr. rewrite Hc1, Hk1.
      replace (frustumCheckCount (cull w) + 1 + j)
        with (frustumCheckCount (cull w) + (j + 1)) by lia.
      apply Hj. lia.
    + rewrite E1, E2, Hc1, Hk1. split; [lia|reflexivity].
Qed.

End Cadence.

Lemma checkInterval_range (w : World) : 5 <= checkInterval w <= 60.
Proof.
  unfold checkInterval.
  destruct (cullIsLowEndDevice (cull w)), (cullIsMobile (cull w)), (_ || _); lia.
Qed.

(** X13: whatever happens on the frames, the interval gate of the culling
    observer opens within one interval: from a state with a non-negative
    frame counter there is a number [n] of frames, smaller than the current
    interval (which is at most 60), after which the gate is open, and it is
    closed on all the frames before. *)
Theorem culling_gate_opens_within_interval
        (FromEulerVector : Vector3 -> Quaternion)
        (isInFrustum : Camera -> BoundingSphere -> bool) (w : World) :
  0 <= frustumCheckCount (cull w) ->
  exists n : nat,
    Z.of_nat n < checkInterval w <= 60
    /\ gateOpen (run FromEulerVector isInFrustum (repeat EvFrame n) w) = true
    /\ forall m : nat, (m < n)%nat ->
         gateOpen (run FromEulerVector isInFrustum (repeat EvFrame m) w) = false.
Proof.
  intros Hc. pose proof (checkInterval_range w) as Hk.
  set (c := frustumCheckCount (cull w)) in *. set (k := checkInterval w) in *.
  pose proof (Z.mod_pos_bound c k ltac:(lia)) as Hr.
  assert (Hclosed : forall j, 1 <= j <= k - 1 - c mod k -> (c + j) mod k <> 0).
  { intros j Hj. rewrite <- Z.add_mod_idemp_l by lia.
    rewrite Z.mod_small by lia. lia. }
  exists (Z.to_nat (k - 1 - c mod k)). split; [lia|]. split.
  - destruct (closed_frames_count FromEulerVector isInFrustum
                (Z.to_nat (k - 1 - c mod k)) w) as [E1 E2]; try (fold c k; lia).
    { intros j Hj. fold c k. apply Hclosed. lia. }
    unfold gateOpen. rewrite E1, E2. fold c k. apply Z.eqb_eq.
    rewrite Z.rem_mod_nonneg by lia.
    rewrite Z2Nat.id by lia.
    replace (c + (k - 1 - c mod k) + 1) with (c + (k - c mod k)) by lia.
    rewrite <- Z.add_mod_idemp_l by lia.
    replace (c mod k + (k - c mod k)) with k by lia. apply Z_mod_same_full.
  - intros m Hm.
    destruct (closed_frames_count FromEulerVector isInFrustum m w) as [E1 E2];
      try (fold c k; lia).
    { intros j Hj. fold c k. apply Hclosed. lia. }
    unfold gateOpen. rewrite E1, E2. fold c k. apply Z.eqb_neq.
    rewrite Z.rem_mod_nonneg by lia.
    replace (c + Z.of_nat m + 1) with (c + (Z.of_nat m + 1)) by lia.
    apply Hclosed. lia.
Qed.

Lemma culling_gate_opens_within_interval_witness :
  exists n : nat,
    Z.of_nat n < checkInterval Demo.desktop <= 60
    /\ gateOpen (Demo.go (repeat EvFrame n) Demo.desktop) = true
    /\ forall m : nat, (m < n)%nat ->
         gateOpen (Demo.go (repeat EvFrame m) Demo.desktop) = false.
Proof.
  apply (culling_gate_opens_within_interval Demo.euler Demo.frustum Demo.desktop).
  vm_compute. discriminate.
Defined.

(* ------------------------------------------------------------------ *)
(** ** The listener registry *)
(* ------------------------------------------------------------------ *)

Section EventManagerFacts.

Local Open Scope nat_scope.
Import EM.

Lemma own_assign_eq c l ls : own c (assign c l ls) = Some l.
Proof.
induction ls as [|[c' old] rest IH]; simpl.
- now rewrite String.eqb_refl.
- destruct (String.eqb c' c) eqn:E; simpl; now rewrite E.
Qed.

Lemma own_assign_ne c c' l ls : c <> c' -> own c' (assign c l ls) = own c' ls.
Proof.
intros Hne. induction ls as [|[k old] rest IH]; simpl.
- destruct (String.eqb c c') eqn:E; [apply String.eqb_eq in E; congruence|reflexivity].
- destruct (String.eqb k c) eqn:E; simpl.
  + apply String.eqb_eq in E. subst k.
    destruct (String.eqb c c') eqn:E'; [apply String.eqb_eq in E'; congruence|reflexivity].
  + now rewrite IH.
Qed.

Lemma own_None_keys c ls : own c ls = None <-> ~ In c (map fst ls).
Proof.
induction ls as [|[k old] rest IH]; simpl.
- tauto.
- destruct (String.eqb k c) eqn:E.
  + apply String.eqb_eq in E. split; [discriminate|tauto].
  + apply String.eqb_neq in E. rewrite IH. tauto.
Qed.

Lemma keys_assign_present c l ls :
  own c ls <> None -> map fst (assign c l ls) = map fst ls.
Proof.
induction ls as [|[k old] rest IH]; simpl; [congruence|].
destruct (String.eqb k c) eqn:E; simpl; [reflexivity|].
intros H. now rewrite IH.
Qed.

Lemma keys_assign_absent c l ls :
  own c ls = None -> assign c l ls = ls ++ [(c, l)].
Proof.
induction ls as [|[k old] rest IH]; simpl; [reflexivity|].
destruct (String.eqb k c) eqn:E; [discriminate|].
intros H. now rewrite IH.
Qed.


Lemma assign_assign c x y ls : assign c x (assign c y ls) = assign c x ls.
Proof.
induction ls as [|[k old] rest IH]; simpl.
- now rewrite String.eqb_refl.
- destruct (String.eqb k c) eqn:E; simpl; rewrite E; [reflexivity|now rewrite IH].
Qed.

Lemma assign_split c old l ls :
  own c ls = Some old ->
  exists pre post,
    ls = pre ++ (c, old) :: post /\ assign c l ls = pre ++ (c, l) :: post
    /\ own c pre = None.
Proof.
induction ls as [|[k o] rest IH]; simpl; [discriminate|].
destruct (String.eqb k c) eqn:E.
- intros [= ->]. apply String.eqb_eq in E. subst k.
  now exists [], rest.
- intros H. destruct (IH H) as (pre & post & -> & -> & Hn).
  exists ((k, o) :: pre), post. simpl. now rewrite E.
Qed.

Lemma slot_tracked c m l : own c (listeners m) = Some l -> slot c m = Tracked l.
Proof. unfold slot. now intros ->. Qed.

Lemma slot_undefined c m :
  own c (listeners m) = None -> inherited c = false -> slot c m = Undefined.
Proof. unfold slot. now intros -> ->. Qed.

Lemma slot_inherited c m :
  own c (listeners m) = None -> inherited c = true -> slot c m = Inherited.
Proof. unfold slot. now intros -> ->. Qed.


Lemma addListener_spec c e type f opts m :
  type <> ""%string ->
  (own c (listeners m) = None -> inherited c = false) ->
  addListener c (Some e) type (Some f) opts m
  = Returned (Ref (mkListener (fresh m) e type f opts))
      (mkManager
         (assign c (under c m ++ [mkListener (fresh m) e type f opts]) (listeners m))
         (S (fresh m)) (calls m ++ [AddEventListener e type f opts])).
Proof.
intros Ht Hc. unfold addListener, under.
destruct (String.eqb type "") eqn:E; [apply String.eqb_eq in E; congruence|].
destruct (own c (listeners m)) as [old|] eqn:Eo.
- rewrite (slot_tracked c m old Eo).
  cbv zeta. unfold slot, domCall, set_listeners. cbn [listeners fresh calls].
  now rewrite Eo.
- rewrite (slot_undefined c m Eo (Hc eq_refl)).
  cbv zeta. unfold slot, domCall, set_listeners. cbn [listeners fresh calls].
  rewrite own_assign_eq. now rewrite assign_assign.
Qed.

Lemma addListener_inherited c e type f opts m :
  type <> ""%string ->
  own c (listeners m) = None -> inherited c = true ->
  addListener c (Some e) type (Some f) opts m
  = Threw (mkManager (listeners m) (S (fresh m))
                     (calls m ++ [AddEventListener e type f opts])).
Proof.
intros Ht Ho Hi. unfold addListener.
destruct (String.eqb type "") eqn:E; [apply String.eqb_eq in E; congruence|].
rewrite (slot_inherited c m Ho Hi).
cbv zeta. unfold slot, domCall, set_listeners. cbn [listeners fresh calls].
now rewrite Ho, Hi.
Qed.


Lemma tracked_push c l ls :
  Permutation
    (concat (map snd (assign c (match own c ls with Some o => o | None => [] end ++ [l]) ls)))
    (l :: concat (map snd ls)).
Proof.
induction ls as [|[k o] rest IH]; simpl.
- reflexivity.
- destruct (String.eqb k c) eqn:E; simpl.
  + rewrite <- app_assoc. simpl. symmetry. apply Permutation_middle.
  + etransitivity; [apply Permutation_app_head, IH|].
    symmetry. apply Permutation_middle.
Qed.

Lemma keys_push c x ls :
  map fst (assign c x ls)
  = match own c ls with Some _ => map fst ls | None => map fst ls ++ [c] end.
Proof.
destruct (own c ls) eqn:E.
- apply keys_assign_present. congruence.
- rewrite (keys_assign_absent _ _ _ E), map_app. reflexivity.
Qed.

Lemma tracked_assign_sublist c ls :
  concat (map snd (assign c [] ls)) `sublist_of` concat (map snd ls).
Proof.
induction ls as [|[k o] rest IH]; simpl.
- constructor.
- destruct (String.eqb k c); simpl.
  + apply sublist_inserts_l. reflexivity.
  + apply sublist_app; [reflexivity|exact IH].
Qed.

Lemma spliceOut_sublist l xs : spliceOut l xs `sublist_of` xs.
Proof.
induction xs as [|x rest IH]; simpl; [constructor|].
destruct (Nat.eqb (ident x) (ident l)).
- apply sublist_cons. reflexivity.
- apply sublist_skip. exact IH.
Qed.

Lemma tracked_splice_sublist l ls :
  concat (map snd (map (fun entry : string * list Listener =>
                          (fst entry, spliceOut l (snd entry))) ls))
  `sublist_of` concat (map snd ls).
Proof.
induction ls as [|[k o] rest IH]; simpl; [constructor|].
apply sublist_app; [apply spliceOut_sublist|exact IH].
Qed.

Lemma shrink_NoDup (T' T : list Listener) :
  T' `sublist_of` T -> NoDup (map ident T) -> NoDup (map ident T').
Proof.
intros Hs Hn. eapply sublist_NoDup; [exact Hn|].
change (ident <$> T' `sublist_of` ident <$> T). now apply fmap_sublist.
Qed.

Lemma shrink_Forall (P : Listener -> Prop) (T' T : list Listener) :
  T' `sublist_of` T -> Forall P T -> Forall P T'.
Proof.
intros Hs. rewrite !Forall_forall. intros H x Hx.
apply H. exact (elem_of_sublist _ _ _ Hx Hs).
Qed.

Lemma wellFormed_initial : wellFormed initial.
Proof.
unfold wellFormed, tracked. simpl. repeat split.
- apply (bool_decide_unpack _). vm_compute. exact I.
- repeat constructor.
- constructor.
- constructor.
Qed.


Lemma wellFormed_push c e type f opts m :
  wellFormed m ->
  (own c (listeners m) = None -> inherited c = false) ->
  wellFormed
    (mkManager
       (assign c (under c m ++ [mkListener (fresh m) e type f opts]) (listeners m))
       (S (fresh m)) (calls m ++ [AddEventListener e type f opts])).
Proof.
intros (Hk & Hi & Hn & Hf) Hc. unfold wellFormed, tracked, under in *.
cbn [listeners fresh calls].
rewrite keys_push.
assert (Hp := tracked_push c (mkListener (fresh m) e type f opts) (listeners m)).
split; [|split; [|split]].
- destruct (own c (listeners m)) eqn:E; [exact Hk|].
  apply NoDup_app. split; [exact Hk|]. split; [|apply NoDup_singleton].
  intros x Hx Hx'. apply list_elem_of_singleton in Hx'. subst x.
  apply own_None_keys in E. apply E. now apply list_elem_of_In.
- destruct (own c (listeners m)) eqn:E; [exact Hi|].
  apply Forall_app. split; [exact Hi|]. constructor; [now apply Hc|constructor].
- change (NoDup (ident <$> concat (map snd (assign c
            (match own c (listeners m) with Some o => o | None => [] end
             ++ [mkListener (fresh m) e type f opts]) (listeners m))))).
  rewrite Hp. rewrite fmap_cons. apply NoDup_cons. split; [|exact Hn].
  cbn [ident]. intros Hx. apply list_elem_of_fmap in Hx. destruct Hx as (y & Hy & Hin).
  rewrite Forall_forall in Hf. specialize (Hf y Hin). lia.
- rewrite Hp. constructor; [cbn [ident]; lia|].
  eapply Forall_impl; [exact Hf|]. intros x Hx. simpl in Hx. lia.
Qed.

Lemma wellFormed_fresh m n cs :
  wellFormed m -> fresh m <= n -> wellFormed (mkManager (listeners m) n cs).
Proof.
intros (Hk & Hi & Hn & Hf) Hle. unfold wellFormed, tracked in *.
cbn [listeners fresh calls]. repeat split; try assumption.
eapply Forall_impl; [exact Hf|]. intros x Hx. simpl in Hx. lia.
Qed.

Lemma wellFormed_addListener c el type h opts m :
  wellFormed m -> wellFormed (state (addListener c el type h opts m)).
Proof.
intros Hw. destruct el as [e|], h as [f|]; try exact Hw.
destruct (String.eqb type "") eqn:E.
- unfold addListener. rewrite E. exact Hw.
- apply String.eqb_neq in E.
  destruct (own c (listeners m)) as [old|] eqn:Eo.
  + rewrite addListener_spec by (congruence || assumption).
    apply wellFormed_push; [exact Hw|congruence].
  + destruct (inherited c) eqn:Ei.
    * rewrite addListener_inherited by assumption.
      apply wellFormed_fresh; [exact Hw|simpl; lia].
    * rewrite addListener_spec by (congruence || assumption).
      apply wellFormed_push; [exact Hw|congruence].
Qed.

Lemma wellFormed_shrink ls m cs :
  wellFormed m ->
  map fst ls = map fst (listeners m) ->
  concat (map snd ls) `sublist_of` tracked m ->
  wellFormed (mkManager ls (fresh m) cs).
Proof.
intros (Hk & Hi & Hn & Hf) Hkeys Hs. unfold wellFormed, tracked in *.
cbn [listeners fresh calls]. rewrite Hkeys.
repeat split; try assumption.
- exact (shrink_NoDup _ _ Hs Hn).
- exact (shrink_Forall _ _ _ Hs Hf).
Qed.

Lemma keys_splice l ls :
  map fst (map (fun entry : string * list Listener =>
                  (fst entry, spliceOut l (snd entry))) ls) = map fst ls.
Proof. rewrite map_map. reflexivity. Qed.

Lemma wellFormed_removeListener r m :
  wellFormed m -> wellFormed (state (removeListener r m)).
Proof.
intros Hw. destruct r as [| |l]; try exact Hw.
unfold removeListener, state, domCall, set_listeners. cbn [listeners fresh calls].
apply wellFormed_shrink; [exact Hw|apply keys_splice|apply tracked_splice_sublist].
Qed.

Lemma removeCategory_spec c l m :
  own c (listeners m) = Some l ->
  removeCategory c m
  = Returned tt (mkManager (assign c [] (listeners m)) (fresh m)
                           (calls m ++ map unregister l)).
Proof. intros H. unfold removeCategory. now rewrite (slot_tracked c m l H). Qed.

Lemma removeCategory_absent c m :
  own c (listeners m) = None -> inherited c = false ->
  removeCategory c m = Returned tt m.
Proof. intros H Hi. unfold removeCategory. now rewrite (slot_undefined c m H Hi). Qed.

Lemma removeCategory_inherited c m :
  own c (listeners m) = None -> inherited c = true ->
  removeCategory c m = Threw m.
Proof. intros H Hi. unfold removeCategory. now rewrite (slot_inherited c m H Hi). Qed.

Lemma wellFormed_removeCategory c m :
  wellFormed m -> wellFormed (state (removeCategory c m)).
Proof.
intros Hw. destruct (own c (listeners m)) as [l|] eqn:E.
- rewrite (removeCategory_spec c l m E). unfold state.
  apply wellFormed_shrink; [exact Hw| |apply tracked_assign_sublist].
  apply keys_assign_present. congruence.
- destruct (inherited c) eqn:Ei.
  + now rewrite removeCategory_inherited.
  + now rewrite removeCategory_absent.
Qed.


Lemma own_In k o ls : NoDup (map fst ls) -> In (k, o) ls -> own k ls = Some o.
Proof.
induction ls as [|[k' o'] rest IH]; simpl; [tauto|].
intros Hn [H|H].
- injection H as -> ->. now rewrite String.eqb_refl.
- apply NoDup_cons in Hn. destruct Hn as [Hk Hn].
  destruct (String.eqb k' k) eqn:E.
  + apply String.eqb_eq in E. subst k'. exfalso. apply Hk.
    apply list_elem_of_In. change k with (fst (k, o)). now apply in_map.
  + now apply IH.
Qed.

Lemma own_keys ls :
  NoDup (map fst ls) ->
  map (fun k => match own k ls with Some l => l | None => [] end) (map fst ls)
  = map snd ls.
Proof.
intros Hn. rewrite map_map. apply map_ext_in. intros [k o] Hin.
cbn [fst snd]. now rewrite (own_In k o ls Hn Hin).
Qed.

Lemma forEach_removeCategory ks : forall m,
  NoDup ks ->
  (forall k, In k ks -> own k (listeners m) <> None) ->
  exists m',
    forEach removeCategory ks m = Returned tt m'
    /\ fresh m' = fresh m
    /\ map fst (listeners m') = map fst (listeners m)
    /\ (forall k, In k ks -> own k (listeners m') = Some [])
    /\ (forall k, ~ In k ks -> own k (listeners m') = own k (listeners m))
    /\ calls m' = calls m ++ concat (map (fun k => map unregister (under k m)) ks).
Proof.
induction ks as [|k ks IH]; intros m Hn Hown.
- exists m. simpl. rewrite app_nil_r. tauto.
- apply NoDup_cons in Hn. destruct Hn as [Hk Hn].
  destruct (own k (listeners m)) as [l|] eqn:E;
    [|exfalso; apply (Hown k); [now left|exact E]].
  set (m1 := mkManager (assign k [] (listeners m)) (fresh m)
                       (calls m ++ map unregister l)).
  assert (Hne : forall k', In k' ks -> k <> k').
  { intros k' Hin ->. apply Hk. now apply list_elem_of_In. }
  destruct (IH m1 Hn) as (m' & Hr & Hf & Hkeys & Hin & Hout & Hc).
  { intros k' Hk'. subst m1. cbn [listeners].
    rewrite own_assign_ne by now apply Hne. apply Hown. now right. }
  exists m'. split; [|split; [|split; [|split; [|split]]]].
  + cbn [forEach]. unfold andThen. rewrite (removeCategory_spec k l m E). exact Hr.
  + exact Hf.
  + rewrite Hkeys. subst m1. cbn [listeners]. apply keys_assign_present. congruence.
  + intros k' [<-|Hk'].
    * rewrite Hout by (intros Hx; apply Hk; now apply list_elem_of_In).
      subst m1. cbn [listeners]. apply own_assign_eq.
    * now apply Hin.
  + intros k' Hk'. rewrite Hout by (intros Hx; apply Hk'; now right).
    subst m1. cbn [listeners]. apply own_assign_ne. intros ->. apply Hk'. now left.
  + rewrite Hc. subst m1. cbn [calls map concat]. rewrite <- app_assoc.
    f_equal. unfold under at 2. rewrite E. f_equal. f_equal.
    apply map_ext_in. intros k' Hk'. unfold under. cbn [listeners].
    now rewrite own_assign_ne by now apply Hne.
Qed.

Lemma removeAll_spec m :
  wellFormed m ->
  exists m',
    removeAll m = Returned tt m'
    /\ fresh m' = fresh m
    /\ map fst (listeners m') = map fst (listeners m)
    /\ Forall (fun entry => snd entry = []) (listeners m')
    /\ calls m' = calls m ++ map unregister (tracked m).
Proof.
intros (Hk & Hi & Hn & Hf).
destruct (forEach_removeCategory (map fst (listeners m)) m Hk)
  as (m' & Hr & Hfr & Hkeys & Hin & Hout & Hc).
{ intros k Hin Ho. apply own_None_keys in Ho. now apply Ho. }
exists m'. split; [exact Hr|]. split; [exact Hfr|]. split; [exact Hkeys|]. split.
- apply List.Forall_forall. intros [k o] Hko. cbn [snd].
  assert (Ho : own k (listeners m') = Some o).
  { apply own_In; [now rewrite Hkeys|exact Hko]. }
  rewrite Hin in Ho; [congruence|].
  rewrite <- Hkeys. change k with (fst (k, o)). now apply in_map.
- rewrite Hc. f_equal. unfold tracked. rewrite concat_map. f_equal.
  rewrite <- (own_keys (listeners m) Hk). rewrite !map_map. reflexivity.
Qed.


Lemma spliceOut_absent l xs :
  Forall (fun x => ident x <> ident l) xs -> spliceOut l xs = xs.
Proof.
induction 1 as [|x rest Hx _ IH]; simpl; [reflexivity|].
apply Nat.eqb_neq in Hx. now rewrite Hx, IH.
Qed.

Lemma spliceOut_last l xs :
  Forall (fun x => ident x <> ident l) xs -> spliceOut l (xs ++ [l]) = xs.
Proof.
induction 1 as [|x rest Hx _ IH]; simpl.
- now rewrite Nat.eqb_refl.
- apply Nat.eqb_neq in Hx. now rewrite Hx, IH.
Qed.

Lemma splice_absent l ls :
  Forall (fun x => ident x <> ident l) (concat (map snd ls)) ->
  map (fun entry : string * list Listener => (fst entry, spliceOut l (snd entry))) ls
  = ls.
Proof.
induction ls as [|[k o] rest IH]; simpl; [reflexivity|].
intros H. apply Forall_app in H. destruct H as [Ho Hr].
now rewrite spliceOut_absent, IH.
Qed.

Lemma splice_push c l ls :
  Forall (fun x => ident x <> ident l) (concat (map snd ls)) ->
  map (fun entry : string * list Listener => (fst entry, spliceOut l (snd entry)))
      (assign c (match own c ls with Some o => o | None => [] end ++ [l]) ls)
  = assign c (match own c ls with Some o => o | None => [] end) ls.
Proof.
induction ls as [|[k o] rest IH]; simpl.
- now rewrite Nat.eqb_refl.
- intros H. apply Forall_app in H. destruct H as [Ho Hr].
  destruct (String.eqb k c) eqn:E; simpl.
  + now rewrite spliceOut_last, splice_absent.
  + now rewrite spliceOut_absent, IH.
Qed.

Lemma assign_same c o ls : own c ls = Some o -> assign c o ls = ls.
Proof.
induction ls as [|[k o'] rest IH]; simpl; [discriminate|].
destruct (String.eqb k c) eqn:E.
- now intros [= ->].
- intros H. now rewrite IH.
Qed.

Lemma count_assign c o ls :
  match own c (assign c o ls) with Some l => length l | None => 0 end = length o.
Proof. now rewrite own_assign_eq. Qed.


Lemma spliceOut_filter l xs :
  NoDup (map ident xs) -> spliceOut l xs = List.filter (other l) xs.
Proof.
induction xs as [|x rest IH]; simpl; [reflexivity|].
intros Hn. apply NoDup_cons in Hn. destruct Hn as [Hx Hn]. unfold other at 1.
destruct (Nat.eqb (ident x) (ident l)) eqn:E; simpl.
- apply Nat.eqb_eq in E. rewrite <- IH by exact Hn. symmetry.
  apply spliceOut_absent.
  apply List.Forall_forall. intros y Hy Hid. apply Hx. rewrite E, <- Hid.
  apply list_elem_of_In. now apply in_map.
- now rewrite IH.
Qed.

Lemma splice_filter l ls :
  NoDup (map ident (concat (map snd ls))) ->
  map (fun entry : string * list Listener => (fst entry, spliceOut l (snd entry))) ls
  = map (fun entry => (fst entry, List.filter (other l) (snd entry))) ls.
Proof.
induction ls as [|[k o] rest IH]; simpl; [reflexivity|].
rewrite map_app. intros H. apply NoDup_app in H. destruct H as (Ho & _ & Hr).
now rewrite spliceOut_filter, IH.
Qed.

Lemma own_map (g : list Listener -> list Listener) c ls :
  own c (map (fun entry => (fst entry, g (snd entry))) ls) = option_map g (own c ls).
Proof.
induction ls as [|[k o] rest IH]; simpl; [reflexivity|].
destruct (String.eqb k c); [reflexivity|exact IH].
Qed.

Lemma tracked_filter p (ls : list (string * list Listener)) :
  concat (map snd (map (fun entry => (fst entry, List.filter p (snd entry))) ls))
  = List.filter p (concat (map snd ls)).
Proof.
induction ls as [|[k o] rest IH]; simpl; [reflexivity|].
now rewrite IH, List.filter_app.
Qed.

Lemma filter_other_length l T :
  NoDup (map ident T) -> In l T ->
  length T = S (length (List.filter (other l) T)).
Proof.
induction T as [|x rest IH]; simpl; [tauto|].
intros Hn Hin. apply NoDup_cons in Hn. destruct Hn as [Hx Hn]. unfold other at 1.
destruct (Nat.eqb (ident x) (ident l)) eqn:E; simpl.
- f_equal. apply Nat.eqb_eq in E.
  rewrite <- (spliceOut_filter l rest Hn), spliceOut_absent; [reflexivity|].
  apply List.Forall_forall. intros y Hy Hid. apply Hx. rewrite E, <- Hid.
  apply list_elem_of_In. now apply in_map.
- f_equal. apply IH; [exact Hn|]. destruct Hin as [->|Hin]; [|exact Hin].
  now rewrite Nat.eqb_refl in E.
Qed.


Lemma wellFormed_sample : wellFormed sample.
Proof. unfold sample. repeat apply wellFormed_addListener. apply wellFormed_initial. Qed.

End EventManagerFacts.

(** X14: [addListener] with an element, a non-empty event type and a
    handler, under a category that is not a property name of
    [Object.prototype], returns a new listener object holding its arguments,
    appends it to that category (creating the category when it is new),
    leaves every other category as it was, and makes exactly one
    [addEventListener] call with the same arguments. *)
Theorem addListener_tracks_listener c e type f opts m :
  type <> ""%string -> EM.inherited c = false ->
  exists l m',
    EM.addListener c (Some e) type (Some f) opts m = EM.Returned (EM.Ref l) m'
    /\ l = EM.mkListener (EM.fresh m) e type f opts
    /\ EM.own c (EM.listeners m') = Some (EM.under c m ++ [l])
    /\ EM.count c m' = S (EM.count c m)
    /\ (forall c', c' <> c ->
          EM.own c' (EM.listeners m') = EM.own c' (EM.listeners m))
    /\ EM.calls m' = EM.calls m ++ [EM.AddEventListener e type f opts].
Proof.
intros Ht Hi. eexists. eexists.
split; [apply addListener_spec; [exact Ht|now intros _]|].
split; [reflexivity|]. cbn [EM.listeners EM.calls]. split; [apply own_assign_eq|].
split; [|split; [|reflexivity]].
- unfold EM.count, EM.under at 1. cbn [EM.listeners].
  rewrite own_assign_eq, length_app. simpl. lia.
- intros c' Hc. apply own_assign_ne. congruence.
Qed.

Lemma addListener_tracks_listener_witness :
  "click"%string <> ""%string /\ EM.inherited "ui" = false
  /\ exists l m',
       EM.addListener "ui" (Some 5%nat) "click" (Some 7%nat) (EM.OptBool false) EM.sample
       = EM.Returned (EM.Ref l) m'
       /\ EM.count "ui" m' = 3%nat.
Proof.
split; [discriminate|]. split; [reflexivity|].
destruct (addListener_tracks_listener "ui" 5%nat "click" 7%nat (EM.OptBool false) EM.sample)
  as (l & m' & H1 & _ & _ & H4 & _); [discriminate|reflexivity|].
exists l, m'. split; [exact H1|exact H4].
Defined.

(** X15: under a category named like a property of [Object.prototype]
    (such as "constructor"), [addListener] attaches the DOM listener and then
    throws without tracking it; [removeCategory] of that name throws too, and
    [removeAll] afterwards detaches only what was tracked before. *)
Theorem inherited_category_is_not_tracked c e type f opts m :
  EM.wellFormed m -> type <> ""%string -> EM.inherited c = true ->
  exists m',
    EM.addListener c (Some e) type (Some f) opts m = EM.Threw m'
    /\ EM.listeners m' = EM.listeners m
    /\ EM.calls m' = EM.calls m ++ [EM.AddEventListener e type f opts]
    /\ EM.removeCategory c m' = EM.Threw m'
    /\ exists m'',
         EM.removeAll m' = EM.Returned tt m''
         /\ EM.calls m''
            = EM.calls m ++ [EM.AddEventListener e type f opts]
              ++ map EM.unregister (EM.tracked m).
Proof.
intros Hw Ht Hi.
assert (Ho : EM.own c (EM.listeners m) = None).
{ apply own_None_keys. intros Hin. destruct Hw as (_ & Hk & _).
  rewrite List.Forall_forall in Hk. specialize (Hk c Hin). congruence. }
eexists. split; [now apply addListener_inherited|].
cbn [EM.listeners EM.calls]. split; [reflexivity|]. split; [reflexivity|].
split; [now apply removeCategory_inherited|].
destruct (removeAll_spec
            (EM.mkManager (EM.listeners m) (S (EM.fresh m))
                          (EM.calls m ++ [EM.AddEventListener e type f opts])))
  as (m'' & Hr & _ & _ & _ & Hc).
{ apply wellFormed_fresh; [exact Hw|lia]. }
exists m''. split; [exact Hr|]. rewrite Hc. cbn [EM.calls].
now rewrite <- app_assoc.
Qed.

Lemma inherited_category_is_not_tracked_witness :
  EM.wellFormed EM.sample /\ "click"%string <> ""%string
  /\ EM.inherited "constructor" = true
  /\ exists m',
       EM.addListener "constructor" (Some 5%nat) "click" (Some 7%nat)
                      (EM.OptBool false) EM.sample = EM.Threw m'
       /\ EM.listeners m' = EM.listeners EM.sample.
Proof.
split; [exact wellFormed_sample|]. split; [discriminate|]. split; [reflexivity|].
destruct (inherited_category_is_not_tracked "constructor" 5%nat "click" 7%nat
            (EM.OptBool false) EM.sample wellFormed_sample)
  as (m' & H1 & H2 & _); [discriminate|reflexivity|].
exists m'. split; [exact H1|exact H2].
Defined.

(** X16: on a well-formed registry [removeAll] returns, makes one
    [removeEventListener] call for each tracked listener, in the order of
    the categories and with the arguments the listener was added with, and
    leaves every category present with a count of zero. *)
Theorem removeAll_empties_registry m :
  EM.wellFormed m ->
  exists m',
    EM.removeAll m = EM.Returned tt m'
    /\ map fst (EM.getCounts m') = map fst (EM.getCounts m)
    /\ Forall (fun entry => snd entry = 0%nat) (EM.getCounts m')
    /\ EM.tracked m' = []
    /\ EM.calls m' = EM.calls m ++ map EM.unregister (EM.tracked m).
Proof.
intros Hw. destruct (removeAll_spec m Hw) as (m' & Hr & _ & Hk & He & Hc).
exists m'. split; [exact Hr|]. unfold EM.getCounts, EM.tracked.
split; [|split; [|split; [|exact Hc]]].
- rewrite !map_map. cbn [fst]. exact Hk.
- apply List.Forall_map. eapply Forall_impl; [exact He|].
  intros [k o] H. cbn [snd] in *. now subst o.
- clear Hr Hk Hc. induction He as [|[k o] rest H _ IH]; [reflexivity|].
  cbn [map snd concat] in *. subst o. exact IH.
Qed.

Lemma removeAll_empties_registry_witness :
  EM.wellFormed EM.sample
  /\ exists m', EM.removeAll EM.sample = EM.Returned tt m' /\ EM.tracked m' = [].
Proof.
split; [exact wellFormed_sample|].
destruct (removeAll_empties_registry EM.sample wellFormed_sample)
  as (m' & H1 & _ & _ & H4 & _).
exists m'. split; [exact H1|exact H4].
Defined.

(** X17: on a well-formed registry, adding a listener and handing the
    returned reference to [removeListener] restores the registry: the
    tracked listeners of every category are as before (a category that was
    new stays, empty), and the DOM saw one [addEventListener] and one
    [removeEventListener] call with the same arguments. *)
Theorem add_then_remove_restores c e type f opts m :
  EM.wellFormed m -> type <> ""%string -> EM.inherited c = false ->
  exists m',
    EM.andThen (EM.addListener c (Some e) type (Some f) opts) EM.removeListener m
    = EM.Returned tt m'
    /\ (forall c', EM.under c' m' = EM.under c' m)
    /\ (EM.own c (EM.listeners m) <> None -> EM.listeners m' = EM.listeners m)
    /\ (EM.own c (EM.listeners m) = None ->
        EM.listeners m' = EM.listeners m ++ [(c, [])])
    /\ EM.calls m'
       = EM.calls m ++ [EM.AddEventListener e type f opts;
                        EM.RemoveEventListener e type f opts].
Proof.
intros Hw Ht Hi. unfold EM.andThen.
rewrite addListener_spec by (assumption || now intros _).
unfold EM.removeListener, EM.domCall, EM.set_listeners, EM.unregister.
cbn [EM.listeners EM.fresh EM.calls EM.element EM.eventType EM.handler EM.options].
eexists. split; [reflexivity|]. cbn [EM.listeners EM.calls].
assert (Hs : map (fun entry : string * list EM.Listener =>
                    (fst entry,
                     EM.spliceOut (EM.mkListener (EM.fresh m) e type f opts) (snd entry)))
                 (EM.assign c (EM.under c m ++ [EM.mkListener (EM.fresh m) e type f opts])
                            (EM.listeners m))
             = EM.assign c (EM.under c m) (EM.listeners m)).
{ apply splice_push. destruct Hw as (_ & _ & _ & Hf).
  eapply Forall_impl; [exact Hf|]. intros x Hx. cbn [EM.ident]. simpl in Hx. lia. }
rewrite Hs. split; [|split; [|split]].
- intros c'. unfold EM.under. cbn [EM.listeners].
  destruct (String.eqb c c') eqn:E.
  + apply String.eqb_eq in E. subst c'. now rewrite own_assign_eq.
  + apply String.eqb_neq in E. now rewrite own_assign_ne.
- intros Ho. unfold EM.under.
  destruct (EM.own c (EM.listeners m)) as [o|] eqn:E; [|congruence].
  now apply assign_same.
- intros Ho. unfold EM.under. rewrite Ho. now apply keys_assign_absent.
- now rewrite <- app_assoc.
Qed.

Lemma add_then_remove_restores_witness :
  EM.wellFormed EM.sample /\ "click"%string <> ""%string /\ EM.inherited "ui" = false
  /\ exists m',
       EM.andThen (EM.addListener "ui" (Some 5%nat) "click" (Some 7%nat) (EM.OptBool false))
                  EM.removeListener EM.sample = EM.Returned tt m'
       /\ EM.listeners m' = EM.listeners EM.sample.
Proof.
split; [exact wellFormed_sample|]. split; [discriminate|]. split; [reflexivity|].
destruct (add_then_remove_restores "ui" 5%nat "click" 7%nat (EM.OptBool false)
            EM.sample wellFormed_sample)
  as (m' & H1 & _ & H3 & _); [discriminate|reflexivity|].
exists m'. split; [exact H1|]. apply H3. discriminate.
Defined.

(** X18: on a well-formed registry, [removeListener] of a tracked listener
    makes one [removeEventListener] call with the listener's arguments and
    drops exactly that object: every category keeps its other listeners in
    order, and the number of tracked listeners goes down by one. *)
Theorem removeListener_drops_exactly_it l m :
  EM.wellFormed m -> In l (EM.tracked m) ->
  exists m',
    EM.removeListener (EM.Ref l) m = EM.Returned tt m'
    /\ (forall c, EM.under c m' = List.filter (EM.other l) (EM.under c m))
    /\ EM.tracked m' = List.filter (EM.other l) (EM.tracked m)
    /\ length (EM.tracked m) = S (length (EM.tracked m'))
    /\ ~ In l (EM.tracked m')
    /\ EM.calls m' = EM.calls m ++ [EM.unregister l].
Proof.
intros (Hk & Hi & Hn & Hf) Hin.
unfold EM.removeListener, EM.domCall, EM.set_listeners.
cbn [EM.listeners EM.fresh EM.calls].
eexists. split; [reflexivity|]. unfold EM.tracked, EM.under in *.
cbn [EM.listeners EM.calls]. rewrite (splice_filter l _ Hn).
assert (Ht := tracked_filter (EM.other l) (EM.listeners m)).
split; [|split; [exact Ht|split; [|split; [|reflexivity]]]].
- intros c. rewrite own_map. now destruct (EM.own c (EM.listeners m)).
- rewrite Ht. now apply filter_other_length.
- rewrite Ht. intros Hx. apply List.filter_In in Hx. destruct Hx as [_ Hx].
  unfold EM.other in Hx. now rewrite Nat.eqb_refl in Hx.
Qed.

Lemma removeListener_drops_exactly_it_witness :
  EM.wellFormed EM.sample
  /\ In (EM.mkListener 1 2 "click" 10 (EM.OptBool false)) (EM.tracked EM.sample)
  /\ exists m',
       EM.removeListener (EM.Ref (EM.mkListener 1 2 "click" 10 (EM.OptBool false)))
                         EM.sample = EM.Returned tt m'
       /\ length (EM.tracked EM.sample) = S (length (EM.tracked m')).
Proof.
split; [exact wellFormed_sample|]. split; [right; left; reflexivity|].
destruct (removeListener_drops_exactly_it
            (EM.mkListener 1 2 "click" 10 (EM.OptBool false)) EM.sample wellFormed_sample)
  as (m' & H1 & _ & _ & H4 & _); [right; left; reflexivity|].
exists m'. split; [exact H1|exact H4].
Defined.

Section SetupFacts.

Local Open Scope nat_scope.
Import EM.
Local Open Scope em_scope.

Lemma reset_add {B} c e type f opts (k : Manager -> Result B) m :
  inherited c = false -> type <> ""%string ->
  (removeCategory c ;; addListener c (Some e) type (Some f) opts ;; k) m
  = k (mkManager (assign c [mkListener (fresh m) e type f opts] (listeners m))
                 (S (fresh m))
                 (calls m ++ map unregister (under c m)
                          ++ [AddEventListener e type f opts])).
Proof.
intros Hi Ht. unfold andThen, under.
destruct (own c (listeners m)) as [l|] eqn:E.
- rewrite (removeCategory_spec c l m E).
  rewrite addListener_spec by (assumption || now intros _).
  unfold under. cbn [listeners fresh calls].
  now rewrite own_assign_eq, assign_assign, <- app_assoc.
- rewrite (removeCategory_absent c m E Hi).
  rewrite addListener_spec by (assumption || now intros _).
  unfold under. rewrite E. reflexivity.
Qed.

Lemma add_under {B} c o e type f opts (k : Manager -> Result B) m :
  own c (listeners m) = Some o -> type <> ""%string ->
  (addListener c (Some e) type (Some f) opts ;; k) m
  = k (mkManager (assign c (o ++ [mkListener (fresh m) e type f opts]) (listeners m))
                 (S (fresh m)) (calls m ++ [AddEventListener e type f opts])).
Proof.
intros Ho Ht. unfold andThen.
rewrite addListener_spec by (assumption || congruence).
unfold under. now rewrite Ho.
Qed.

Lemma forEach_cons {A} (f : A -> Manager -> Result unit) x l m m1 :
  f x m = Returned tt m1 -> forEach f (x :: l) m = forEach f l m1.
Proof. intros H. cbn [forEach]. unfold andThen. now rewrite H. Qed.

Lemma forEach_reset_add doc h (cat : string -> string) evs : forall m,
  (forall ev, In ev evs -> inherited (cat ev) = false /\ ev <> ""%string) ->
  NoDup (map cat evs) ->
  exists m',
    forEach (fun ev => removeCategory (cat ev) ;;
                       addListener (cat ev) (Some doc) ev (Some h) (OptBool false) ;;
                       Returned tt) evs m
    = Returned tt m'
    /\ (forall ev, In ev evs ->
          exists i, own (cat ev) (listeners m')
                    = Some [mkListener i doc ev h (OptBool false)])
    /\ (forall c, ~ In c (map cat evs) -> own c (listeners m') = own c (listeners m)).
Proof.
induction evs as [|ev evs IH]; intros m Hok Hn.
- exists m. simpl. split; [reflexivity|]. split; [tauto|reflexivity].
- cbn [map] in Hn. apply NoDup_cons in Hn. destruct Hn as [Hev Hn].
  destruct (Hok ev (or_introl eq_refl)) as [Hi Ht].
  set (m1 := mkManager
               (assign (cat ev) [mkListener (fresh m) doc ev h (OptBool false)] (listeners m))
               (S (fresh m))
               (calls m ++ map unregister (under (cat ev) m)
                        ++ [AddEventListener doc ev h (OptBool false)])).
  destruct (IH m1) as (m' & Hr & Hin & Hout); [|exact Hn|].
  { intros ev' Hev'. apply Hok. now right. }
  exists m'. split; [|split].
  + rewrite (forEach_cons _ ev evs m m1); [exact Hr|].
    exact (reset_add (cat ev) doc ev h (OptBool false) (Returned tt) m Hi Ht).
  + intros ev' [<-|Hev'].
    * exists (fresh m). rewrite Hout.
      -- subst m1. cbn [listeners]. apply own_assign_eq.
      -- intros Hx. apply Hev. now apply list_elem_of_In.
    * now apply Hin.
  + intros c Hc. rewrite Hout.
    * subst m1. cbn [listeners]. apply own_assign_ne. intros Hx. apply Hc. now left.
    * intros Hx. apply Hc. now right.
Qed.

End SetupFacts.

(** X19: [setupFullscreenChangeListener] can be run any number of times:
    whatever the registry held before, afterwards each of the four
    fullscreen categories tracks exactly one listener, on the document, for
    its event and with the handler of this run; other categories are as
    before. *)
Theorem fullscreen_setup_is_idempotent doc h m :
  exists m',
    EM.setupFullscreenChangeListener doc h m = EM.Returned tt m'
    /\ (forall ev, In ev EM.fullscreenEvents ->
          exists i, EM.own (EM.fullscreenCategory ev) (EM.listeners m')
                    = Some [EM.mkListener i doc ev h (EM.OptBool false)])
    /\ (forall c, ~ In c (map EM.fullscreenCategory EM.fullscreenEvents) ->
          EM.own c (EM.listeners m') = EM.own c (EM.listeners m)).
Proof.
apply forEach_reset_add.
- intros ev Hev. simpl in Hev.
  repeat (destruct Hev as [<-|Hev]; [split; [reflexivity|discriminate]|]).
  destruct Hev.
- apply (bool_decide_unpack _). vm_compute. exact I.
Qed.

(** X20: [setupJoystickEvents] does nothing without the joystick base;
    with it, whatever the joystick category held before is detached and
    replaced by exactly the seven listeners of the function, in its order,
    and no other category changes. *)
Theorem joystick_setup_registers_seven base doc hs m :
  EM.setupJoystickEvents None doc hs m = EM.Returned tt m
  /\ exists m',
       EM.setupJoystickEvents (Some base) doc hs m = EM.Returned tt m'
       /\ EM.own "joystick" (EM.listeners m')
          = Some [EM.mkListener (EM.fresh m) base "mousedown"
                    (EM.startJoystick hs) (EM.OptBool false);
                  EM.mkListener (1 + EM.fresh m) doc "mousemove"
                    (EM.moveJoystick hs) (EM.OptBool false);
                  EM.mkListener (2 + EM.fresh m) doc "mouseup"
                    (EM.endJoystick hs) (EM.OptBool false);
                  EM.mkListener (3 + EM.fresh m) base "touchstart"
                    (EM.handleTouchStart hs) (EM.OptObject false);
                  EM.mkListener (4 + EM.fresh m) doc "touchmove"
                    (EM.handleTouchMove hs) (EM.OptObject false);
                  EM.mkListener (5 + EM.fresh m) doc "touchend"
                    (EM.handleTouchEnd hs) (EM.OptObject true);
                  EM.mkListener (6 + EM.fresh m) doc "touchcancel"
                    (EM.handleTouchEnd hs) (EM.OptObject true)]
       /\ (forall c, c <> "joystick"%string ->
             EM.own c (EM.listeners m') = EM.own c (EM.listeners m))
       /\ exists added,
            EM.calls m'
            = EM.calls m ++ map EM.unregister (EM.under "joystick" m) ++ added
            /\ length added = 7%nat.
Proof.
split; [reflexivity|]. unfold EM.setupJoystickEvents.
rewrite reset_add by (reflexivity || discriminate).
repeat (erewrite add_under;
        [|cbn [EM.listeners]; apply own_assign_eq|discriminate];
        cbn [EM.listeners EM.fresh EM.calls]; rewrite assign_assign).
eexists. split; [reflexivity|]. cbn [EM.listeners EM.calls app].
split; [apply own_assign_eq|]. split.
- intros c Hc. apply own_assign_ne. congruence.
- eexists. rewrite <- !app_assoc. split; [reflexivity|reflexivity].
Qed.

Lemma wellFormed_removeAll m :
  EM.wellFormed m -> EM.wellFormed (EM.state (EM.removeAll m)).
Proof.
intros Hw. destruct (removeAll_spec m Hw) as (m' & Hr & Hf & Hk & He & _).
rewrite Hr. cbn [EM.state]. destruct Hw as (Hkeys & Hi & _ & _).
assert (Ht : EM.tracked m' = []).
{ unfold EM.tracked. clear Hr Hf Hk.
  induction He as [|[k o] rest H _ IH]; [reflexivity|].
  cbn [map snd concat] in *. subst o. exact IH. }
unfold EM.wellFormed. rewrite Hk, Ht. repeat split; try assumption; constructor.
Qed.

Lemma reachable_sample : EMRun.reachable EM.sample.
Proof. unfold EM.sample. repeat apply EMRun.reach_addListener. apply EMRun.reach_initial. Qed.

(** X21: every registry the methods produce from the initial one, whatever
    they are called with and whether or not a call throws, is well formed:
    no category is named like a property of [Object.prototype], no listener
    object is tracked twice, and every tracked object was made by the
    manager. *)
Theorem registry_stays_well_formed m :
  EMRun.reachable m -> EM.wellFormed m.
Proof.
induction 1.
- apply wellFormed_initial.
- now apply wellFormed_addListener.
- now apply wellFormed_removeListener.
- now apply wellFormed_removeCategory.
- now apply wellFormed_removeAll.
Qed.

Lemma registry_stays_well_formed_witness :
  EMRun.reachable EM.sample /\ EM.wellFormed EM.sample.
Proof.
split; [exact reachable_sample|].
exact (registry_stays_well_formed EM.sample reachable_sample).
Defined.

(* ------------------------------------------------------------------ *)
(** ** The joystick *)
(* ------------------------------------------------------------------ *)

Section JoystickInvariant.

Import Joy.

Lemma coherent_loaded m : joystickCoherent (loaded m).
Proof.
unfold joystickCoherent, joystickAtRest, oneFrame, idle, loaded. cbn.
repeat split; intros; discriminate.
Qed.

Lemma coherent_resetJoystick s :
  oneFrame s -> (idle s = true -> rafId s = None) ->
  joystickCoherent (resetJoystick s).
Proof.
destruct s. unfold joystickCoherent, joystickAtRest, oneFrame, idle, resetJoystick.
cbn. intros [H1 H2] H3.
destruct joystickHandle0; cbn in *; repeat split; intros; auto; discriminate.
Qed.

Lemma oneFrame_cancelPendingFrame s :
  oneFrame s ->
  rafId (cancelPendingFrame s) = None /\ frames (cancelPendingFrame s) = []
  /\ joystickHandle (cancelPendingFrame s) = joystickHandle s
  /\ joystickActive (cancelPendingFrame s) = joystickActive s
  /\ joystickVisible (cancelPendingFrame s) = joystickVisible s
  /\ joystickVector (cancelPendingFrame s) = joystickVector s
  /\ handleTransform (cancelPendingFrame s) = handleTransform s.
Proof.
destruct s. unfold oneFrame, cancelPendingFrame, cancelAnimationFrame. cbn.
intros [H1 H2]. destruct rafId0 as [id|]; cbn; [|tauto].
destruct H2 as [->|(nx & ny & ->)]; cbn; [tauto|].
rewrite Pos.eqb_refl. cbn. tauto.
Qed.


Lemma idle_false s :
  idle s = false <-> joystickActive s = true /\ joystickVisible s = true.
Proof. unfold idle. destruct (joystickActive s), (joystickVisible s); cbn; intuition discriminate. Qed.

Lemma coherent_busy s : oneFrame s -> idle s = false -> joystickCoherent s.
Proof. intros H Hi. split; [congruence|exact H]. Qed.

Lemma moveJoystickTouch_spec x y now s :
  oneFrame s ->
  oneFrame (moveJoystickTouch x y now s)
  /\ joystickActive (moveJoystickTouch x y now s) = joystickActive s
  /\ joystickVisible (moveJoystickTouch x y now s) = joystickVisible s.
Proof.
intros [H1 H2]. unfold moveJoystickTouch.
destruct (JS.gt (movementThrottle s) 0 && _); [now repeat split|].
cbn [joystickHandle joystickBaseRect set_lastMoveTime].
destruct (joystickHandle s); [|now repeat split].
destruct (joystickBaseRect s) as [rect|]; [|now repeat split].
cbv zeta.
cbn [movementThreshold lastPositionX lastPositionY baseRadius set_lastMoveTime].
destruct (JS.gt (movementThreshold s) 0 && _); [now repeat split|].
cbn [updateScheduled set_joystickVector set_lastPositionY set_lastPositionX
     set_lastMoveTime maxHandleDistance].
destruct (updateScheduled s) eqn:Eu.
- unfold oneFrame. cbn. rewrite Eu. now repeat split.
- unfold oneFrame, requestAnimationFrame. cbn.
  destruct (rafId s); [discriminate|]. rewrite H2. cbn.
  repeat split. right. eauto.
Qed.

Lemma coherent_moveJoystickTouch x y now s :
  oneFrame s -> idle s = false -> joystickCoherent (moveJoystickTouch x y now s).
Proof.
intros H Hi. destruct (moveJoystickTouch_spec x y now s H) as (Ho & Ha & Hv).
apply coherent_busy; [exact Ho|].
apply idle_false. rewrite Ha, Hv. now apply idle_false.
Qed.

Lemma coherent_moveJoystick x y now s :
  joystickCoherent s -> joystickCoherent (moveJoystick x y now s).
Proof.
intros H. unfold moveJoystick. fold (idle s).
destruct (idle s) eqn:E; [exact H|].
apply coherent_moveJoystickTouch; [apply H|exact E].
Qed.

Lemma oneFrame_ext s s' :
  updateScheduled s' = updateScheduled s -> rafId s' = rafId s ->
  frames s' = frames s -> oneFrame s -> oneFrame s'.
Proof. unfold oneFrame. now intros -> -> ->. Qed.

Lemma coherent_startJoystick page x y now s :
  joystickCoherent s -> joystickCoherent (startJoystick page x y now s).
Proof.
intros H. unfold startJoystick.
destruct (joystickVisible s) eqn:Ev; cbn [negb]; [|exact H].
destruct (joystickBaseElement page) as [[base rect]|]; [|exact H].
cbv zeta. unfold moveJoystick. cbn. rewrite Ev. cbn.
apply coherent_moveJoystickTouch.
- eapply oneFrame_ext; [| | |apply H]; reflexivity.
- apply idle_false. cbn. now split.
Qed.

Lemma coherent_handleTouchStart touches now s :
  joystickCoherent s -> joystickCoherent (handleTouchStart touches now s).
Proof.
intros H. unfold handleTouchStart. destruct touches as [|[x y] rest]; [exact H|].
destruct (joystickVisible s) eqn:Ev; cbn [negb]; [|exact H].
apply coherent_moveJoystickTouch.
- eapply oneFrame_ext; [| | |apply H]; reflexivity.
- apply idle_false. cbn. now split.
Qed.

Lemma coherent_handleTouchMove touches now s :
  joystickCoherent s -> joystickCoherent (handleTouchMove touches now s).
Proof.
intros H. unfold handleTouchMove. destruct touches as [|[x y] rest]; [exact H|].
fold (idle s). destruct (idle s) eqn:E; [exact H|].
apply coherent_moveJoystickTouch; [apply H|exact E].
Qed.

Lemma coherent_updateJoystickDimensions page s :
  joystickCoherent s -> joystickCoherent (updateJoystickDimensions page s).
Proof.
intros H. unfold updateJoystickDimensions.
destruct (joystickBaseElement page) as [[base rect]|]; [|exact H].
destruct (joystickHandle s); [|exact H].
apply coherent_resetJoystick.
- eapply oneFrame_ext; [| | |apply H]; reflexivity.
- intros Hi. now apply H.
Qed.

Lemma cancelPendingFrame_eq s :
  oneFrame s -> cancelPendingFrame s = set_frames [] (set_rafId None s).
Proof.
destruct s. unfold oneFrame, cancelPendingFrame, cancelAnimationFrame. cbn.
intros [H1 H2]. destruct rafId0 as [id|]; cbn.
- destruct H2 as [->|(nx & ny & ->)]; cbn; [reflexivity|].
  now rewrite Pos.eqb_refl.
- now subst.
Qed.

Lemma oneFrame_cleared s : oneFrame (set_updateScheduled false (set_frames [] (set_rafId None s))).
Proof. now split. Qed.

Lemma oneFrame_resetJoystick s : oneFrame s -> oneFrame (resetJoystick s).
Proof.
apply oneFrame_ext; unfold resetJoystick; cbn; now destruct (joystickHandle s).
Qed.

Lemma coherent_endJoystick s : joystickCoherent s -> joystickCoherent (endJoystick s).
Proof.
intros H. unfold endJoystick.
destruct (joystickActive s) eqn:Ea; cbn [negb]; [|exact H].
cbv zeta. rewrite cancelPendingFrame_eq
  by (apply oneFrame_resetJoystick; eapply oneFrame_ext; [| | |apply H]; reflexivity).
split; [|now split].
intros _. unfold joystickAtRest, resetJoystick. cbn.
destruct (joystickHandle s) eqn:Eh; cbn; rewrite ?Eh; repeat split; auto; discriminate.
Qed.

Lemma coherent_cleanupJoystick s :
  joystickCoherent s -> joystickCoherent (cleanupJoystick s).
Proof.
intros H. unfold cleanupJoystick. cbv zeta.
rewrite cancelPendingFrame_eq by apply H.
split; [|now split].
intros _. unfold joystickAtRest. cbn. repeat split; auto; discriminate.
Qed.

Lemma coherent_animationFrame s :
  joystickCoherent s -> joystickCoherent (animationFrame s).
Proof.
intros Hc. destruct (Hc) as [H1 [H2 H3]]. unfold animationFrame.
destruct (frames s) as [|[id [nx ny]] rest] eqn:Ef; [exact Hc|]. clear Hc.
destruct (rafId s) as [r|] eqn:Er; [|discriminate].
destruct H3 as [H3|(nx' & ny' & H3)]; [discriminate|]. injection H3 as -> -> -> ->.
assert (Hi : idle s = false).
{ destruct (idle s); [|reflexivity]. destruct (H1 eq_refl) as (_ & Hr & _). congruence. }
apply idle_false in Hi. destruct Hi as [Ha Hv].
unfold joystickCoherent, joystickAtRest, oneFrame, idle. cbn.
destruct (joystickHandle s); cbn; rewrite ?Ha, ?Hv, ?Er, ?H2; cbn;
  repeat split; auto; discriminate.
Qed.

Lemma coherent_toggleJoystick page s :
  joystickCoherent s -> joystickCoherent (toggleJoystick page s).
Proof.
intros H. unfold toggleJoystick.
destruct (joystickContainer page); [|exact H].
cbv zeta. cbn [joystickVisible set_joystickVisible set_containerDisplay].
destruct (joystickVisible s) eqn:Ev; cbn [negb].
- rewrite cancelPendingFrame_eq
    by (eapply oneFrame_ext; [| | |apply H]; reflexivity).
  apply coherent_resetJoystick; [now split|reflexivity].
- destruct H as [H1 H2]. split.
  + intros Hi. unfold joystickAtRest. cbn. apply H1.
    unfold idle. rewrite Ev. cbn. now rewrite orb_true_r.
  + eapply oneFrame_ext; [| | |exact H2]; reflexivity.
Qed.

Lemma coherent_ext s s' :
  joystickActive s' = joystickActive s -> joystickVisible s' = joystickVisible s ->
  joystickVector s' = joystickVector s -> joystickHandle s' = joystickHandle s ->
  handleTransform s' = handleTransform s ->
  updateScheduled s' = updateScheduled s -> rafId s' = rafId s ->
  frames s' = frames s ->
  joystickCoherent s -> joystickCoherent s'.
Proof.
unfold joystickCoherent, joystickAtRest, oneFrame, idle.
now intros -> -> -> -> -> -> -> ->.
Qed.

Lemma coherent_set_registry m s :
  joystickCoherent s -> joystickCoherent (set_registry m s).
Proof. apply coherent_ext; reflexivity. Qed.

Lemma coherent_init_tail page base rect m s :
  joystickBaseElement page = Some (base, rect) ->
  joystickHandle s = true -> oneFrame s -> (idle s = true -> rafId s = None) ->
  joystickCoherent (set_registry m (updateJoystickDimensions page s)).
Proof.
intros Eb Hh Ho Hi. unfold updateJoystickDimensions. rewrite Eb, Hh.
apply coherent_set_registry.
apply coherent_resetJoystick.
- eapply oneFrame_ext; [| | |exact Ho]; reflexivity.
- exact Hi.
Qed.

Lemma coherent_initJoystick page hs h s :
  joystickCoherent s -> joystickCoherent (initJoystick page hs h s).
Proof.
intros H. unfold initJoystick.
destruct (joystickContainer page); [|exact H].
destruct (joystickBaseElement page) as [[base rect]|] eqn:Eb; [|exact H].
cbv zeta. cbn [joystickHandle set_joystickHandle].
destruct (joystickHandleElement page); cbn [negb].
- assert (Hidle : idle s = true -> rafId s = None) by (intros Hi; now apply H).
  assert (Hshown : joystickActive s = false -> rafId s = None).
  { intros Ha. apply Hidle. unfold idle. now rewrite Ha. }
  destruct H as [_ Ho].
  destruct (uaMobile h); cbn [andb AUTO_SHOW_ON_MOBILE];
    [destruct (uaLowEndModel h || _)|];
    (eapply coherent_init_tail;
     [exact Eb
     |reflexivity
     |eapply oneFrame_ext; [| | |exact Ho]; reflexivity
     |unfold idle; cbn; rewrite ?orb_false_r; intros Hi;
      first [apply Hshown; now destruct (joystickActive s)|now apply Hidle]]).
- destruct H as [H1 H2]. split.
  + intros Hi. destruct (H1 Hi) as (Hv & Hr & _).
    unfold joystickAtRest. cbn. repeat split; auto; discriminate.
  + eapply oneFrame_ext; [| | |exact H2]; reflexivity.
Qed.

Lemma coherent_exec c s : joystickCoherent s -> joystickCoherent (exec c s).
Proof.
destruct c; cbn [exec].
- apply coherent_initJoystick.
- apply coherent_toggleJoystick.
- apply coherent_updateJoystickDimensions.
- apply coherent_startJoystick.
- apply coherent_moveJoystick.
- apply coherent_endJoystick.
- apply coherent_handleTouchStart.
- apply coherent_handleTouchMove.
- apply coherent_endJoystick.
- apply coherent_animationFrame.
- apply coherent_cleanupJoystick.
Qed.

Lemma coherent_run cs : forall s, joystickCoherent s -> joystickCoherent (run cs s).
Proof.
induction cs as [|c cs IH]; intros s H; [exact H|].
apply IH. now apply coherent_exec.
Qed.

Lemma reachable_coherent s : reachable s -> joystickCoherent s.
Proof. intros (m & cs & ->). apply coherent_run, coherent_loaded. Qed.

End JoystickInvariant.

(** X22: in every state the joystick file can reach, a joystick that is
    released or hidden is at rest: its vector is zero, no animation frame is
    waiting to move the handle, and the handle the file holds is centred. *)
Theorem idle_joystick_is_at_rest s :
  Joy.reachable s -> Joy.idle s = true ->
  Joy.joystickVector s = (0%float, 0%float)
  /\ Joy.rafId s = None /\ Joy.frames s = []
  /\ (Joy.joystickHandle s = true -> Joy.handleTransform s = Joy.Centred).
Proof.
intros Hr Hi. destruct (reachable_coherent s Hr) as [H1 [_ H3]].
destruct (H1 Hi) as (Hv & Hn & Hh). rewrite Hn in H3. tauto.
Qed.

Lemma idle_joystick_is_at_rest_witness :
  Joy.reachable Joy.released /\ Joy.idle Joy.released = true
  /\ Joy.joystickVector Joy.released = (0%float, 0%float).
Proof.
assert (Hr : Joy.reachable Joy.released).
{ exists EM.initial, (Joy.drag ++ [Joy.HandleTouchEnd]). reflexivity. }
assert (Hi : Joy.idle Joy.released = true) by (vm_compute; reflexivity).
split; [exact Hr|]. split; [exact Hi|].
exact (proj1 (idle_joystick_is_at_rest Joy.released Hr Hi)).
Defined.

(** X23: in every state the joystick file can reach, at most one animation
    frame is pending, it is the one [rafId] names, and [updateScheduled] is
    set exactly when [rafId] is. *)
Theorem one_animation_frame_pending s :
  Joy.reachable s ->
  (length (Joy.frames s) <= 1)%nat
  /\ (forall f, In f (Joy.frames s) -> Joy.rafId s = Some (fst f))
  /\ Joy.updateScheduled s = JS.defined (Joy.rafId s).
Proof.
intros Hr. destruct (reachable_coherent s Hr) as [_ [H2 H3]].
split; [|split; [|exact H2]].
- destruct (Joy.rafId s); [destruct H3 as [->|(nx & ny & ->)]|rewrite H3]; simpl; lia.
- intros f Hf. destruct (Joy.rafId s) as [id|].
  + destruct H3 as [H3|(nx & ny & H3)]; rewrite H3 in Hf; [destruct Hf|].
    destruct Hf as [<-|[]]. reflexivity.
  + rewrite H3 in Hf. destruct Hf.
Qed.

Lemma one_animation_frame_pending_witness :
  Joy.reachable Joy.dragging
  /\ Joy.updateScheduled Joy.dragging = JS.defined (Joy.rafId Joy.dragging).
Proof.
assert (Hr : Joy.reachable Joy.dragging).
{ exists EM.initial, Joy.drag. reflexivity. }
split; [exact Hr|].
exact (proj2 (proj2 (one_animation_frame_pending Joy.dragging Hr))).
Defined.

(* ------------------------------------------------------------------ *)
(** ** The panels *)
(* ------------------------------------------------------------------ *)

Section PanelFacts.

Local Open Scope nat_scope.
Import UI.

Lemma existsb_without_same c l : existsb (String.eqb c) (without c l) = false.
Proof.
induction l as [|x l IH]; [reflexivity|]. unfold without in *. simpl.
destruct (String.eqb c x) eqn:E; simpl; [exact IH|]. now rewrite E.
Qed.

Lemma existsb_without_other c c' l :
  c <> c' -> existsb (String.eqb c') (without c l) = existsb (String.eqb c') l.
Proof.
intros Hne. induction l as [|x l IH]; [reflexivity|]. unfold without in *. simpl.
destruct (String.eqb c x) eqn:E; simpl.
- apply String.eqb_eq in E. subst x.
  destruct (String.eqb c' c) eqn:E'; [apply String.eqb_eq in E'; congruence|exact IH].
- now rewrite IH.
Qed.

Lemma without_absent c l : existsb (String.eqb c) l = false -> without c l = l.
Proof.
induction l as [|x l IH]; [reflexivity|]. unfold without in *. simpl.
destruct (String.eqb c x); simpl; [discriminate|]. intros H. now rewrite IH.
Qed.

Lemma without_added c l : existsb (String.eqb c) l = false -> without c (l ++ [c]) = l.
Proof.
intros H. unfold without. rewrite List.filter_app. simpl.
rewrite String.eqb_refl. simpl. rewrite app_nil_r. now apply without_absent.
Qed.

Lemma contains_remove_same c e : contains c (remove c e) = false.
Proof. apply existsb_without_same. Qed.

Lemma contains_remove_other c c' e :
  c <> c' -> contains c' (remove c e) = contains c' e.
Proof. apply existsb_without_other. Qed.

Lemma remove_absent c e : contains c e = false -> remove c e = e.
Proof. destruct e as [i l]. unfold contains, remove. simpl. intros H. now rewrite without_absent. Qed.

Lemma remove_add c e : contains c e = false -> remove c (add c e) = e.
Proof.
intros H. unfold add. rewrite H. unfold remove. cbn [id classList].
rewrite without_added by exact H. now destruct e.
Qed.

Lemma contains_add_same c e : contains c (add c e) = true.
Proof.
unfold add. destruct (contains c e) eqn:E; [exact E|].
unfold contains. simpl. rewrite existsb_app. simpl. rewrite String.eqb_refl.
now rewrite orb_true_r.
Qed.

Lemma contains_add_other c c' e : c <> c' -> contains c' (add c e) = contains c' e.
Proof.
intros Hne. unfold add. destruct (contains c e); [reflexivity|].
unfold contains. simpl. rewrite existsb_app. simpl.
destruct (String.eqb c' c) eqn:E; [apply String.eqb_eq in E; congruence|].
now rewrite !orb_false_r.
Qed.

Lemma id_remove c e : id (remove c e) = id e.
Proof. reflexivity. Qed.

Lemma id_add c e : id (add c e) = id e.
Proof. unfold add. now destruct (contains c e). Qed.

Lemma closed_shut fs e : closed fs (shut fs e) = true.
Proof.
unfold shut, closed, releaseButton, closePanel.
destruct (contains "panel" e) eqn:Ep, (contains "active" e) eqn:Ea,
  (contains "action-button" e) eqn:Eb,
  (String.eqb (id e) "toggleFullscreen") eqn:Ei, fs;
  cbn [andb negb orb];
  repeat (rewrite ?contains_remove_same, ?id_remove,
            ?(contains_remove_other "active" "panel"),
            ?(contains_remove_other "active" "action-button"),
            ?Ep, ?Ea, ?Eb, ?Ei by discriminate;
          cbn [andb negb orb]);
  reflexivity.
Qed.

Lemma shut_closed fs e : closed fs e = true -> shut fs e = e.
Proof.
unfold shut, closed, releaseButton, closePanel. intros H.
apply andb_true_iff in H. destruct H as [H1 H2].
apply negb_true_iff in H1. rewrite H1.
apply orb_true_iff in H2. destruct H2 as [H2|H2].
- apply negb_true_iff in H2. now rewrite H2.
- apply andb_true_iff in H2. destruct H2 as [-> ->].
  now destruct (contains "action-button" e && contains "active" e).
Qed.

Lemma closeAllPanels_elements d :
  elements (closeAllPanels d) = map (shut (fullscreenElement d)) (elements d).
Proof.
unfold closeAllPanels. cbn. rewrite map_map.
now destruct (hidePopupDefined d).
Qed.

Lemma closeAllPanels_fullscreen d :
  fullscreenElement (closeAllPanels d) = fullscreenElement d.
Proof. unfold closeAllPanels. cbn. now destruct (hidePopupDefined d). Qed.

End PanelFacts.

(** X24: after [closeAllPanels] no element is an active panel, the only
    action button that can still be active is the fullscreen toggle while
    the page is in fullscreen, ids and the number of elements are as
    before, and the popup is not active when [hidePopup] is defined. *)
Theorem closeAllPanels_closes_everything d :
  Forall (fun e => UI.closed (UI.fullscreenElement d) e = true)
         (UI.elements (UI.closeAllPanels d))
  /\ map UI.id (UI.elements (UI.closeAllPanels d)) = map UI.id (UI.elements d)
  /\ (UI.hidePopupDefined d = true ->
      forall classes, UI.popupMenu (UI.closeAllPanels d) = Some classes ->
                      ~ In "active"%string classes).
Proof.
split; [|split].
- rewrite closeAllPanels_elements. apply List.Forall_map, List.Forall_forall.
  intros e _. apply closed_shut.
- rewrite closeAllPanels_elements, map_map. apply map_ext. intros e.
  unfold UI.shut, UI.releaseButton, UI.closePanel.
  repeat match goal with |- context [if ?b then _ else _] => destruct b end;
    reflexivity.
- intros Hh classes. unfold UI.closeAllPanels. cbn. rewrite Hh. cbn.
  destruct (UI.popupMenu d) as [l|]; cbn; [|discriminate].
  intros [= <-] Hin. unfold UI.without in Hin. apply List.filter_In in Hin.
  destruct Hin as [_ Hin]. now rewrite String.eqb_refl in Hin.
Qed.

Section ToggleFacts.

Local Open Scope nat_scope.
Import UI.

Lemma nth_error_updateAt f i l k :
  nth_error (updateAt f i l) k
  = if Nat.eqb k i then option_map f (nth_error l k) else nth_error l k.
Proof.
revert i k. induction l as [|e l IH]; intros i k.
- assert (H : updateAt f i [] = []) by now destruct i.
  rewrite H. destruct (Nat.eqb k i); now destruct k.
- destruct i, k; cbn; try reflexivity. apply IH.
Qed.

Lemma ids_updateAt f i l :
  (forall e, id (f e) = id e) -> map id (updateAt f i l) = map id l.
Proof.
intros Hf. revert i. induction l as [|e l IH]; intros i; [now destruct i|].
destruct i; cbn; [now rewrite Hf|now rewrite IH].
Qed.

Lemma indexOfId_ids x l l' : map id l = map id l' -> indexOfId x l = indexOfId x l'.
Proof.
revert l'. induction l as [|e l IH]; intros [|e' l'] H; try discriminate; [reflexivity|].
cbn in *. injection H as -> H. now rewrite (IH l' H).
Qed.

Lemma id_shut fs e : id (shut fs e) = id e.
Proof.
unfold shut, releaseButton, closePanel.
repeat match goal with |- context [if ?b then _ else _] => destruct b end; reflexivity.
Qed.

Lemma panel_shut fs e : contains "panel" (shut fs e) = contains "panel" e.
Proof.
unfold shut, releaseButton, closePanel.
repeat match goal with |- context [if ?b then _ else _] => destruct b end;
  rewrite ?(contains_remove_other "active" "panel") by discriminate; reflexivity.
Qed.

Lemma button_shut fs e :
  contains "action-button" (shut fs e) = contains "action-button" e.
Proof.
unfold shut, releaseButton, closePanel.
repeat match goal with |- context [if ?b then _ else _] => destruct b end;
  rewrite ?(contains_remove_other "active" "action-button") by discriminate;
  reflexivity.
Qed.

Lemma add_add c e : add c (add c e) = add c e.
Proof. unfold add at 1. now rewrite contains_add_same. Qed.

Lemma shut_add_panel fs e :
  contains "panel" e = true -> closed fs e = true -> shut fs (add "active" e) = e.
Proof.
intros Hp Hc. assert (Hs := shut_closed fs e Hc).
unfold closed in Hc. rewrite Hp in Hc. cbn [andb] in Hc.
destruct (contains "active" e) eqn:Ea; [discriminate|].
unfold shut, closePanel in *.
rewrite (contains_add_other "active" "panel") by discriminate.
rewrite Hp, contains_add_same. cbn [andb]. rewrite (remove_add _ _ Ea).
now rewrite Hp, Ea in Hs.
Qed.

Lemma shut_add_button fs e :
  contains "action-button" e = true ->
  String.eqb (id e) "toggleFullscreen" && fs = false ->
  closed fs e = true -> shut fs (add "active" e) = e.
Proof.
intros Hb Hx Hc.
destruct (contains "panel" e) eqn:Ep; [now apply shut_add_panel|].
unfold closed in Hc. rewrite Ep, Hb, Hx in Hc. cbn [andb negb orb] in Hc.
rewrite orb_false_r in Hc. apply negb_true_iff in Hc.
unfold shut, closePanel, releaseButton.
rewrite (contains_add_other "active" "panel") by discriminate. rewrite Ep.
cbn [andb]. rewrite (contains_add_other "active" "action-button") by discriminate.
rewrite Hb, contains_add_same, id_add. cbn [andb].
replace (negb (String.eqb (id e) "toggleFullscreen") || negb fs) with true.
- now apply remove_add.
- destruct (String.eqb (id e) "toggleFullscreen"), fs; cbn in *; congruence.
Qed.

Lemma hidePopup_hidePopup d : hidePopup (hidePopup d) = hidePopup d.
Proof.
unfold hidePopup. cbn. f_equal. destruct (popupMenu d) as [l|]; cbn; [|reflexivity].
f_equal. apply without_absent, existsb_without_same.
Qed.

Lemma getElementById_ids x d d' :
  map id (elements d) = map id (elements d') -> getElementById x d = getElementById x d'.
Proof.
intros H. unfold getElementById. destruct (String.eqb x ""); [reflexivity|].
now apply indexOfId_ids.
Qed.

Lemma togglePanel_opened panelId buttonId d i j p :
  getElementById panelId d = Some i -> getElementById buttonId d = Some j ->
  nth_error (elements d) i = Some p -> contains "active" p = false ->
  togglePanel panelId buttonId d
  = set_elements
      (updateAt (add "active") j
         (updateAt (add "active") i (elements (closeAllPanels d))))
      (closeAllPanels d).
Proof.
intros Hi Hj Hp Ha. unfold togglePanel. rewrite Hi, Hj, Hp, Ha. reflexivity.
Qed.


Lemma indexOfId_valid x l i :
  indexOfId x l = Some i -> exists e, nth_error l i = Some e /\ id e = x.
Proof.
revert i. induction l as [|e l IH]; intros i; cbn; [discriminate|].
destruct (String.eqb (id e) x) eqn:E.
- intros [= <-]. exists e. split; [reflexivity|now apply String.eqb_eq].
- destruct (indexOfId x l) as [k|]; cbn; [|discriminate].
  intros [= <-]. now apply IH.
Qed.

Lemma elementById_found x d e :
  elementById x d = Some e ->
  exists i, getElementById x d = Some i /\ nth_error (elements d) i = Some e
            /\ id e = x.
Proof.
unfold elementById. destruct (getElementById x d) as [i|] eqn:E; [|discriminate].
intros H. exists i. split; [reflexivity|]. split; [exact H|].
unfold getElementById in E. destruct (String.eqb x ""); [discriminate|].
destruct (indexOfId_valid _ _ _ E) as (e' & He & Hid). congruence.
Qed.

Lemma closeAllPanels_ids d :
  map id (elements (closeAllPanels d)) = map id (elements d).
Proof.
rewrite closeAllPanels_elements, map_map. apply map_ext. intros e. apply id_shut.
Qed.

Lemma closeAllPanels_popup d :
  popupMenu (closeAllPanels d)
  = if hidePopupDefined d then option_map (without "active") (popupMenu d)
    else popupMenu d.
Proof. unfold closeAllPanels. cbn. now destruct (hidePopupDefined d). Qed.

Lemma closeAllPanels_defined d :
  hidePopupDefined (closeAllPanels d) = hidePopupDefined d.
Proof. unfold closeAllPanels. cbn. now destruct (hidePopupDefined d) eqn:E. Qed.

Lemma document_ext d d' :
  elements d = elements d' -> fullscreenElement d = fullscreenElement d' ->
  popupMenu d = popupMenu d' -> hidePopupDefined d = hidePopupDefined d' -> d = d'.
Proof. destruct d, d'. cbn. now intros -> -> -> ->. Qed.

Lemma opened_ids i j d :
  map id (updateAt (add "active") j
            (updateAt (add "active") i (elements (closeAllPanels d))))
  = map id (elements d).
Proof.
rewrite !ids_updateAt by (intros e; apply id_add). apply closeAllPanels_ids.
Qed.

Lemma opened_nth i j d k :
  nth_error (updateAt (add "active") j
               (updateAt (add "active") i
                  (map (shut (fullscreenElement d)) (elements d)))) k
  = option_map
      (fun e => let e := shut (fullscreenElement d) e in
                if Nat.eqb k i || Nat.eqb k j then add "active" e else e)
      (nth_error (elements d) k).
Proof.
rewrite !nth_error_updateAt, nth_error_map.
destruct (nth_error (elements d) k) as [e|]; cbn;
  destruct (Nat.eqb k i), (Nat.eqb k j); cbn; try reflexivity.
now rewrite add_add.
Qed.

End ToggleFacts.

(** X25: [togglePanel] on a panel that is found, with its button, and is
    not active closes everything else and opens the two: afterwards both
    carry [active], and every element with another id is as
    [closeAllPanels] leaves it. *)
Theorem togglePanel_opens_only_it panelId buttonId d p b :
  UI.elementById panelId d = Some p -> UI.elementById buttonId d = Some b ->
  UI.contains "active" p = false ->
  (exists p', UI.elementById panelId (UI.togglePanel panelId buttonId d) = Some p'
              /\ UI.contains "active" p' = true)
  /\ (exists b', UI.elementById buttonId (UI.togglePanel panelId buttonId d) = Some b'
                 /\ UI.contains "active" b' = true)
  /\ (forall e, In e (UI.elements (UI.togglePanel panelId buttonId d)) ->
                UI.id e <> panelId -> UI.id e <> buttonId ->
                UI.closed (UI.fullscreenElement d) e = true).
Proof.
intros Hp Hb Ha.
destruct (elementById_found _ _ _ Hp) as (i & Hi & Hpi & Hpid).
destruct (elementById_found _ _ _ Hb) as (j & Hj & Hbj & Hbid).
rewrite (togglePanel_opened panelId buttonId d i j p Hi Hj Hpi Ha).
unfold UI.elementById.
rewrite (getElementById_ids panelId _ d), (getElementById_ids buttonId _ d)
  by (cbn; apply opened_ids).
rewrite Hi, Hj. cbn [UI.elements UI.set_elements].
rewrite closeAllPanels_elements, !opened_nth, Hpi, Hbj. cbn [option_map].
rewrite !Nat.eqb_refl, orb_true_r. cbn [orb].
split; [eexists; split; [reflexivity|apply contains_add_same]|].
split; [eexists; split; [reflexivity|apply contains_add_same]|].
intros e Hin Hne1 Hne2. apply In_nth_error in Hin. destruct Hin as [k Hk].
rewrite opened_nth in Hk.
destruct (nth_error (UI.elements d) k) as [e0|] eqn:E0; [|discriminate].
cbn in Hk. injection Hk as <-.
destruct (Nat.eqb k i) eqn:Eki.
- apply Nat.eqb_eq in Eki. subst k. exfalso. apply Hne1. cbn.
  rewrite id_add, id_shut. congruence.
- destruct (Nat.eqb k j) eqn:Ekj; cbn.
  + apply Nat.eqb_eq in Ekj. subst k. exfalso. apply Hne2. cbn.
    rewrite id_add, id_shut. congruence.
  + apply closed_shut.
Qed.

Lemma togglePanel_opens_only_it_witness :
  UI.elementById "infoPanel" UI.samplePage = Some (UI.mkElement "infoPanel" ["panel"%string])
  /\ Forall (fun e => UI.id e <> "infoPanel"%string -> UI.id e <> "toggleInfo"%string ->
                      UI.closed true e = true)
            (UI.elements (UI.togglePanel "infoPanel" "toggleInfo" UI.samplePage)).
Proof.
split; [reflexivity|]. apply List.Forall_forall.
exact (proj2 (proj2 (togglePanel_opens_only_it "infoPanel" "toggleInfo" UI.samplePage
                       _ _ eq_refl eq_refl eq_refl))).
Defined.

(** X26: toggling the same panel twice closes it again: when the panel
    found carries the class [panel] and is not active, and its button is an
    action button other than the fullscreen toggle of a page in fullscreen,
    two calls of [togglePanel] leave the page exactly as one call of
    [closeAllPanels] does. *)
Theorem togglePanel_twice_closes panelId buttonId d p b :
  UI.elementById panelId d = Some p -> UI.elementById buttonId d = Some b ->
  UI.contains "panel" p = true -> UI.contains "active" p = false ->
  UI.contains "action-button" b = true ->
  String.eqb buttonId "toggleFullscreen" && UI.fullscreenElement d = false ->
  UI.togglePanel panelId buttonId (UI.togglePanel panelId buttonId d)
  = UI.closeAllPanels d.
Proof.
intros Hp Hb Hpp Hpa Hbb Hfs.
destruct (elementById_found _ _ _ Hp) as (i & Hi & Hpi & Hpid).
destruct (elementById_found _ _ _ Hb) as (j & Hj & Hbj & Hbid).
rewrite (togglePanel_opened panelId buttonId d i j p Hi Hj Hpi Hpa).
set (L := UI.updateAt _ j _).
assert (Hids : map UI.id L = map UI.id (UI.elements d)) by apply opened_ids.
unfold UI.togglePanel.
rewrite (getElementById_ids panelId _ d), (getElementById_ids buttonId _ d)
  by exact Hids.
rewrite Hi, Hj. cbn [UI.elements UI.set_elements].
subst L. rewrite closeAllPanels_elements, opened_nth, Hpi. cbn [option_map].
rewrite Nat.eqb_refl. cbn [orb]. rewrite contains_add_same. cbn [negb].
apply document_ext.
- rewrite closeAllPanels_elements. cbn [UI.elements UI.fullscreenElement UI.set_elements].
  rewrite closeAllPanels_fullscreen, closeAllPanels_elements.
  apply nth_error_ext. intros k.
  rewrite !nth_error_map, opened_nth.
  destruct (nth_error (UI.elements d) k) as [e|] eqn:Ek; [|reflexivity].
  cbn [option_map]. f_equal.
  destruct (Nat.eqb k i) eqn:Eki; cbn [orb].
  + apply Nat.eqb_eq in Eki. subst k. assert (e = p) by congruence. subst e.
    apply shut_add_panel; [now rewrite panel_shut|apply closed_shut].
  + destruct (Nat.eqb k j) eqn:Ekj.
    * apply Nat.eqb_eq in Ekj. subst k. assert (e = b) by congruence. subst e.
      apply shut_add_button;
        [now rewrite button_shut|rewrite id_shut, Hbid; exact Hfs|apply closed_shut].
    * apply shut_closed, closed_shut.
- rewrite !closeAllPanels_fullscreen. cbn [UI.fullscreenElement UI.set_elements].
  apply closeAllPanels_fullscreen.
- rewrite !closeAllPanels_popup. cbn [UI.popupMenu UI.hidePopupDefined UI.set_elements].
  rewrite closeAllPanels_popup, closeAllPanels_defined.
  destruct (UI.hidePopupDefined d); [|reflexivity].
  destruct (UI.popupMenu d) as [l|]; cbn; [|reflexivity].
  f_equal. apply without_absent, existsb_without_same.
- rewrite !closeAllPanels_defined. cbn. now rewrite closeAllPanels_defined.
Qed.

Lemma togglePanel_twice_closes_witness :
  UI.togglePanel "infoPanel" "toggleInfo"
    (UI.togglePanel "infoPanel" "toggleInfo" UI.samplePage)
  = UI.closeAllPanels UI.samplePage.
Proof.
exact (togglePanel_twice_closes "infoPanel" "toggleInfo" UI.samplePage _ _
         eq_refl eq_refl eq_refl eq_refl eq_refl eq_refl).
Defined.

(* ------------------------------------------------------------------ *)
(** ** The art descriptions *)
(* ------------------------------------------------------------------ *)

Section ArtFacts.

Import Art.
Local Open Scope string_scope.

Lemma append_cons x (a b : string) : String x a ++ b = String x (a ++ b).
Proof. reflexivity. Qed.

Lemma append_assoc_s (a b c : string) : (a ++ b) ++ c = a ++ (b ++ c).
Proof.
induction a as [|x a IH]; [reflexivity|]. rewrite !append_cons. now f_equal.
Qed.

Lemma append_empty_r (a : string) : a ++ "" = a.
Proof. induction a as [|x a IH]; [reflexivity|]. rewrite append_cons. now f_equal. Qed.

Lemma prefix_append (a b : string) : String.prefix a (a ++ b) = true.
Proof.
induction a as [|x a IH]; [now destruct b|]. rewrite append_cons. cbn [String.prefix].
destruct (Ascii.ascii_dec x x); [exact IH|congruence].
Qed.

Lemma prefix_includes k s : String.prefix k s = true -> includes k s = true.
Proof. intros H. destruct s; cbn [includes]; now rewrite H. Qed.

Lemma includes_append needle pre post :
  includes needle (pre ++ needle ++ post) = true.
Proof.
induction pre as [|x pre IH].
- change ("" ++ needle ++ post) with (needle ++ post).
  apply prefix_includes, prefix_append.
- change ((String x pre) ++ needle ++ post) with (String x (pre ++ needle ++ post)).
  cbn [includes]. rewrite IH. apply orb_true_r.
Qed.

Lemma includes_refl s : includes s s = true.
Proof.
rewrite <- (append_empty_r s) at 2. exact (includes_append s "" "").
Qed.

Lemma split_shape sep s :
  exists first others,
    split sep s = first :: others
    /\ (others = [] -> first = s)
    /\ exists pre, s = pre ++ List.last (first :: others) "".
Proof.
induction s as [|c rest IH].
- exists "", []. repeat split. now exists "".
- destruct IH as (first & others & Hs & Hone & pre & Hpre).
  cbn [split]. rewrite Hs. destruct (Ascii.eqb c sep).
  + exists "", (first :: others). split; [reflexivity|]. split; [discriminate|].
    exists (String c pre).
    change (List.last ("" :: first :: others) "") with (List.last (first :: others) "").
    rewrite append_cons. now rewrite <- Hpre.
  + exists (String c first), others. split; [reflexivity|]. split.
    * intros Ho. now rewrite (Hone Ho).
    * destruct others as [|o others].
      -- exists "". cbn [List.last]. now rewrite (Hone eq_refl).
      -- exists (String c pre).
         change (List.last (String c first :: o :: others) "")
           with (List.last (o :: others) "").
         change (List.last (first :: o :: others) "")
           with (List.last (o :: others) "") in Hpre.
         rewrite append_cons. now rewrite <- Hpre.
Qed.

Lemma pop_split_suffix sep s : exists pre, s = pre ++ pop (split sep s).
Proof.
destruct (split_shape sep s) as (first & others & Hs & _ & pre & Hpre).
exists pre. unfold pop. now rewrite Hs.
Qed.

Lemma trimStart_suffix s : exists pre, s = pre ++ trimStart s.
Proof.
induction s as [|c rest [pre IH]]; [now exists ""|].
cbn [trimStart]. destruct (whiteSpace c).
- exists (String c pre). rewrite append_cons. now rewrite <- IH.
- now exists "".
Qed.

Lemma trimEnd_prefix s : exists post, s = trimEnd s ++ post.
Proof.
induction s as [|c rest [post IH]]; [now exists ""|].
cbn [trimEnd]. destruct (trimEnd rest) as [|k kept].
- destruct (whiteSpace c).
  + now exists (String c rest).
  + exists rest. reflexivity.
- exists post. rewrite append_cons. now rewrite <- IH.
Qed.

Lemma trimmed_segment_included sep name :
  includes (trim (pop (split sep name))) name = true.
Proof.
unfold trim.
destruct (pop_split_suffix sep name) as [pre Hpre].
destruct (trimStart_suffix (pop (split sep name))) as [pre2 Hpre2].
destruct (trimEnd_prefix (trimStart (pop (split sep name)))) as [post Hpost].
rewrite Hpre at 2. rewrite Hpre2 at 2. rewrite Hpost at 2.
rewrite <- append_assoc_s. apply includes_append.
Qed.

Lemma simpleName_included name : includes (simpleName name) name = true.
Proof. apply trimmed_segment_included. Qed.

Lemma own_key k a table : own k table = Some a -> In k (map fst table).
Proof.
induction table as [|[k' a'] rest IH]; cbn; [discriminate|].
destruct (String.eqb k' k) eqn:E.
- apply String.eqb_eq in E. now left.
- intros H. right. now apply IH.
Qed.

Lemma own_absent k table : ~ In k (map fst table) -> own k table = None.
Proof.
induction table as [|[k' a'] rest IH]; cbn; [reflexivity|].
intros H. destruct (String.eqb k' k) eqn:E.
- apply String.eqb_eq in E. tauto.
- apply IH. tauto.
Qed.

End ArtFacts.

(** X27: [getArtInfo] returns the object for untitled work exactly for the
    names in which no key of the table occurs (and which are not, as a
    whole or after the last bar, a member name of [Object.prototype]): a
    name that mentions a known piece anywhere never gets the default. *)
Theorem getArtInfo_default_iff meshName :
  Art.getArtInfo meshName = Art.Untitled
  <-> (forall key, In key (map fst Art.ART_DESCRIPTIONS) ->
                   Art.includes key meshName = false)
      /\ EM.inherited meshName = false
      /\ (Art.includes "|" meshName = true ->
          EM.inherited (Art.simpleName meshName) = false).
Proof.
unfold Art.getArtInfo, Art.get. split.
- intros H.
  destruct (Art.own meshName Art.ART_DESCRIPTIONS) eqn:Eo; [discriminate|].
  destruct (EM.inherited meshName) eqn:Ei; [discriminate|].
  destruct (Art.includes "|" meshName) eqn:Eb.
  + destruct (Art.own (Art.simpleName meshName) Art.ART_DESCRIPTIONS) eqn:Es;
      [discriminate|].
    destruct (EM.inherited (Art.simpleName meshName)) eqn:Eis; [discriminate|].
    destruct (List.find _ Art.ART_DESCRIPTIONS) as [[k a]|] eqn:Ef; [discriminate|].
    split; [|now split].
    intros key Hk. apply in_map_iff in Hk. destruct Hk as ([k a] & <- & Hin).
    apply (List.find_none _ _ Ef) in Hin. cbn in Hin.
    now apply orb_false_iff in Hin.
  + destruct (List.find _ Art.ART_DESCRIPTIONS) as [[k a]|] eqn:Ef; [discriminate|].
    split; [|split; [reflexivity|discriminate]].
    intros key Hk. apply in_map_iff in Hk. destruct Hk as ([k a] & <- & Hin).
    apply (List.find_none _ _ Ef) in Hin. cbn in Hin.
    now apply orb_false_iff in Hin.
- intros (Hkeys & Hi & Hs).
  assert (Hown : forall name, Art.includes name meshName = true ->
                              Art.own name Art.ART_DESCRIPTIONS = None).
  { intros name Hinc. apply own_absent. intros Hin.
    rewrite (Hkeys name Hin) in Hinc. discriminate. }
  rewrite (Hown meshName (includes_refl meshName)), Hi.
  assert (Hf : List.find (fun entry => Art.startsWith (fst entry) meshName
                                       || Art.includes (fst entry) meshName)
                         Art.ART_DESCRIPTIONS = None).
  { destruct (List.find _ Art.ART_DESCRIPTIONS) as [[k a]|] eqn:Ef; [|reflexivity].
    apply List.find_some in Ef. destruct Ef as [Hin Hm]. cbn in Hm.
    assert (Hk : Art.includes k meshName = false).
    { apply Hkeys. change k with (fst (k, a)). now apply in_map. }
    rewrite Hk, orb_false_r in Hm. apply prefix_includes in Hm. congruence. }
  destruct (Art.includes "|" meshName) eqn:Eb.
  + rewrite (Hown _ (simpleName_included meshName)), (Hs eq_refl). now rewrite Hf.
  + now rewrite Hf.
Qed.
